(** * Transaction status progression of the banking front-end

    A shallow embedding of the transaction ledger kept by the [App]
    component: [createTransaction], the periodic status sweep installed by
    [useEffect]/[setInterval], [onAuthorizeTransaction] and
    [onUpdateRecipient], followed by the properties of the status state
    machine.

    Conventions of the embedding.
    - A [Date] is its [getTime()] value: an integer number of milliseconds
      ([Z]).  Every read of the clock ([new Date()], [Date.now()]) is an
      explicit argument of the operation that performs it.
    - JavaScript numbers are idealised as exact rationals ([Q]); in
      particular [elapsedSeconds] is the exact quotient by 1000.
    - A JavaScript object used as a dictionary ([statusTimestamps]) is a
      [gmap]; optional fields are [option]s; an uncaught [TypeError] is
      [None].
    - Calls into the notification sinks are recorded, in call order, as a
      list of [Effect]s. *)

From Stdlib Require Import QArith.
From stdpp Require Import base option list strings gmap pretty.

Local Open Scope Z_scope.

(** ** Data model *)

(** Modelled from the spec: the enumeration [TransactionStatus] of
    [types.ts] (absent); its six members are the ones the source names, and
    each member is a truthy value. *)
Inductive TransactionStatus :=
  | SUBMITTED
  | CONVERTING
  | FLAGGED_AWAITING_CLEARANCE
  | CLEARANCE_GRANTED
  | IN_TRANSIT
  | FUNDS_ARRIVED.

#[global] Instance TransactionStatus_eq_dec : EqDecision TransactionStatus.
Proof. solve_decision. Defined.

Definition status_code (s : TransactionStatus) : nat :=
  match s with
  | SUBMITTED => 0 | CONVERTING => 1 | FLAGGED_AWAITING_CLEARANCE => 2
  | CLEARANCE_GRANTED => 3 | IN_TRANSIT => 4 | FUNDS_ARRIVED => 5
  end%nat.

Definition status_of_code (n : nat) : TransactionStatus :=
  match n with
  | 0 => SUBMITTED | 1 => CONVERTING | 2 => FLAGGED_AWAITING_CLEARANCE
  | 3 => CLEARANCE_GRANTED | 4 => IN_TRANSIT | _ => FUNDS_ARRIVED
  end%nat.

#[global] Instance TransactionStatus_countable : Countable TransactionStatus.
Proof. by apply (inj_countable' status_code status_of_code); intros []. Defined.

Record Country := mkCountry {
  code : string;
  countryName : string;
}.

Record DeliveryOptions := mkDeliveryOptions {
  bankDeposit : bool;
  cardDeposit : bool;
  cashPickup : bool;
}.

Record RealDetails := mkRealDetails {
  real_accountNumber : string;
  swiftBic : string;
}.

Record Recipient := mkRecipient {
  rec_id : string;
  fullName : string;
  nickname : option string;
  phone : option string;
  bankName : string;
  accountNumber : string;
  country : Country;
  deliveryOptions : DeliveryOptions;
  realDetails : RealDetails;
  streetAddress : option string;
  city : option string;
  stateProvince : option string;
  postalCode : option string;
}.

Inductive TxType := debit | credit.

(** [Omit<Transaction, 'id' | 'status' | 'estimatedArrival' |
    'statusTimestamps' | 'type'>]: what a caller hands to
    [createTransaction]. *)
Record TransactionDetails := mkDetails {
  d_accountId : string;
  d_recipient : Recipient;
  d_sendAmount : Q;
  d_receiveAmount : Q;
  d_fee : Q;
  d_exchangeRate : Q;
  d_purpose : option string;
  d_description : option string;
  d_splitGroupId : option string;
  d_requiresAuth : option bool;
  d_clearanceFeePaid : option bool;
}.

Record Transaction := mkTransaction {
  tx_id : string;
  accountId : string;
  recipient : Recipient;
  sendAmount : Q;
  receiveAmount : Q;
  fee : Q;
  exchangeRate : Q;
  status : TransactionStatus;
  txType : TxType;
  estimatedArrival : Z;
  statusTimestamps : gmap TransactionStatus Z;
  purpose : option string;
  description : option string;
  splitGroupId : option string;
  requiresAuth : option bool;
  clearanceFeePaid : option bool;
}.

(** [{ ...tx, status: s, statusTimestamps: ts }] *)
Definition with_status (tx : Transaction) (s : TransactionStatus)
    (ts : gmap TransactionStatus Z) : Transaction :=
  {| tx_id := tx_id tx; accountId := accountId tx; recipient := recipient tx;
     sendAmount := sendAmount tx; receiveAmount := receiveAmount tx;
     fee := fee tx; exchangeRate := exchangeRate tx;
     status := s; txType := txType tx;
     estimatedArrival := estimatedArrival tx;
     statusTimestamps := ts;
     purpose := purpose tx; description := description tx;
     splitGroupId := splitGroupId tx;
     requiresAuth := requiresAuth tx;
     clearanceFeePaid := clearanceFeePaid tx |}.

(** [{ ...tx, status: s, statusTimestamps: ts, clearanceFeePaid: b }] *)
Definition with_clearance (tx : Transaction) (s : TransactionStatus)
    (ts : gmap TransactionStatus Z) (b : bool) : Transaction :=
  {| tx_id := tx_id tx; accountId := accountId tx; recipient := recipient tx;
     sendAmount := sendAmount tx; receiveAmount := receiveAmount tx;
     fee := fee tx; exchangeRate := exchangeRate tx;
     status := s; txType := txType tx;
     estimatedArrival := estimatedArrival tx;
     statusTimestamps := ts;
     purpose := purpose tx; description := description tx;
     splitGroupId := splitGroupId tx;
     requiresAuth := requiresAuth tx;
     clearanceFeePaid := Some b |}.

(** JavaScript truthiness of an optional boolean field. *)
Definition truthy (b : option bool) : bool :=
  match b with Some true => true | _ => false end.

(** ** Collaborators: settings, profile and the notification sinks *)

Record UserProfile := mkUserProfile {
  profileName : string;
  email : string;
  profilePhone : option string;
}.

(** The switches of [pushNotificationSettings] and [privacySettings] that
    the ledger operations read. *)
Record Settings := mkSettings {
  push_transactions : bool;      (* pushNotificationSettings.transactions *)
  push_security : bool;          (* pushNotificationSettings.security *)
  email_transactions : bool;     (* privacySettings.email.transactions *)
  sms_transactions : bool;       (* privacySettings.sms.transactions *)
}.

(** The members of [NotificationType] the component uses. *)
Inductive NotificationType := TRANSACTION | SECURITY | CARD | ACCOUNT | TASK.

(** The message templates, with the values interpolated into them. *)
Inductive Message :=
  | TransferSubmittedMsg (amount : Q) (to : string)
      (* `Your transfer of ${amount} to ${to} has been submitted.` *)
  | FundsArrivedMsg (to : string)
      (* `Your transfer to ${to} has arrived.` *)
  | RecipientUpdatedMsg (who : string).
      (* `Details for ${who} have been updated.` *)

(** The generators of [notificationService.ts] are kept symbolic: a
    generated mail or text is the generator applied to its arguments. *)
Inductive Generated :=
  | generateTransactionReceiptEmail (tx : Transaction) (name : string)
  | generateTransactionReceiptSms (tx : Transaction)
  | generateFundsArrivedEmail (tx : Transaction) (name : string).

Inductive Effect :=
  | addNotification (type : NotificationType) (title : string)
      (message : Message) (linkTo : option string)
  | sendTransactionalEmail (to : string) (content : Generated)
  | sendSmsNotification (to : string) (content : Generated).

Record Env := mkEnv {
  settings : Settings;
  userProfile : UserProfile;
}.

(** ** The status sweep *)

(** [(now.getTime() - submittedTime) / 1000] *)
Definition elapsedSeconds (now submittedTime : Z) : Q :=
  (inject_Z (now - submittedTime) / inject_Z 1000)%Q.

(** [x > y] on numbers. *)
Definition Qgtb (x y : Q) : bool := negb (Qle_bool x y).

(** The side effects of the IN_TRANSIT branch, in call order. *)
Definition arrivalEffects (env : Env) (tx : Transaction) : list Effect :=
  (if push_transactions (settings env)
   then [addNotification TRANSACTION "Funds Arrived"
           (FundsArrivedMsg (fullName (recipient tx))) None]
   else []) ++
  (if email_transactions (settings env)
   then [sendTransactionalEmail (email (userProfile env))
           (generateFundsArrivedEmail tx (profileName (userProfile env)))]
   else []).

(** The callback of [prevTransactions.map] inside the interval: the record
    that replaces [tx] and the sink calls made on the way.  [None] is the
    [TypeError] raised by [.getTime()] on a missing timestamp. *)
Definition sweepTx (env : Env) (now : Z) (tx : Transaction)
    : option (Transaction * list Effect) :=
  if bool_decide (status tx = FUNDS_ARRIVED) then Some (tx, [])
  else
    submittedTime ← statusTimestamps tx !! SUBMITTED;
    let elapsed := elapsedSeconds now submittedTime in
    let advance (nextStatus : TransactionStatus) (effs : list Effect) :=
      Some (with_status tx nextStatus
              (<[nextStatus := now]> (statusTimestamps tx)), effs) in
    if bool_decide (status tx = SUBMITTED) && Qgtb elapsed 4 then
      advance (if truthy (requiresAuth tx)
               then FLAGGED_AWAITING_CLEARANCE else CONVERTING) []
    else if bool_decide (status tx = CONVERTING) && Qgtb elapsed 8 then
      advance IN_TRANSIT []
    else if bool_decide (status tx = IN_TRANSIT) && Qgtb elapsed 15 then
      advance FUNDS_ARRIVED (arrivalEffects env tx)
    else if bool_decide (status tx = CLEARANCE_GRANTED) then
      grantedTime ← statusTimestamps tx !! CLEARANCE_GRANTED;
      if Qgtb elapsed
           (inject_Z (grantedTime - submittedTime) / inject_Z 1000 + 4)%Q
      then advance IN_TRANSIT []
      else Some (tx, [])
    else Some (tx, []).

(** ** The ledger operations *)

(** The part of the component state the operations touch:
    [useState<Transaction[]>] and [useState<Recipient[]>]. *)
Record AppState := mkAppState {
  transactions : list Transaction;
  recipients : list Recipient;
}.

(** The interval callback: [setTransactions(prev => prev.map(...))].  The
    callback reads the clock once per visited record; [clock i] is the
    reading taken at position [i]. *)
Fixpoint sweepFrom (env : Env) (clock : nat → Z) (i : nat)
    (txs : list Transaction) : option (list Transaction * list Effect) :=
  match txs with
  | [] => Some ([], [])
  | tx :: rest =>
      '(tx', e) ← sweepTx env (clock i) tx;
      '(rest', es) ← sweepFrom env clock (S i) rest;
      Some (tx' :: rest', e ++ es)
  end.

Definition sweep (env : Env) (clock : nat → Z) (st : AppState)
    : option (AppState * list Effect) :=
  '(txs', effs) ← sweepFrom env clock 0 (transactions st);
  Some ({| transactions := txs'; recipients := recipients st |}, effs).

Inductive AuthMethod := method_code | method_fee.

#[global] Instance AuthMethod_eq_dec : EqDecision AuthMethod.
Proof. solve_decision. Defined.

(** The callback of [prev.map] in [onAuthorizeTransaction]. *)
Definition authorizeTx (transactionId : string) (method : AuthMethod)
    (now : Z) (tx : Transaction) : Transaction :=
  if bool_decide (tx_id tx = transactionId)
     && bool_decide (status tx = FLAGGED_AWAITING_CLEARANCE)
  then with_clearance tx CLEARANCE_GRANTED
         (<[CLEARANCE_GRANTED := now]> (statusTimestamps tx))
         (bool_decide (method = method_fee))
  else tx.

Definition onAuthorizeTransaction (transactionId : string)
    (method : AuthMethod) (clock : nat → Z) (st : AppState)
    : AppState * list Effect :=
  ({| transactions :=
        imap (λ i tx, authorizeTx transactionId method (clock i) tx)
             (transactions st);
      recipients := recipients st |}, []).

(** The object literal [newTransaction] of [createTransaction].  The three
    clock reads are [Date.now()] for the id, [Date.now()] for the estimated
    arrival and [new Date()] for the SUBMITTED timestamp. *)
Definition newTransaction (transactionDetails : TransactionDetails)
    (t_id t_eta t_sub : Z) : Transaction :=
  {| tx_id := "txn_" +:+ pretty t_id;
     accountId := d_accountId transactionDetails;
     recipient := d_recipient transactionDetails;
     sendAmount := d_sendAmount transactionDetails;
     receiveAmount := d_receiveAmount transactionDetails;
     fee := d_fee transactionDetails;
     exchangeRate := d_exchangeRate transactionDetails;
     status := SUBMITTED;
     txType := debit;
     estimatedArrival := t_eta + 86400000 * 3;
     statusTimestamps := {[ SUBMITTED := t_sub ]};
     purpose := d_purpose transactionDetails;
     description := d_description transactionDetails;
     splitGroupId := d_splitGroupId transactionDetails;
     requiresAuth := d_requiresAuth transactionDetails;
     clearanceFeePaid := d_clearanceFeePaid transactionDetails |}.

(** The sink calls of [createTransaction], in call order. *)
Definition submitEffects (env : Env) (tx : Transaction) : list Effect :=
  [addNotification TRANSACTION "Transfer Submitted"
     (TransferSubmittedMsg (sendAmount tx) (fullName (recipient tx)))
     (Some "history")] ++
  (if email_transactions (settings env)
   then [sendTransactionalEmail (email (userProfile env))
           (generateTransactionReceiptEmail tx (profileName (userProfile env)))]
   else []) ++
  (if sms_transactions (settings env)
   then [sendSmsNotification (default "" (profilePhone (userProfile env)))
           (generateTransactionReceiptSms tx)]
   else []).

(** [createTransaction]: the value the returned promise resolves to, the
    next state ([setTransactions(prev => [newTransaction, ...prev])]) and
    the sink calls. *)
Definition createTransaction (env : Env)
    (transactionDetails : TransactionDetails) (t_id t_eta t_sub : Z)
    (st : AppState) : Transaction * AppState * list Effect :=
  let tx := newTransaction transactionDetails t_id t_eta t_sub in
  (tx,
   {| transactions := tx :: transactions st; recipients := recipients st |},
   submitEffects env tx).

(** The form data handed to [onUpdateRecipient] ([data: any], read field by
    field). *)
Record RecipientData := mkRecipientData {
  data_fullName : string;
  data_nickname : option string;
  data_phone : option string;
  data_bankName : string;
  data_accountNumber : string;
  data_country : Country;
  data_swiftBic : string;
  data_streetAddress : option string;
  data_city : option string;
  data_stateProvince : option string;
  data_postalCode : option string;
}.

(** [s.slice(-4)]: the last four characters (all of [s] when shorter). *)
Definition slice_last4 (s : string) : string :=
  String.string_of_list_ascii
    (drop (length (String.list_ascii_of_string s) - 4)%nat
          (String.list_ascii_of_string s)).

(** The object literal built for a matching recipient:
    [{ ...r, fullName: data.fullName, ... }]. *)
Definition updatedRecipient (r : Recipient) (data : RecipientData) : Recipient :=
  {| rec_id := rec_id r;
     fullName := data_fullName data;
     nickname := data_nickname data;
     phone := data_phone data;
     bankName := data_bankName data;
     accountNumber := "•••• " +:+ slice_last4 (data_accountNumber data);
     country := data_country data;
     deliveryOptions := deliveryOptions r;
     realDetails := {| real_accountNumber := data_accountNumber data;
                       swiftBic := data_swiftBic data |};
     streetAddress := data_streetAddress data;
     city := data_city data;
     stateProvince := data_stateProvince data;
     postalCode := data_postalCode data |}.

Definition onUpdateRecipient (recipientId : string) (data : RecipientData)
    (st : AppState) : AppState * list Effect :=
  ({| transactions := transactions st;
      recipients :=
        map (λ r, if bool_decide (rec_id r = recipientId)
                  then updatedRecipient r data else r)
            (recipients st) |},
   [addNotification ACCOUNT "Recipient Updated"
      (RecipientUpdatedMsg (data_fullName data)) None]).

(** ** The life of one record

    Both [sweep] and [onAuthorizeTransaction] rebuild the ledger with
    [Array.prototype.map], so what happens to one record depends on that
    record alone.  A [TxEvent] is what one ledger operation does to one
    record; [runTx] replays a sequence of them and returns every
    intermediate record (the first being the record it started from) and
    the sink calls made for it. *)
Inductive TxEvent :=
  | Swept (now : Z)
  | Authorized (transactionId : string) (method : AuthMethod) (now : Z).

Definition stepTx (env : Env) (ev : TxEvent) (tx : Transaction)
    : option (Transaction * list Effect) :=
  match ev with
  | Swept now => sweepTx env now tx
  | Authorized transactionId method now =>
      Some (authorizeTx transactionId method now tx, [])
  end.

Fixpoint runTx (env : Env) (evs : list TxEvent) (tx : Transaction)
    : option (list Transaction * list Effect) :=
  match evs with
  | [] => Some ([tx], [])
  | ev :: rest =>
      '(tx', e) ← stepTx env ev tx;
      '(tr, es) ← runTx env rest tx';
      Some (tx :: tr, e ++ es)
  end.

(** ** Sequences of ledger operations *)

(** The three operations of the ledger, with the clock readings they
    take. *)
Inductive Op :=
  | Submit (details : TransactionDetails) (t_id t_eta t_sub : Z)
  | Sweep (clock : nat → Z)
  | Authorize (transactionId : string) (method : AuthMethod)
      (clock : nat → Z).

Definition stepApp (env : Env) (op : Op) (st : AppState)
    : option (AppState * list Effect) :=
  match op with
  | Submit details t_id t_eta t_sub =>
      let '(_, st', effs) :=
        createTransaction env details t_id t_eta t_sub st in
      Some (st', effs)
  | Sweep clock => sweep env clock st
  | Authorize transactionId method clock =>
      Some (onAuthorizeTransaction transactionId method clock st)
  end.

Fixpoint runApp (env : Env) (ops : list Op) (st : AppState)
    : option (AppState * list Effect) :=
  match ops with
  | [] => Some (st, [])
  | op :: rest =>
      '(st', e) ← stepApp env op st;
      '(st'', es) ← runApp env rest st';
      Some (st'', e ++ es)
  end.

(** ** Recipients by reference

    [createTransaction] stores the recipient object it is handed, without
    copying it ([...transactionDetails] is a shallow spread), so a ledger
    record may share its recipient with the recipients array.  Here the
    objects live in a store, and the array and the ledger hold references
    into it, to see what an edit does to an object a ledger record refers
    to. *)

Record RefState := mkRefState {
  objects : gmap nat Recipient;   (* the recipient objects allocated so far *)
  recipientRefs : list nat;       (* the array of [useState<Recipient[]>] *)
  ledgerRefs : list nat;          (* [tx.recipient], in ledger order *)
}.

(** [prev.map(r => r.id === recipientId ? { ...r, ... } : r)]: a match
    allocates a new object, everything else keeps its reference.  [None]
    stands for a reference to no object, which no array can hold. *)
Fixpoint updateRefs (recipientId : string) (data : RecipientData)
    (heap : gmap nat Recipient) (refs : list nat)
    : option (gmap nat Recipient * list nat) :=
  match refs with
  | [] => Some (heap, [])
  | l :: rest =>
      r ← heap !! l;
      if bool_decide (rec_id r = recipientId) then
        let l' := fresh (dom heap) in
        '(heap', rest') ←
          updateRefs recipientId data (<[l' := updatedRecipient r data]> heap)
                     rest;
        Some (heap', l' :: rest')
      else
        '(heap', rest') ← updateRefs recipientId data heap rest;
        Some (heap', l :: rest')
  end.

Definition onUpdateRecipientRef (recipientId : string) (data : RecipientData)
    (s : RefState) : option RefState :=
  '(heap', refs') ← updateRefs recipientId data (objects s) (recipientRefs s);
  Some {| objects := heap'; recipientRefs := refs';
          ledgerRefs := ledgerRefs s |}.

(** [createTransaction], as far as references go: the record holds the
    reference found in the details. *)
Definition createTransactionRef (recipientRef : nat) (s : RefState)
    : RefState :=
  {| objects := objects s; recipientRefs := recipientRefs s;
     ledgerRefs := recipientRef :: ledgerRefs s |}.

(** A sequence of edits. *)
Fixpoint editAll (edits : list (string * RecipientData)) (s : RefState)
    : option RefState :=
  match edits with
  | [] => Some s
  | (recipientId, data) :: rest =>
      s' ← onUpdateRecipientRef recipientId data s;
      editAll rest s'
  end.

(** The objects behind a list of references. *)
Definition deref (heap : gmap nat Recipient) (refs : list nat)
    : option (list Recipient) :=
  mapM (λ l, heap !! l) refs.

(** No reference dangles. *)
Definition allocated (s : RefState) : Prop :=
  Forall (λ l, is_Some (objects s !! l)) (recipientRefs s ++ ledgerRefs s).

(** * Vocabulary of the properties *)

(** ** Edges of the state graph *)

(** The status a sweep can move a record to, if any: the edges of the
    state graph that are driven by the timer. *)
Definition sweepTarget (tx : Transaction) : option TransactionStatus :=
  match status tx with
  | SUBMITTED =>
      Some (if truthy (requiresAuth tx)
            then FLAGGED_AWAITING_CLEARANCE else CONVERTING)
  | CONVERTING => Some IN_TRANSIT
  | CLEARANCE_GRANTED => Some IN_TRANSIT
  | IN_TRANSIT => Some FUNDS_ARRIVED
  | FLAGGED_AWAITING_CLEARANCE | FUNDS_ARRIVED => None
  end.

(** The record a sweep at [now] produces when it fires the edge to [s]. *)
Definition moved (tx : Transaction) (s : TransactionStatus) (now : Z)
    : Transaction :=
  with_status tx s (<[s := now]> (statusTimestamps tx)).

(** The record an accepted authorization at [now] produces. *)
Definition granted (tx : Transaction) (method : AuthMethod) (now : Z)
    : Transaction :=
  with_clearance tx CLEARANCE_GRANTED
    (<[CLEARANCE_GRANTED := now]> (statusTimestamps tx))
    (bool_decide (method = method_fee)).

(** What one event can do to one record. *)
Inductive TxStep (env : Env) : TxEvent → Transaction → Transaction →
    list Effect → Prop :=
  | step_stay ev tx :
      TxStep env ev tx tx []
  | step_timer now tx s :
      sweepTarget tx = Some s →
      TxStep env (Swept now) tx (moved tx s now)
        (if bool_decide (s = FUNDS_ARRIVED) then arrivalEffects env tx else [])
  | step_grant method now tx :
      status tx = FLAGGED_AWAITING_CLEARANCE →
      TxStep env (Authorized (tx_id tx) method now) tx
        (granted tx method now) [].

(** The fields of a record other than [status], [statusTimestamps] and
    [clearanceFeePaid]. *)
Definition otherFields (tx : Transaction) :=
  (tx_id tx, accountId tx, recipient tx, sendAmount tx, receiveAmount tx,
   fee tx, exchangeRate tx, txType tx, estimatedArrival tx, purpose tx,
   description tx, splitGroupId tx, requiresAuth tx).

(** ** Measures and invariants *)

(** Whether an event is a sweep. *)
Definition isSwept (ev : TxEvent) : bool :=
  match ev with Swept _ => true | Authorized _ _ _ => false end.

(** The number of sweeps in a sequence of events. *)
Definition countSwept (evs : list TxEvent) : nat :=
  length (filter (λ ev, isSwept ev = true) evs).

(** The number of timer edges between a status and FUNDS_ARRIVED. *)
Definition sweepsLeft (s : TransactionStatus) : nat :=
  match s with
  | SUBMITTED => 3
  | CONVERTING | FLAGGED_AWAITING_CLEARANCE | CLEARANCE_GRANTED => 2
  | IN_TRANSIT => 1
  | FUNDS_ARRIVED => 0
  end.

(** The depth of a status in the state graph: every edge goes strictly
    deeper. *)
Definition rank (s : TransactionStatus) : nat :=
  match s with
  | SUBMITTED => 0
  | CONVERTING | FLAGGED_AWAITING_CLEARANCE => 1
  | CLEARANCE_GRANTED => 2
  | IN_TRANSIT => 3
  | FUNDS_ARRIVED => 4
  end.

(** What holds of every record from its creation on: it has a SUBMITTED
    timestamp and a timestamp for its current status, and no timestamp for
    a status deeper than the current one. *)
Definition well_formed (tx : Transaction) : Prop :=
  is_Some (statusTimestamps tx !! SUBMITTED) ∧
  is_Some (statusTimestamps tx !! status tx) ∧
  ∀ s, is_Some (statusTimestamps tx !! s) → (rank s ≤ rank (status tx))%nat.

(** The step at position [k] of a run enters status [s]. *)
Definition enters (s : TransactionStatus) (tr : list Transaction) (k : nat)
    : Prop :=
  ∃ a b, tr !! k = Some a ∧ tr !! S k = Some b ∧
         status a ≠ s ∧ status b = s.

(** The invariant of a record flagged at creation: it keeps its id and its
    [requiresAuth] flag, and is never CONVERTING. *)
Definition gated (transactionId : string) (tx : Transaction) : Prop :=
  tx_id tx = transactionId ∧ truthy (requiresAuth tx) = true ∧
  status tx ≠ CONVERTING.

(** [tx'] is what some sequence of sweeps and authorizations makes of
    [tx]. *)
Definition lives (env : Env) (tx tx' : Transaction) : Prop :=
  ∃ evs tr effs, runTx env evs tx = Some (tr, effs) ∧ last tr = Some tx'.

(** ** Counting sink calls *)

(** The "Funds Arrived" notification. *)
Definition isArrivalNotification (e : Effect) : bool :=
  match e with
  | addNotification TRANSACTION title (FundsArrivedMsg _) _ =>
      bool_decide (title = "Funds Arrived")
  | _ => false
  end.

(** The funds-arrived mail handed to [sendTransactionalEmail]. *)
Definition isArrivalReceipt (e : Effect) : bool :=
  match e with
  | sendTransactionalEmail _ (generateFundsArrivedEmail _ _) => true
  | _ => false
  end.

(** The number of sink calls of a kind. *)
Definition countIf (p : Effect → bool) (effs : list Effect) : nat :=
  length (filter (λ e, p e = true) effs).

(** The number of ledger records that have arrived. *)
Definition arrivedCount (txs : list Transaction) : nat :=
  length (filter (λ tx, status tx = FUNDS_ARRIVED) txs).

(** What the sink calls [effs] amount to when the number of arrived
    records goes from [before] to [after]: for each kind of arrival call,
    one per record that arrived, when the switch of that kind is on. *)
Definition arrivalsMatch (env : Env) (effs : list Effect)
    (before after : nat) : Prop :=
  (before ≤ after)%nat ∧
  countIf isArrivalNotification effs
  = (if push_transactions (settings env) then after - before else 0)%nat ∧
  countIf isArrivalReceipt effs
  = (if email_transactions (settings env) then after - before else 0)%nat.

(** ** Sample data *)

Definition demoEnv : Env :=
  {| settings := {| push_transactions := true; push_security := true;
                    email_transactions := true; sms_transactions := false |};
     userProfile := {| profileName := "Randy"; email := "randy@example.com";
                       profilePhone := None |} |}.

(** The same session with the transaction alerts switched off. *)
Definition quietEnv : Env :=
  {| settings := {| push_transactions := false; push_security := true;
                    email_transactions := false; sms_transactions := false |};
     userProfile := userProfile demoEnv |}.

Definition demoRecipient : Recipient :=
  {| rec_id := "rec_1"; fullName := "Jane Doe"; nickname := None;
     phone := None; bankName := "Chase"; accountNumber := "•••• 1234";
     country := {| code := "US"; countryName := "United States" |};
     deliveryOptions := {| bankDeposit := true; cardDeposit := true;
                           cashPickup := false |};
     realDetails := {| real_accountNumber := "00001234";
                       swiftBic := "CHASUS33" |};
     streetAddress := None; city := None; stateProvince := None;
     postalCode := None |}.

Definition demoDetails (auth : option bool) : TransactionDetails :=
  {| d_accountId := "acc_1"; d_recipient := demoRecipient;
     d_sendAmount := 100; d_receiveAmount := 100; d_fee := 0;
     d_exchangeRate := 1; d_purpose := None; d_description := None;
     d_splitGroupId := None; d_requiresAuth := auth;
     d_clearanceFeePaid := None |}.

(** Submitted at time 0, without and with the authorization flag. *)
Definition plainTx : Transaction := newTransaction (demoDetails None) 0 0 0.
Definition flaggedTx : Transaction :=
  moved (newTransaction (demoDetails (Some true)) 0 0 0)
        FLAGGED_AWAITING_CLEARANCE 5000.
(** ... and cleared by code 5.5 seconds after submission. *)
Definition clearedTx : Transaction := granted flaggedTx method_code 5500.
(** The unflagged record after its three timer edges. *)
Definition arrivedTx : Transaction :=
  moved (moved (moved plainTx CONVERTING 5000) IN_TRANSIT 9000)
        FUNDS_ARRIVED 16000.

Definition demoData : RecipientData :=
  {| data_fullName := "Jane Roe"; data_nickname := None; data_phone := None;
     data_bankName := "Barclays"; data_accountNumber := "GB0098765";
     data_country := {| code := "GB"; countryName := "United Kingdom" |};
     data_swiftBic := "BARCGB22"; data_streetAddress := None;
     data_city := None; data_stateProvince := None;
     data_postalCode := None |}.

(** One recipient object, shared by the recipients array and by the one
    record of the ledger. *)
Definition sharedState : RefState :=
  createTransactionRef 0
    {| objects := {[ 0%nat := demoRecipient ]};
       recipientRefs := [0%nat]; ledgerRefs := [] |}.

(** * Further vocabulary: the life of a record in time *)

(** The record a run ends with. *)
Definition finalTx (env : Env) (evs : list TxEvent) (tx : Transaction)
    : option Transaction :=
  '(tr, _) ← runTx env evs tx; last tr.


(** A record created without the authorization flag, as it is ever after:
    flag and fee mark as created, never awaiting or granted clearance. *)
Definition unflagged (details : TransactionDetails) (tx : Transaction)
    : Prop :=
  truthy (requiresAuth tx) = false ∧
  clearanceFeePaid tx = d_clearanceFeePaid details ∧
  status tx ≠ FLAGGED_AWAITING_CLEARANCE ∧
  status tx ≠ CLEARANCE_GRANTED.


(** Clock readings of successive sweeps that start no later than 2000 ms
    after [prev] and follow each other by at most 2000 ms: the interval of
    [setInterval(..., 2000)] when no tick is late. *)
Fixpoint paced (prev : Z) (times : list Z) : Prop :=
  match times with
  | [] => True
  | t :: rest => prev ≤ t ≤ prev + 2000 ∧ paced t rest
  end.

(** Where an unflagged record submitted at [sub] stands when it has been
    swept on pace up to time [t]. *)
Definition onSchedule (sub t : Z) (tx : Transaction) : Prop :=
  statusTimestamps tx !! SUBMITTED = Some sub ∧
  truthy (requiresAuth tx) = false ∧
  match status tx with
  | SUBMITTED => t - sub ≤ 4000
  | CONVERTING => 4000 < t - sub ≤ 8000
  | IN_TRANSIT => 8000 < t - sub ≤ 15000
  | FUNDS_ARRIVED =>
      15000 < t - sub ∧
      ∃ a, statusTimestamps tx !! FUNDS_ARRIVED = Some a ∧
           sub + 15000 < a ≤ sub + 17000
  | _ => False
  end.

(** The records the submissions among [ops] create, in the order of the
    operations. *)
Definition submissions (ops : list Op) : list Transaction :=
  omap (λ op, match op with
              | Submit details t_id t_eta t_sub =>
                  Some (newTransaction details t_id t_eta t_sub)
              | _ => None
              end) ops.

(** * Further model: recipients *)

(** A call of [addNotification] whose message is plain text. *)
Inductive Notice :=
  | notified (type : NotificationType) (title message : string).







(** * Further model: accounts and the operations that debit them

    The handlers read [accounts] (and the collection they pay from) as
    rendered and write through functional updates; here both are the
    current state, the handler being run with no update pending. *)

(** The enumeration [AccountType]; the component only names its member
    CHECKING. *)
Inductive AccountType := CHECKING | OtherAccountType (name : string).

#[global] Instance AccountType_eq_dec : EqDecision AccountType.
Proof. solve_decision. Defined.

(** The fields of [Account] the component names. *)
Record Account := mkAccount {
  acc_id : string;
  accType : AccountType;
  acc_nickname : option string;
  balance : Q;
  acc_accountNumber : string;
  fullAccountNumber : string;
  acc_status : string;
}.

(** [{ ...a, balance: b }] *)
Definition with_balance (a : Account) (b : Q) : Account :=
  {| acc_id := acc_id a; accType := accType a;
     acc_nickname := acc_nickname a; balance := b;
     acc_accountNumber := acc_accountNumber a;
     fullAccountNumber := fullAccountNumber a;
     acc_status := acc_status a |}.

(** A utility bill and a subscription: the fields the handlers read or
    write, and the rest of the object, which they copy unread. *)
Record UtilityBill := mkUtilityBill {
  bill_id : string;
  bill_amount : Q;
  bill_isPaid : bool;
  bill_rest : string;
}.

Record SubscriptionService := mkSubscriptionService {
  sub_id : string;
  sub_amount : Q;
  sub_isPaid : bool;
  sub_rest : string;
}.

Record AirtimePurchase := mkAirtimePurchase {
  ap_id : string;
  providerId : string;
  phoneNumber : string;
  ap_amount : Q;
  purchaseDate : Z;
}.

Record Donation := mkDonation {
  don_id : string;
  causeId : string;
  don_amount : Q;
  don_date : Z;
}.

(** A flight booking: the fields [onBookFlight] reads or sets, and the rest
    of the object. *)
Record FlightBooking := mkFlightBooking {
  fb_id : string;
  bookingDate : Z;
  fb_status : string;
  totalPrice : Q;
  fb_rest : string;
}.

Record Bank := mkBank {
  accounts : list Account;
  utilityBills : list UtilityBill;
  subscriptions : list SubscriptionService;
  airtimePurchases : list AirtimePurchase;
  donations : list Donation;
  flightBookings : list FlightBooking;
}.

(** [x < y] on numbers. *)
Definition Qltb (x y : Q) : bool := Qgtb y x.

(** [accounts.find(a => a.id === accountId)] *)
Definition findAccount (accountId : string) (accs : list Account)
    : option Account :=
  List.find (λ a, bool_decide (acc_id a = accountId)) accs.

(** [prev.map(a => a.id === accountId
                   ? { ...a, balance: a.balance - amount } : a)] *)
Definition debitAccount (accountId : string) (amount : Q) (accs : list Account)
    : list Account :=
  map (λ a, if bool_decide (acc_id a = accountId)
            then with_balance a (balance a - amount)%Q else a) accs.

(** [accounts.reduce((sum, acc) => sum + acc.balance, 0)], the account
    part of [totalNetWorth]. *)
Definition accountTotal (accs : list Account) : Q :=
  foldl (λ sum acc, (sum + balance acc)%Q) 0%Q accs.

Definition onPayUtility (billId sourceAccountId : string) (bank : Bank)
    : bool * Bank :=
  match List.find (λ b, bool_decide (bill_id b = billId)) (utilityBills bank),
        findAccount sourceAccountId (accounts bank) with
  | Some bill, Some account =>
      if Qltb (balance account) (bill_amount bill) then (false, bank)
      else
        (true,
         {| accounts :=
              debitAccount sourceAccountId (bill_amount bill) (accounts bank);
            utilityBills :=
              map (λ b, if bool_decide (bill_id b = billId)
                        then {| bill_id := bill_id b;
                                bill_amount := bill_amount b;
                                bill_isPaid := true;
                                bill_rest := bill_rest b |}
                        else b) (utilityBills bank);
            subscriptions := subscriptions bank;
            airtimePurchases := airtimePurchases bank;
            donations := donations bank;
            flightBookings := flightBookings bank |})
  | _, _ => (false, bank)
  end.

Definition onPaySubscription (subscriptionId : string) (bank : Bank)
    : bool * Bank :=
  match List.find (λ s, bool_decide (sub_id s = subscriptionId))
                  (subscriptions bank),
        List.find (λ a, bool_decide (accType a = CHECKING)) (accounts bank) with
  | Some sub, Some checking =>
      if Qltb (balance checking) (sub_amount sub) then (false, bank)
      else
        (true,
         {| accounts :=
              debitAccount (acc_id checking) (sub_amount sub) (accounts bank);
            utilityBills := utilityBills bank;
            subscriptions :=
              map (λ s, if bool_decide (sub_id s = subscriptionId)
                        then {| sub_id := sub_id s;
                                sub_amount := sub_amount s;
                                sub_isPaid := true;
                                sub_rest := sub_rest s |}
                        else s) (subscriptions bank);
            airtimePurchases := airtimePurchases bank;
            donations := donations bank;
            flightBookings := flightBookings bank |})
  | _, _ => (false, bank)
  end.

(** [now_id] and [now_date] are the readings of [Date.now()] and
    [new Date()]. *)
Definition onPurchaseAirtime (provider phone : string) (amount : Q)
    (accountId : string) (now_id now_date : Z) (bank : Bank) : bool * Bank :=
  match findAccount accountId (accounts bank) with
  | Some account =>
      if Qltb (balance account) amount then (false, bank)
      else
        (true,
         {| accounts := debitAccount accountId amount (accounts bank);
            utilityBills := utilityBills bank;
            subscriptions := subscriptions bank;
            airtimePurchases :=
              {| ap_id := "ap_" +:+ pretty now_id; providerId := provider;
                 phoneNumber := phone; ap_amount := amount;
                 purchaseDate := now_date |} :: airtimePurchases bank;
            donations := donations bank;
            flightBookings := flightBookings bank |})
  | None => (false, bank)
  end.

Definition onDonate (cause : string) (amount : Q) (accountId : string)
    (now_id now_date : Z) (bank : Bank) : bool * Bank :=
  match findAccount accountId (accounts bank) with
  | Some account =>
      if Qltb (balance account) amount then (false, bank)
      else
        (true,
         {| accounts := debitAccount accountId amount (accounts bank);
            utilityBills := utilityBills bank;
            subscriptions := subscriptions bank;
            airtimePurchases := airtimePurchases bank;
            donations :=
              {| don_id := "don_" +:+ pretty now_id; causeId := cause;
                 don_amount := amount; don_date := now_date |}
              :: donations bank;
            flightBookings := flightBookings bank |})
  | None => (false, bank)
  end.

(** [booking] is handed over without id, booking date and status: its
    price and the rest of it. *)
Definition onBookFlight (booking_totalPrice : Q) (booking_rest : string)
    (sourceAccountId : string) (now_id now_date : Z) (bank : Bank)
    : bool * Bank :=
  match findAccount sourceAccountId (accounts bank) with
  | Some account =>
      if Qltb (balance account) booking_totalPrice then (false, bank)
      else
        (true,
         {| accounts :=
              debitAccount sourceAccountId booking_totalPrice (accounts bank);
            utilityBills := utilityBills bank;
            subscriptions := subscriptions bank;
            airtimePurchases := airtimePurchases bank;
            donations := donations bank;
            flightBookings :=
              {| fb_id := "fb_" +:+ pretty now_id; bookingDate := now_date;
                 fb_status := "Confirmed"; totalPrice := booking_totalPrice;
                 fb_rest := booking_rest |} :: flightBookings bank |})
  | None => (false, bank)
  end.

(** The five debiting operations, to state what they share. *)
Inductive Payment :=
  | PayUtility (billId sourceAccountId : string)
  | PaySubscription (subscriptionId : string)
  | PurchaseAirtime (provider phone : string) (amount : Q)
      (accountId : string) (now_id now_date : Z)
  | Donate (cause : string) (amount : Q) (accountId : string)
      (now_id now_date : Z)
  | BookFlight (totalPrice : Q) (rest : string) (sourceAccountId : string)
      (now_id now_date : Z).

Definition pay (p : Payment) (bank : Bank) : bool * Bank :=
  match p with
  | PayUtility billId sourceAccountId => onPayUtility billId sourceAccountId bank
  | PaySubscription subscriptionId => onPaySubscription subscriptionId bank
  | PurchaseAirtime provider phone amount accountId now_id now_date =>
      onPurchaseAirtime provider phone amount accountId now_id now_date bank
  | Donate cause amount accountId now_id now_date =>
      onDonate cause amount accountId now_id now_date bank
  | BookFlight totalPrice rest sourceAccountId now_id now_date =>
      onBookFlight totalPrice rest sourceAccountId now_id now_date bank
  end.

(** The amount a payment asks for, when what it pays for exists. *)
Definition price (p : Payment) (bank : Bank) : option Q :=
  match p with
  | PayUtility billId _ =>
      bill_amount <$>
        List.find (λ b, bool_decide (bill_id b = billId)) (utilityBills bank)
  | PaySubscription subscriptionId =>
      sub_amount <$>
        List.find (λ s, bool_decide (sub_id s = subscriptionId))
                  (subscriptions bank)
  | PurchaseAirtime _ _ amount _ _ _ => Some amount
  | Donate _ amount _ _ _ => Some amount
  | BookFlight totalPrice _ _ _ _ => Some totalPrice
  end.

(** The account a payment draws on, when there is one. *)
Definition payer (p : Payment) (bank : Bank) : option Account :=
  match p with
  | PayUtility _ sourceAccountId => findAccount sourceAccountId (accounts bank)
  | PaySubscription _ =>
      List.find (λ a, bool_decide (accType a = CHECKING)) (accounts bank)
  | PurchaseAirtime _ _ _ accountId _ _ => findAccount accountId (accounts bank)
  | Donate _ _ accountId _ _ => findAccount accountId (accounts bank)
  | BookFlight _ _ sourceAccountId _ _ =>
      findAccount sourceAccountId (accounts bank)
  end.



(** A checking and a savings account, one unpaid bill. *)
Definition demoBank : Bank :=
  {| accounts :=
       [ {| acc_id := "acc_1"; accType := CHECKING; acc_nickname := None;
            balance := 1000; acc_accountNumber := "•••• 0001";
            fullAccountNumber := "1000000000000001";
            acc_status := "Active" |};
         {| acc_id := "acc_2"; accType := OtherAccountType "Savings";
            acc_nickname := None; balance := 500;
            acc_accountNumber := "•••• 0002";
            fullAccountNumber := "1000000000000002";
            acc_status := "Active" |} ];
     utilityBills :=
       [ {| bill_id := "bill_1"; bill_amount := 120; bill_isPaid := false;
            bill_rest := "electricity" |} ];
     subscriptions := [];
     airtimePurchases := [];
     donations := [];
     flightBookings := [] |}.

(** * Further model: split transfers *)

(** One share of a split and the details handed to [onSplitTransaction]. *)
Record Split := mkSplit {
  split_recipient : Recipient;
  split_amount : Q;
}.

Record SplitDetails := mkSplitDetails {
  sd_sourceAccountId : string;
  splits : list Split;
  totalAmount : Q;
  sd_purpose : string;
}.

(** The clock readings taken for one share: [Date.now()] for the split
    group id, then the three readings of [createTransaction]. *)
Record SplitClock := mkSplitClock {
  c_group : Z;
  c_id : Z;
  c_eta : Z;
  c_sub : Z;
}.

(** The object literal handed to [createTransaction] for one share. *)
Definition splitTransactionDetails (details : SplitDetails) (split : Split)
    (t_group : Z) : TransactionDetails :=
  {| d_accountId := sd_sourceAccountId details;
     d_recipient := split_recipient split;
     d_sendAmount := split_amount split;
     d_receiveAmount := split_amount split;
     d_fee := 0;
     d_exchangeRate := 1;
     d_purpose := Some (sd_purpose details);
     d_description := Some ("Split: " +:+ sd_purpose details);
     d_splitGroupId := Some ("split_" +:+ pretty t_group);
     d_requiresAuth := None;
     d_clearanceFeePaid := None |}.

(** The record created for the share at position [i]. *)
Definition splitTransaction (details : SplitDetails) (clock : nat → SplitClock)
    (i : nat) (split : Split) : Transaction :=
  newTransaction (splitTransactionDetails details split (c_group (clock i)))
    (c_id (clock i)) (c_eta (clock i)) (c_sub (clock i)).

(** [details.splits.forEach(split => { createTransaction({...}) })]:
    [createTransaction] runs to its end at each call, having nothing to
    await. *)
Fixpoint splitFrom (env : Env) (details : SplitDetails)
    (clock : nat → SplitClock) (i : nat) (todo : list Split) (st : AppState)
    : AppState * list Effect :=
  match todo with
  | [] => (st, [])
  | split :: rest =>
      let '(_, st1, e) :=
        createTransaction env
          (splitTransactionDetails details split (c_group (clock i)))
          (c_id (clock i)) (c_eta (clock i)) (c_sub (clock i)) st in
      let '(st2, es) := splitFrom env details clock (S i) rest st1 in
      (st2, e ++ es)
  end.

(** [onSplitTransaction]: the returned boolean, the ledger state, the
    accounts as they are afterwards and the sink calls. *)
Definition onSplitTransaction (env : Env) (details : SplitDetails)
    (clock : nat → SplitClock) (accs : list Account) (st : AppState)
    : bool * AppState * list Account * list Effect :=
  match findAccount (sd_sourceAccountId details) accs with
  | Some sourceAccount =>
      if Qltb (balance sourceAccount) (totalAmount details)
      then (false, st, accs, [])
      else
        let '(st', effs) := splitFrom env details clock 0 (splits details) st in
        (true, st', accs, effs)
  | None => (false, st, accs, [])
  end.

(** * Further model: the cheque deposit wizard

    [CheckDepositFlow]: the state of the component and what its controls
    do.  A control acts only in the step that renders it; an upload
    started in step 2 completes two seconds later, whatever the step is by
    then, so the events let an upload complete in any step.  [parseFloat]
    is the JavaScript function; what it returns is a finite number, an
    infinity or [NaN]. *)

Inductive Parsed :=
  | parsedNaN
  | parsedFinite (q : Q)
  | parsedInfinity (negative : bool).

Record DepositFlow := mkDepositFlow {
  step : nat;
  amount : string;
  df_accountId : string;
  frontImage : option string;
  backImage : option string;
  error : string;
}.

(** Truthiness of a string, and of a string or [null]. *)
Definition nonEmpty (s : string) : bool := negb (bool_decide (s = "")).
Definition present (o : option string) : bool :=
  match o with Some s => nonEmpty s | None => false end.

(** [useState] initial values; [accounts[0]?.id || ''] for the account. *)
Definition initialFlow (accs : list Account) : DepositFlow :=
  {| step := 1; amount := "";
     df_accountId := default "" (acc_id <$> head accs);
     frontImage := None; backImage := None; error := "" |}.

(** [!numericAmount || numericAmount <= 0] *)
Definition invalidAmount (numericAmount : Parsed) : bool :=
  match numericAmount with
  | parsedNaN => true
  | parsedFinite q => Qeq_bool q 0 || Qle_bool q 0
  | parsedInfinity negative => negative
  end.

(** A number above zero. *)
Definition aboveZero (numericAmount : Parsed) : Prop :=
  match numericAmount with
  | parsedNaN => False
  | parsedFinite q => (0 < q)%Q
  | parsedInfinity negative => negative = false
  end.

Definition handleDetailsSubmit (parseFloat : string → Parsed)
    (fl : DepositFlow) : DepositFlow :=
  if invalidAmount (parseFloat (amount fl))
  then {| step := step fl; amount := amount fl;
          df_accountId := df_accountId fl; frontImage := frontImage fl;
          backImage := backImage fl;
          error := "Please enter a valid amount." |}
  else {| step := 2; amount := amount fl;
          df_accountId := df_accountId fl; frontImage := frontImage fl;
          backImage := backImage fl; error := "" |}.

Definition handleImagesSubmit (fl : DepositFlow) : DepositFlow :=
  if negb (present (frontImage fl)) || negb (present (backImage fl))
  then {| step := step fl; amount := amount fl;
          df_accountId := df_accountId fl; frontImage := frontImage fl;
          backImage := backImage fl;
          error := "Please upload both front and back images of the check." |}
  else {| step := 3; amount := amount fl;
          df_accountId := df_accountId fl; frontImage := frontImage fl;
          backImage := backImage fl; error := "" |}.

(** The argument of a call of [onDepositCheck]. *)
Record DepositCall := mkDepositCall {
  call_amount : Parsed;
  call_accountId : string;
  call_front : string;
  call_back : string;
}.

Definition handleDeposit (parseFloat : string → Parsed) (fl : DepositFlow)
    : option DepositCall :=
  match frontImage fl, backImage fl with
  | Some front, Some back =>
      if nonEmpty front && nonEmpty back && nonEmpty (df_accountId fl)
      then Some {| call_amount := parseFloat (amount fl);
                   call_accountId := df_accountId fl;
                   call_front := front; call_back := back |}
      else None
  | _, _ => None
  end.

(** What the user and the uploaders can do. *)
Inductive FlowEvent :=
  | TypeAmount (value : string)         (* the amount input, step 1 *)
  | SelectAccount (value : string)      (* the account select, step 1 *)
  | ClickContinue                       (* step 1 *)
  | FrontUploaded (base64 : string)     (* [onImageUpload] of the front *)
  | BackUploaded (base64 : string)      (* [onImageUpload] of the back *)
  | ClickBack                           (* steps 2 and 3 *)
  | ClickReview                         (* step 2, disabled without images *)
  | ClickConfirm.                       (* step 3 *)

Definition set_step (fl : DepositFlow) (n : nat) : DepositFlow :=
  {| step := n; amount := amount fl; df_accountId := df_accountId fl;
     frontImage := frontImage fl; backImage := backImage fl;
     error := error fl |}.

Definition stepFlow (parseFloat : string → Parsed) (ev : FlowEvent)
    (fl : DepositFlow) : DepositFlow * option DepositCall :=
  match ev with
  | TypeAmount value =>
      (if bool_decide (step fl = 1%nat)
       then {| step := step fl; amount := value;
               df_accountId := df_accountId fl; frontImage := frontImage fl;
               backImage := backImage fl; error := error fl |}
       else fl, None)
  | SelectAccount value =>
      (if bool_decide (step fl = 1%nat)
       then {| step := step fl; amount := amount fl;
               df_accountId := value; frontImage := frontImage fl;
               backImage := backImage fl; error := error fl |}
       else fl, None)
  | ClickContinue =>
      (if bool_decide (step fl = 1%nat)
       then handleDetailsSubmit parseFloat fl else fl, None)
  | FrontUploaded base64 =>
      ({| step := step fl; amount := amount fl;
          df_accountId := df_accountId fl; frontImage := Some base64;
          backImage := backImage fl; error := error fl |}, None)
  | BackUploaded base64 =>
      ({| step := step fl; amount := amount fl;
          df_accountId := df_accountId fl; frontImage := frontImage fl;
          backImage := Some base64; error := error fl |}, None)
  | ClickBack =>
      (if bool_decide (step fl = 2%nat) then set_step fl 1
       else if bool_decide (step fl = 3%nat) then set_step fl 2
       else fl, None)
  | ClickReview =>
      (if bool_decide (step fl = 2%nat)
          && negb (negb (present (frontImage fl))
                   || negb (present (backImage fl)))
       then handleImagesSubmit fl else fl, None)
  | ClickConfirm =>
      (fl, if bool_decide (step fl = 3%nat)
           then handleDeposit parseFloat fl else None)
  end.

(** A session with the wizard: the state reached and the calls of
    [onDepositCheck] made, in order. *)
Fixpoint runFlow (parseFloat : string → Parsed) (evs : list FlowEvent)
    (fl : DepositFlow) : DepositFlow * list DepositCall :=
  match evs with
  | [] => (fl, [])
  | ev :: rest =>
      let '(fl1, call) := stepFlow parseFloat ev fl in
      let '(fl2, calls) := runFlow parseFloat rest fl1 in
      (fl2, option_list call ++ calls)
  end.

(** The invariant of the wizard. *)
Definition flowInvariant (parseFloat : string → Parsed) (fl : DepositFlow)
    : Prop :=
  (step fl = 1 ∨ step fl = 2 ∨ step fl = 3)%nat ∧
  (step fl ≠ 1%nat → aboveZero (parseFloat (amount fl))) ∧
  (step fl = 3%nat → is_Some (frontImage fl) ∧ is_Some (backImage fl)) ∧
  (error fl = "" ∨ error fl = "Please enter a valid amount.").

(** What every call of [onDepositCheck] should look like. *)
Definition validCall (call : DepositCall) : Prop :=
  aboveZero (call_amount call) ∧
  call_accountId call ≠ "" ∧ call_front call ≠ "" ∧ call_back call ≠ "".

(** A [parseFloat] for sample runs: it reads "25" and nothing else. *)
Definition demoParse (s : string) : Parsed :=
  if bool_decide (s = "25") then parsedFinite 25 else parsedNaN.

(** A visit that fills in the form and confirms once. *)
Definition demoVisit : list FlowEvent :=
  [TypeAmount "25"; ClickContinue; FrontUploaded "data:front";
   BackUploaded "data:back"; ClickReview; ClickConfirm].

(** The "Transfer Submitted" call of [createTransaction]. *)
Definition isSubmittedNotification (e : Effect) : bool :=
  match e with
  | addNotification TRANSACTION title (TransferSubmittedMsg _ _) _ =>
      bool_decide (title = "Transfer Submitted")
  | _ => false
  end.

(** Sample split: two shares of 30 and 40 under a total of 50. *)
Definition demoSplit : SplitDetails :=
  {| sd_sourceAccountId := "acc_1";
     splits := [ {| split_recipient := demoRecipient; split_amount := 30 |};
                 {| split_recipient := demoRecipient; split_amount := 40 |} ];
     totalAmount := 50;
     sd_purpose := "Dinner" |}.

Definition demoClock (i : nat) : SplitClock :=
  {| c_group := 7000; c_id := 7000 + Z.of_nat i; c_eta := 7000;
     c_sub := 7000 |}.

(** * Further model: crypto trades

    [onBuyCrypto], [onSellCrypto] and [totalNetWorth].  Numbers are exact
    rationals; where a quotient has a zero divisor the JavaScript result is
    an infinity or [NaN], which these numbers do not have, and the model
    gives [None]. *)

Record CryptoHolding := mkCryptoHolding {
  assetId : string;
  h_amount : Q;
  avgBuyPrice : Q;
}.


Record Portfolio := mkPortfolio {
  p_accounts : list Account;
  cryptoHoldings : list CryptoHolding;
}.

(** [{ ...h, amount: a, avgBuyPrice: p }] *)
Definition with_position (h : CryptoHolding) (a p : Q) : CryptoHolding :=
  {| assetId := assetId h; h_amount := a; avgBuyPrice := p |}.

(** [prev.find(h => h.assetId === assetId)] *)
Definition findHolding (asset : string) (hs : list CryptoHolding)
    : option CryptoHolding :=
  List.find (λ h, bool_decide (assetId h = asset)) hs.

(** [accounts.find(a => a.type === AccountType.CHECKING)] *)
Definition findChecking (accs : list Account) : option Account :=
  List.find (λ a, bool_decide (accType a = CHECKING)) accs.

Definition onBuyCrypto (asset : string) (usdAmount assetPrice : Q)
    (p : Portfolio) : option (bool * Portfolio) :=
  match findChecking (p_accounts p) with
  | Some checking =>
      if Qltb (balance checking) usdAmount then Some (false, p)
      else if Qeq_bool assetPrice 0 then None
      else
        let cryptoAmount := (usdAmount / assetPrice)%Q in
        let accs := debitAccount (acc_id checking) usdAmount (p_accounts p) in
        match findHolding asset (cryptoHoldings p) with
        | Some existing =>
            let totalAmount := (h_amount existing + cryptoAmount)%Q in
            let totalCost :=
              (avgBuyPrice existing * h_amount existing + usdAmount)%Q in
            if Qeq_bool totalAmount 0 then None
            else
              Some (true,
                    {| p_accounts := accs;
                       cryptoHoldings :=
                         map (λ h, if bool_decide (assetId h = asset)
                                   then with_position h totalAmount
                                          (totalCost / totalAmount)%Q
                                   else h)
                             (cryptoHoldings p) |})
        | None =>
            Some (true,
                  {| p_accounts := accs;
                     cryptoHoldings :=
                       cryptoHoldings p ++
                       [ {| assetId := asset; h_amount := cryptoAmount;
                            avgBuyPrice := assetPrice |} ] |})
        end
  | None => Some (false, p)
  end.

(** The literal [0.000001] of [onSellCrypto]. *)
Definition dust : Q := 1 # 1000000.

(** [CRYPTO_TRADE_FEE_PERCENT] is a constant of another module; it is the
    argument [feePercent] here. *)
Definition onSellCrypto (feePercent : Q) (asset : string)
    (cryptoAmount assetPrice : Q) (p : Portfolio) : bool * Portfolio :=
  match findHolding asset (cryptoHoldings p) with
  | Some holding =>
      if Qltb (h_amount holding) cryptoAmount then (false, p)
      else
        let usdAmount := (cryptoAmount * assetPrice)%Q in
        (true,
         {| p_accounts :=
              map (λ a, if bool_decide (accType a = CHECKING)
                        then with_balance a
                               (balance a + usdAmount * (1 - feePercent))%Q
                        else a)
                  (p_accounts p);
            cryptoHoldings :=
              filter (λ h, Qgtb (h_amount h) dust = true)
                (map (λ h, if bool_decide (assetId h = asset)
                           then with_position h (h_amount h - cryptoAmount)%Q
                                  (avgBuyPrice h)
                           else h)
                     (cryptoHoldings p)) |})
  | None => (false, p)
  end.



(** A trading session. *)
Inductive Trade :=
  | Buy (asset : string) (usdAmount assetPrice : Q)
  | Sell (asset : string) (cryptoAmount assetPrice : Q).

Definition stepTrade (feePercent : Q) (t : Trade) (p : Portfolio)
    : option (bool * Portfolio) :=
  match t with
  | Buy asset usdAmount assetPrice => onBuyCrypto asset usdAmount assetPrice p
  | Sell asset cryptoAmount assetPrice =>
      Some (onSellCrypto feePercent asset cryptoAmount assetPrice p)
  end.

Fixpoint runTrades (feePercent : Q) (ts : list Trade) (p : Portfolio)
    : option Portfolio :=
  match ts with
  | [] => Some p
  | t :: rest =>
      '(_, p') ← stepTrade feePercent t p;
      runTrades feePercent rest p'
  end.

(** The sum of [w x] over the [x] of a list. *)
Definition Qsum {A} (w : A → Q) (l : list A) : Q :=
  foldr (λ x sum, (w x + sum)%Q) 0%Q l.




(** Sample portfolio: the accounts of [demoBank] and one holding. *)
Definition demoPortfolio : Portfolio :=
  {| p_accounts := accounts demoBank;
     cryptoHoldings :=
       [ {| assetId := "btc"; h_amount := 2; avgBuyPrice := 100 |} ] |}.


(** * Further model: task reminders

    The reminder effect ([checkTasks], run by a timer) and the handlers
    [addTask], [toggleTask] and [deleteTask].  A due date is a time;
    [midnight] is what [setHours(0, 0, 0, 0)] makes of a time, the start of
    its day in the local zone.  The reminder mail and text are generated
    and dropped, so the only sink call is [addNotification]. *)

Record Task := mkTask {
  task_id : string;
  text : string;
  completed : bool;
  dueDate : option Z;
  category : option string;
  notificationSent : option bool;
}.

(** [{ ...t, notificationSent: true }] *)
Definition with_sent (t : Task) : Task :=
  {| task_id := task_id t; text := text t; completed := completed t;
     dueDate := dueDate t; category := category t;
     notificationSent := Some true |}.

(** [prevTasks.map(t => t.id === task.id
                        ? { ...t, notificationSent: true } : t)] *)
Definition markSent (taskId : string) (ts : list Task) : list Task :=
  map (λ t, if bool_decide (task_id t = taskId) then with_sent t else t) ts.

(** The two nested conditions of [checkTasks]. *)
Definition dueToday (midnight : Z → Z) (now : Z) (task : Task) : bool :=
  negb (completed task) &&
  match dueDate task with
  | Some due =>
      negb (truthy (notificationSent task)) &&
      bool_decide (midnight due = midnight now)
  | None => false
  end.

Definition doubleQuote : string := String (Ascii.ascii_of_nat 34) "".

Definition reminder (task : Task) : Notice :=
  notified TASK "Task Due Today"
    ("Your task " +:+ doubleQuote +:+ text task +:+ doubleQuote
     +:+ " is due today.").

(** [tasks.forEach(task => ...)]: [todo] is what is left of the array the
    effect closed over, [ts] the state the updaters have produced so
    far. *)
Fixpoint checkFrom (midnight : Z → Z) (now : Z) (todo ts : list Task)
    : list Task * list Notice :=
  match todo with
  | [] => (ts, [])
  | task :: rest =>
      if dueToday midnight now task
      then
        let '(ts', notices) :=
          checkFrom midnight now rest (markSent (task_id task) ts) in
        (ts', reminder task :: notices)
      else checkFrom midnight now rest ts
  end.

Definition checkTasks (midnight : Z → Z) (now : Z) (tasks : list Task)
    : list Task * list Notice :=
  checkFrom midnight now tasks tasks.

Definition addTask (text : string) (dueDate : option Z)
    (category : option string) (now : Z) (tasks : list Task) : list Task :=
  {| task_id := "task_" +:+ pretty now; text := text; completed := false;
     dueDate := dueDate; category := category; notificationSent := None |}
  :: tasks.

Definition toggleTask (taskId : string) (tasks : list Task) : list Task :=
  map (λ t, if bool_decide (task_id t = taskId)
            then {| task_id := task_id t; text := text t;
                    completed := negb (completed t); dueDate := dueDate t;
                    category := category t;
                    notificationSent := notificationSent t |}
            else t) tasks.

Definition deleteTask (taskId : string) (tasks : list Task) : list Task :=
  filter (λ t, task_id t ≠ taskId) tasks.

Inductive TaskEvent :=
  | CheckTasks (now : Z)
  | AddTask (text : string) (dueDate : option Z) (category : option string)
      (now : Z)
  | ToggleTask (taskId : string)
  | DeleteTask (taskId : string).

Definition stepTasks (midnight : Z → Z) (ev : TaskEvent) (tasks : list Task)
    : list Task * list Notice :=
  match ev with
  | CheckTasks now => checkTasks midnight now tasks
  | AddTask text dueDate category now =>
      (addTask text dueDate category now tasks, [])
  | ToggleTask taskId => (toggleTask taskId tasks, [])
  | DeleteTask taskId => (deleteTask taskId tasks, [])
  end.

Fixpoint runTasks (midnight : Z → Z) (evs : list TaskEvent)
    (tasks : list Task) : list Task * list Notice :=
  match evs with
  | [] => (tasks, [])
  | ev :: rest =>
      let '(tasks1, notices1) := stepTasks midnight ev tasks in
      let '(tasks2, notices2) := runTasks midnight rest tasks1 in
      (tasks2, notices1 ++ notices2)
  end.

(** The tasks no reminder has been sent for. *)
Definition unannounced (tasks : list Task) : nat :=
  length (filter (λ t, truthy (notificationSent t) = false) tasks).

(** The number of [addTask] calls among the events. *)
Definition added (evs : list TaskEvent) : nat :=
  length (filter (λ ev, match ev with
                        | AddTask _ _ _ _ => true
                        | _ => false
                        end = true) evs).

(** Sample tasks, with days of 86400000 ms counted from time 0. *)
Definition demoMidnight (t : Z) : Z := t - t `mod` 86400000.

Definition demoTasks : list Task :=
  [ {| task_id := "task_1"; text := "Pay rent"; completed := false;
       dueDate := Some 86400000; category := None;
       notificationSent := None |};
    {| task_id := "task_2"; text := "Call bank"; completed := false;
       dueDate := Some 90000000; category := None;
       notificationSent := None |} ].

(** * Further model: the notification inbox

    What [addNotification] does to the component state: the list behind
    the bell and the push toast.  The messages are those the ledger
    operations build. *)

Record Notification := mkNotification {
  n_id : string;
  n_type : NotificationType;
  n_title : string;
  n_message : Message;
  n_timestamp : Z;
  read : bool;
  n_linkTo : option string;
}.

Record PushNotification := mkPushNotification {
  push_id : string;
  push_type : NotificationType;
  push_title : string;
  push_message : Message;
}.

Record Inbox := mkInbox {
  notifications : list Notification;
  pushNotification : option PushNotification;
}.

(** The clock readings of one call: for the id, for the timestamp and for
    the id of the toast. *)
Record NotifyClock := mkNotifyClock {
  at_id : Z;
  at_stamp : Z;
  at_push : Z;
}.

(** [addNotification], as a change of the inbox. *)
Definition notify (s : Settings) (c : NotifyClock) (type : NotificationType)
    (title : string) (message : Message) (linkTo : option string)
    (inbox : Inbox) : Inbox :=
  {| notifications :=
       {| n_id := "notif_" +:+ pretty (at_id c); n_type := type;
          n_title := title; n_message := message;
          n_timestamp := at_stamp c; read := false; n_linkTo := linkTo |}
       :: notifications inbox;
     pushNotification :=
       if match type with
          | TRANSACTION => push_transactions s
          | SECURITY => push_security s
          | _ => false
          end
       then Some {| push_id := "push_" +:+ pretty (at_push c);
                    push_type := type; push_title := title;
                    push_message := message |}
       else pushNotification inbox |}.

(** [setNotifications(prev => prev.map(n => ({ ...n, read: true })))] *)
Definition onMarkNotificationsAsRead (inbox : Inbox) : Inbox :=
  {| notifications :=
       map (λ n, {| n_id := n_id n; n_type := n_type n; n_title := n_title n;
                    n_message := n_message n; n_timestamp := n_timestamp n;
                    read := true; n_linkTo := n_linkTo n |})
           (notifications inbox);
     pushNotification := pushNotification inbox |}.

(** The sink calls of a ledger run, carried out on the inbox; the call at
    position [i] reads the clock as [clock i]. *)
Fixpoint deliver (s : Settings) (clock : nat → NotifyClock) (i : nat)
    (effs : list Effect) (inbox : Inbox) : Inbox :=
  match effs with
  | [] => inbox
  | addNotification type title message linkTo :: rest =>
      deliver s clock (S i) rest
        (notify s (clock i) type title message linkTo inbox)
  | _ :: rest => deliver s clock (S i) rest inbox
  end.

Definition isNotification (e : Effect) : bool :=
  match e with addNotification _ _ _ _ => true | _ => false end.

(** The number behind the bell. *)
Definition unread (inbox : Inbox) : nat :=
  length (filter (λ n, read n = false) (notifications inbox)).

Definition emptyInbox : Inbox :=
  {| notifications := []; pushNotification := None |}.

Definition demoNotifyClock (i : nat) : NotifyClock :=
  {| at_id := Z.of_nat i; at_stamp := Z.of_nat i; at_push := Z.of_nat i |}.

(** A sink call of the ledger is none of the notifications, or a
    submission notice, or an arrival notice; the two are of type
    TRANSACTION. *)
Definition ledgerCall (e : Effect) : Prop :=
  (isNotification e = false ∧ isSubmittedNotification e = false ∧
   isArrivalNotification e = false) ∨
  ((∃ title message linkTo,
      e = addNotification TRANSACTION title message linkTo) ∧
   isSubmittedNotification e = negb (isArrivalNotification e)).

(** * Further model: edits from the activity log

    [onUpdateTransactions]: [updates] is a partial record, spread over
    each record whose id is listed.  A field it does not hold is [None]
    here; for an optional field of the record, [Some None] is the key held
    with value [undefined]. *)

Record TransactionUpdates := mkTransactionUpdates {
  u_id : option string;
  u_accountId : option string;
  u_recipient : option Recipient;
  u_sendAmount : option Q;
  u_receiveAmount : option Q;
  u_fee : option Q;
  u_exchangeRate : option Q;
  u_status : option TransactionStatus;
  u_type : option TxType;
  u_estimatedArrival : option Z;
  u_statusTimestamps : option (gmap TransactionStatus Z);
  u_purpose : option (option string);
  u_description : option (option string);
  u_splitGroupId : option (option string);
  u_requiresAuth : option (option bool);
  u_clearanceFeePaid : option (option bool);
}.

(** [{ ...t, ...updates }] *)
Definition applyUpdates (updates : TransactionUpdates) (t : Transaction)
    : Transaction :=
  {| tx_id := default (tx_id t) (u_id updates);
     accountId := default (accountId t) (u_accountId updates);
     recipient := default (recipient t) (u_recipient updates);
     sendAmount := default (sendAmount t) (u_sendAmount updates);
     receiveAmount := default (receiveAmount t) (u_receiveAmount updates);
     fee := default (fee t) (u_fee updates);
     exchangeRate := default (exchangeRate t) (u_exchangeRate updates);
     status := default (status t) (u_status updates);
     txType := default (txType t) (u_type updates);
     estimatedArrival :=
       default (estimatedArrival t) (u_estimatedArrival updates);
     statusTimestamps :=
       default (statusTimestamps t) (u_statusTimestamps updates);
     purpose := default (purpose t) (u_purpose updates);
     description := default (description t) (u_description updates);
     splitGroupId := default (splitGroupId t) (u_splitGroupId updates);
     requiresAuth := default (requiresAuth t) (u_requiresAuth updates);
     clearanceFeePaid :=
       default (clearanceFeePaid t) (u_clearanceFeePaid updates) |}.

(** The callback of [prev.map]. *)
Definition updateTx (ids : list string) (updates : TransactionUpdates)
    (t : Transaction) : Transaction :=
  if bool_decide (tx_id t ∈ ids) then applyUpdates updates t else t.

Definition onUpdateTransactions (ids : list string)
    (updates : TransactionUpdates) (st : AppState) : AppState :=
  {| transactions := map (updateTx ids updates) (transactions st);
     recipients := recipients st |}.

(** Updates that hold none of the fields the sweep and the authorization
    read or write. *)
Definition annotation (updates : TransactionUpdates) : Prop :=
  u_id updates = None ∧ u_status updates = None ∧
  u_statusTimestamps updates = None ∧ u_requiresAuth updates = None ∧
  u_clearanceFeePaid updates = None.

(** A note put into the description. *)
Definition demoUpdates : TransactionUpdates :=
  {| u_id := None; u_accountId := None; u_recipient := None;
     u_sendAmount := None; u_receiveAmount := None; u_fee := None;
     u_exchangeRate := None; u_status := None; u_type := None;
     u_estimatedArrival := None; u_statusTimestamps := None;
     u_purpose := None; u_description := Some (Some "Rent, March");
     u_splitGroupId := None; u_requiresAuth := None;
     u_clearanceFeePaid := None |}.

(** * Further model: the receipt's authorization warning

    [PaymentReceipt]: the state behind [AuthorizationWarningModal].  The
    effect on [transaction.status] runs at mount and whenever a render
    brings a status other than the one of the render before; a render and
    the effect it triggers are one step here. *)







(** * Properties *)

(** ** Arithmetic of the thresholds *)

Lemma Qgtb_lt (x y : Q) : Qgtb x y = true ↔ (y < x)%Q.
Proof.
  unfold Qgtb. rewrite negb_true_iff, <- not_true_iff_false, Qle_bool_iff.
  split; [apply Qnot_le_lt | apply Qlt_not_le].
Qed.

Lemma Qgtb_not_lt (x y : Q) : Qgtb x y = false ↔ ¬ (y < x)%Q.
Proof. rewrite <- Qgtb_lt. destruct (Qgtb x y); naive_solver. Qed.

(** Seconds against milliseconds: [d / 1000 > k] exactly when
    [d > 1000 k]. *)
Lemma elapsed_gt_ms (now submittedTime k : Z) :
  (k # 1 < elapsedSeconds now submittedTime)%Q
  ↔ 1000 * k < now - submittedTime.
Proof.
  unfold elapsedSeconds, Qlt, Qdiv, Qmult, Qinv, inject_Z. simpl. lia.
Qed.

(** The CLEARANCE_GRANTED threshold, on the shared elapsed basis, is four
    seconds after the grant. *)
Lemma elapsed_gt_granted (now submittedTime grantedTime : Z) :
  (inject_Z (grantedTime - submittedTime) / inject_Z 1000 + 4
     < elapsedSeconds now submittedTime)%Q
  ↔ grantedTime + 4000 < now.
Proof.
  unfold elapsedSeconds, Qlt, Qdiv, Qmult, Qinv, Qplus, inject_Z. simpl. lia.
Qed.

Lemma Qgtb_bool_decide (x y : Q) (P : Prop) `{Decision P} :
  ((y < x)%Q ↔ P) → Qgtb x y = bool_decide P.
Proof.
  intros HP. destruct (bool_decide P) eqn:E.
  - apply bool_decide_eq_true in E. by apply Qgtb_lt, HP.
  - apply bool_decide_eq_false in E. apply Qgtb_not_lt. by rewrite HP.
Qed.

Lemma Qgtb_elapsed (now submittedTime k : Z) :
  Qgtb (elapsedSeconds now submittedTime) (k # 1)
  = bool_decide (1000 * k < now - submittedTime).
Proof. apply Qgtb_bool_decide, (elapsed_gt_ms now submittedTime k). Qed.

Lemma Qgtb_granted (now submittedTime grantedTime : Z) :
  Qgtb (elapsedSeconds now submittedTime)
       (inject_Z (grantedTime - submittedTime) / inject_Z 1000 + 4)
  = bool_decide (grantedTime + 4000 < now).
Proof. apply Qgtb_bool_decide, elapsed_gt_granted. Qed.

(** ** One sweep of one record, status by status *)

(** Unfolds [sweepTx] on a record whose status and SUBMITTED timestamp are
    known, and decides the status tests. *)
Ltac sweep_at Hs Hsub :=
  unfold sweepTx, moved; rewrite Hsub; simpl;
  rewrite ?Qgtb_elapsed; rewrite !Hs; simpl.

Lemma sweepTx_FUNDS_ARRIVED env now tx :
  status tx = FUNDS_ARRIVED → sweepTx env now tx = Some (tx, []).
Proof. intros Hs. unfold sweepTx. by rewrite bool_decide_eq_true_2. Qed.

Lemma sweepTx_SUBMITTED env now tx sub :
  status tx = SUBMITTED → statusTimestamps tx !! SUBMITTED = Some sub →
  sweepTx env now tx =
    Some (if bool_decide (4000 < now - sub)
          then moved tx (if truthy (requiresAuth tx)
                         then FLAGGED_AWAITING_CLEARANCE else CONVERTING) now
          else tx, []).
Proof. intros Hs Hsub. sweep_at Hs Hsub. repeat case_bool_decide; (done || lia). Qed.

Lemma sweepTx_CONVERTING env now tx sub :
  status tx = CONVERTING → statusTimestamps tx !! SUBMITTED = Some sub →
  sweepTx env now tx =
    Some (if bool_decide (8000 < now - sub) then moved tx IN_TRANSIT now
          else tx, []).
Proof. intros Hs Hsub. sweep_at Hs Hsub. repeat case_bool_decide; (done || lia). Qed.

Lemma sweepTx_IN_TRANSIT env now tx sub :
  status tx = IN_TRANSIT → statusTimestamps tx !! SUBMITTED = Some sub →
  sweepTx env now tx =
    Some (if bool_decide (15000 < now - sub)
          then (moved tx FUNDS_ARRIVED now, arrivalEffects env tx)
          else (tx, [])).
Proof. intros Hs Hsub. sweep_at Hs Hsub. repeat case_bool_decide; (done || lia). Qed.

Lemma sweepTx_FLAGGED env now tx sub :
  status tx = FLAGGED_AWAITING_CLEARANCE →
  statusTimestamps tx !! SUBMITTED = Some sub →
  sweepTx env now tx = Some (tx, []).
Proof. intros Hs Hsub. by sweep_at Hs Hsub. Qed.

Lemma sweepTx_CLEARANCE_GRANTED env now tx sub granted :
  status tx = CLEARANCE_GRANTED →
  statusTimestamps tx !! SUBMITTED = Some sub →
  statusTimestamps tx !! CLEARANCE_GRANTED = Some granted →
  sweepTx env now tx =
    Some (if bool_decide (granted + 4000 < now) then moved tx IN_TRANSIT now
          else tx, []).
Proof.
  intros Hs Hsub Hg. sweep_at Hs Hsub. rewrite Hg. simpl.
  rewrite Qgtb_granted. by case_bool_decide.
Qed.

(** Without a SUBMITTED timestamp the callback dereferences [undefined],
    unless the record is already terminal. *)
Lemma sweepTx_unstamped env now tx :
  status tx ≠ FUNDS_ARRIVED → statusTimestamps tx !! SUBMITTED = None →
  sweepTx env now tx = None.
Proof.
  intros Hs Hsub. unfold sweepTx. rewrite Hsub.
  by rewrite bool_decide_eq_false_2.
Qed.

(** Every sweep of a record either returns it as it is, silently, or fires
    the one timer edge that leaves its status. *)
Lemma sweepTx_step env now tx tx' e :
  sweepTx env now tx = Some (tx', e) →
  (tx' = tx ∧ e = []) ∨
  (∃ s, sweepTarget tx = Some s ∧ tx' = moved tx s now ∧
        e = if bool_decide (s = FUNDS_ARRIVED)
            then arrivalEffects env tx else []).
Proof.
  intros Hsw. unfold sweepTarget.
  destruct (decide (status tx = FUNDS_ARRIVED)) as [Hfa|Hfa].
  { rewrite sweepTx_FUNDS_ARRIVED in Hsw by done. left. by simplify_eq. }
  destruct (statusTimestamps tx !! SUBMITTED) as [sub|] eqn:Hsub;
    [|by rewrite sweepTx_unstamped in Hsw].
  destruct (status tx) eqn:Hs; try done.
  - rewrite (sweepTx_SUBMITTED _ _ _ sub) in Hsw by done.
    case_bool_decide; simplify_eq; [right|by left].
    eexists. split_and!; [done..|]. by destruct (truthy _).
  - rewrite (sweepTx_CONVERTING _ _ _ sub) in Hsw by done.
    case_bool_decide; simplify_eq; [right|by left].
    by eexists.
  - rewrite (sweepTx_FLAGGED _ _ _ sub) in Hsw by done. left. by simplify_eq.
  - destruct (statusTimestamps tx !! CLEARANCE_GRANTED) as [g|] eqn:Hg.
    + rewrite (sweepTx_CLEARANCE_GRANTED _ _ _ sub g) in Hsw by done.
      case_bool_decide; simplify_eq; [right|by left].
      by eexists.
    + unfold sweepTx in Hsw. rewrite Hsub in Hsw. simpl in Hsw.
      rewrite !Hs, Hg in Hsw. by simpl in Hsw.
  - rewrite (sweepTx_IN_TRANSIT _ _ _ sub) in Hsw by done.
    case_bool_decide; simplify_eq; [right|by left].
    by eexists.
Qed.

(** ** One authorization of one record *)

Lemma authorizeTx_match transactionId method now tx :
  tx_id tx = transactionId → status tx = FLAGGED_AWAITING_CLEARANCE →
  authorizeTx transactionId method now tx = granted tx method now.
Proof.
  intros Hid Hs. unfold authorizeTx.
  by rewrite !bool_decide_eq_true_2 by done.
Qed.

Lemma authorizeTx_no_match transactionId method now tx :
  ¬ (tx_id tx = transactionId ∧ status tx = FLAGGED_AWAITING_CLEARANCE) →
  authorizeTx transactionId method now tx = tx.
Proof.
  intros Hno. unfold authorizeTx.
  repeat case_bool_decide; naive_solver.
Qed.

(** ** Steps and runs of one record *)

Lemma stepTx_sound env ev tx tx' e :
  stepTx env ev tx = Some (tx', e) → TxStep env ev tx tx' e.
Proof.
  destruct ev as [now|transactionId method now]; simpl.
  - intros [[-> ->]|(s & Hs & -> & ->)]%sweepTx_step; by constructor.
  - intros [= <- <-].
    destruct (decide (tx_id tx = transactionId
                      ∧ status tx = FLAGGED_AWAITING_CLEARANCE)) as [[<- Hs]|Hno].
    + rewrite authorizeTx_match by done. by constructor.
    + rewrite authorizeTx_no_match by done. constructor.
Qed.

Lemma runTx_cons env ev evs tx tr effs :
  runTx env (ev :: evs) tx = Some (tr, effs) ↔
  ∃ tx' e tr' es, stepTx env ev tx = Some (tx', e) ∧
    runTx env evs tx' = Some (tr', es) ∧ tr = tx :: tr' ∧ effs = e ++ es.
Proof.
  simpl. split.
  - destruct (stepTx env ev tx) as [[tx' e]|]; [simpl|done].
    destruct (runTx env evs tx') as [[tr' es]|] eqn:Hr; [simpl|done].
    intros [= <- <-]. by exists tx', e, tr', es.
  - intros (tx' & e & tr' & es & -> & Hr & -> & ->). simpl.
    by rewrite Hr.
Qed.

(** A run starts at the record it was given and adds one record per
    event. *)
Lemma runTx_head env evs tx tr effs :
  runTx env evs tx = Some (tr, effs) → ∃ tr', tr = tx :: tr'.
Proof.
  destruct evs as [|ev evs].
  - intros [= <- <-]. by eexists.
  - intros (? & ? & tr' & ? & _ & _ & -> & _)%runTx_cons. by eexists.
Qed.

Lemma runTx_length env evs tx tr effs :
  runTx env evs tx = Some (tr, effs) → length tr = S (length evs).
Proof.
  revert tx tr effs. induction evs as [|ev evs IH]; intros tx tr effs.
  - by intros [= <- <-].
  - intros (tx' & e & tr' & es & _ & Hr & -> & _)%runTx_cons.
    simpl. by rewrite (IH _ _ _ Hr).
Qed.

(** Consecutive records of a run are one step of the event between
    them apart. *)
Lemma runTx_adjacent env evs tx tr effs k a b :
  runTx env evs tx = Some (tr, effs) →
  tr !! k = Some a → tr !! S k = Some b →
  ∃ ev e, evs !! k = Some ev ∧ stepTx env ev a = Some (b, e).
Proof.
  revert tx tr effs k. induction evs as [|ev evs IH]; intros tx tr effs k.
  - intros [= <- <-]. by destruct k.
  - intros (tx' & e & tr' & es & Hst & Hr & -> & _)%runTx_cons Ha Hb.
    destruct (runTx_head _ _ _ _ _ Hr) as [tr'' ->].
    destruct k as [|k]; simpl in *.
    + simplify_eq. eauto.
    + eapply IH; eauto.
Qed.

(** A property of records that every step preserves holds all along a
    run. *)
Lemma runTx_invariant env (P : Transaction → Prop) evs tx tr effs :
  (∀ ev a b e, P a → stepTx env ev a = Some (b, e) → P b) →
  P tx → runTx env evs tx = Some (tr, effs) → Forall P tr.
Proof.
  intros Hstep. revert tx tr effs.
  induction evs as [|ev evs IH]; intros tx tr effs Htx.
  - intros [= <- <-]. by constructor.
  - intros (tx' & e & tr' & es & Hst & Hr & -> & _)%runTx_cons.
    constructor; [done|]. eapply IH; [|done]. eauto.
Qed.

(** A run never gets stuck when every record satisfying the invariant can
    take every step. *)
Lemma runTx_total env (P : Transaction → Prop) evs tx :
  (∀ ev a b e, P a → stepTx env ev a = Some (b, e) → P b) →
  (∀ ev a, P a → is_Some (stepTx env ev a)) →
  P tx → is_Some (runTx env evs tx).
Proof.
  intros Hstep Htot. revert tx.
  induction evs as [|ev evs IH]; intros tx Htx; [by eexists|].
  destruct (Htot ev tx Htx) as [[tx' e] Hst].
  destruct (IH tx') as [[tr' es] Hr]; [by eauto|].
  exists (tx :: tr', e ++ es). apply runTx_cons. naive_solver.
Qed.

(** A relation that is reflexive, transitive and holds between consecutive
    elements of a list holds between any two elements in list order. *)
Lemma adjacent_le {A} (R : relation A) (l : list A) :
  (∀ a, R a a) → (∀ a b c, R a b → R b c → R a c) →
  (∀ k a b, l !! k = Some a → l !! S k = Some b → R a b) →
  ∀ i j a b, (i ≤ j)%nat → l !! i = Some a → l !! j = Some b → R a b.
Proof.
  intros Hrefl Htrans Hadj i j a b Hij Ha. revert b.
  induction Hij as [|j Hij IH]; intros b Hb.
  - by simplify_eq.
  - destruct (lookup_lt_is_Some_2 l j) as [c Hc].
    { apply lookup_lt_Some in Hb. lia. }
    apply Htrans with c; eauto.
Qed.

(** ** The transition rule of the sweep *)

(** C1, as stated, fails on its last clause: a record in CLEARANCE_GRANTED
    is in none of the three listed statuses, yet the sweep ten seconds
    after submission moves it to IN_TRANSIT. *)
Lemma sweep_other_case_counterexample :
  status clearedTx ≠ SUBMITTED ∧ status clearedTx ≠ CONVERTING ∧
  status clearedTx ≠ IN_TRANSIT ∧
  statusTimestamps clearedTx !! SUBMITTED = Some 0 ∧
  ∃ tx', sweepTx demoEnv 10000 clearedTx = Some (tx', []) ∧
         status tx' = IN_TRANSIT ∧ tx' ≠ clearedTx.
Proof.
  split_and!; try done.
  exists (moved clearedTx IN_TRANSIT 10000). by split_and!.
Qed.

(** C1 (amended): for a record with a SUBMITTED timestamp that is not in
    CLEARANCE_GRANTED, with [elapsed] the seconds since that timestamp, the
    sweep returns a record and: from SUBMITTED it moves to
    FLAGGED_AWAITING_CLEARANCE (if [requiresAuth]) or CONVERTING (otherwise)
    exactly when [elapsed > 4]; from CONVERTING to IN_TRANSIT exactly when
    [elapsed > 8]; from IN_TRANSIT to FUNDS_ARRIVED exactly when
    [elapsed > 15]; a move records the sweep's clock reading under the new
    status and changes nothing else; in every other case the record is
    returned unchanged. *)
Theorem sweepTx_transition_rule env now tx sub :
  statusTimestamps tx !! SUBMITTED = Some sub →
  status tx ≠ CLEARANCE_GRANTED →
  let elapsed := elapsedSeconds now sub in
  let fires (threshold : Q) (next : TransactionStatus) (tx' : Transaction) :=
    ((threshold < elapsed)%Q ∧ tx' = moved tx next now ∧ tx' ≠ tx) ∨
    (¬ (threshold < elapsed)%Q ∧ tx' = tx) in
  ∃ tx' effs, sweepTx env now tx = Some (tx', effs) ∧
    match status tx with
    | SUBMITTED =>
        fires 4%Q (if truthy (requiresAuth tx)
                   then FLAGGED_AWAITING_CLEARANCE else CONVERTING) tx'
    | CONVERTING => fires 8%Q IN_TRANSIT tx'
    | IN_TRANSIT => fires 15%Q FUNDS_ARRIVED tx'
    | _ => tx' = tx
    end.
Proof.
  intros Hsub Hcg elapsed fires. subst elapsed fires. simpl.
  assert (∀ s, s ≠ status tx → moved tx s now ≠ tx) as Hne.
  { intros s Hs Heq. apply Hs. by apply (f_equal status) in Heq. }
  destruct (status tx) eqn:Hs; try done.
  - rewrite (sweepTx_SUBMITTED _ _ _ sub) by done. do 2 eexists. split; [done|].
    pose proof (elapsed_gt_ms now sub 4) as Hms.
    case_bool_decide; [left|right]; split_and!; try done; try (rewrite Hms; lia).
    apply Hne. by destruct (truthy _).
  - rewrite (sweepTx_CONVERTING _ _ _ sub) by done. do 2 eexists. split; [done|].
    pose proof (elapsed_gt_ms now sub 8) as Hms.
    case_bool_decide; [left|right]; split_and!; try done; try (rewrite Hms; lia).
    by apply Hne.
  - rewrite (sweepTx_FLAGGED _ _ _ sub) by done. by do 2 eexists.
  - rewrite (sweepTx_IN_TRANSIT _ _ _ sub) by done.
    pose proof (elapsed_gt_ms now sub 15) as Hms.
    case_bool_decide; do 2 eexists; (split; [done|]); [left|right];
      split_and!; try done; try (rewrite Hms; lia).
    by apply Hne.
  - rewrite sweepTx_FUNDS_ARRIVED by done. by do 2 eexists.
Qed.

(** The rule at work: the unflagged record, swept five seconds after
    submission. *)
Lemma sweepTx_transition_rule_witness :
  ∃ tx' effs, sweepTx demoEnv 5000 plainTx = Some (tx', effs) ∧
    (((4 < elapsedSeconds 5000 0)%Q ∧ tx' = moved plainTx CONVERTING 5000
      ∧ tx' ≠ plainTx) ∨
     (¬ (4 < elapsedSeconds 5000 0)%Q ∧ tx' = plainTx)).
Proof.
  apply (sweepTx_transition_rule demoEnv 5000 plainTx 0); [reflexivity|].
  simpl. discriminate.
Defined.



(** ** The ledger operations, record by record *)

(** A sweep of the ledger is the sweep of each of its records, in ledger
    order: same length, the record at each position is the sweep of the
    record that was there, and the sink calls are those of the records,
    concatenated. *)
Lemma sweepFrom_spec env clock i txs txs' effs :
  sweepFrom env clock i txs = Some (txs', effs) →
  ∃ es : list (list Effect),
    effs = concat es ∧ length txs' = length txs ∧
    ∀ k tx, txs !! k = Some tx →
      ∃ tx' e, sweepTx env (clock (i + k)%nat) tx = Some (tx', e) ∧
               txs' !! k = Some tx' ∧ es !! k = Some e.
Proof.
  revert i txs' effs. induction txs as [|tx txs IH]; intros i txs' effs; simpl.
  - intros [= <- <-]. by exists [].
  - destruct (sweepTx env (clock i) tx) as [[tx' e]|] eqn:Htx; [simpl|done].
    destruct (sweepFrom env clock (S i) txs) as [[rest' es']|] eqn:Hrest;
      [simpl|done].
    intros [= <- <-]. destruct (IH _ _ _ Hrest) as (es & -> & Hlen & Hk).
    exists (e :: es). split_and!; [done|by simpl; rewrite Hlen|].
    intros [|k] tx0 Hlk; simpl in *.
    + simplify_eq. rewrite Nat.add_0_r. eauto.
    + replace (i + S k)%nat with (S i + k)%nat by lia. eauto.
Qed.

(** The sweep of a ledger succeeds when the sweep of each record does. *)
Lemma sweepFrom_total env clock i txs :
  (∀ now tx, tx ∈ txs → is_Some (sweepTx env now tx)) →
  is_Some (sweepFrom env clock i txs).
Proof.
  revert i. induction txs as [|tx txs IH]; intros i Hall; simpl; [by eexists|].
  destruct (Hall (clock i) tx) as [[tx' e] ->]; [by left|]. simpl.
  destruct (IH (S i)) as [[rest' es] ->]; [|by eexists].
  intros now tx0 Hin. apply Hall. by right.
Qed.

Lemma onAuthorizeTransaction_lookup transactionId method clock st k tx :
  transactions st !! k = Some tx →
  transactions (onAuthorizeTransaction transactionId method clock st).1 !! k
  = Some (authorizeTx transactionId method (clock k) tx).
Proof. intros Hk. simpl. by rewrite list_lookup_imap, Hk. Qed.

(** ** FUNDS_ARRIVED is absorbing *)

Lemma runTx_FUNDS_ARRIVED env evs tx :
  status tx = FUNDS_ARRIVED →
  runTx env evs tx = Some (replicate (S (length evs)) tx, []).
Proof.
  intros Hs. induction evs as [|[now|transactionId method now] evs IH];
    [done|..]; simpl.
  - rewrite sweepTx_FUNDS_ARRIVED by done. simpl. by rewrite IH.
  - rewrite authorizeTx_no_match by (by rewrite Hs; intros [_ ?]).
    by rewrite IH.
Qed.

(** C2: a record whose status is FUNDS_ARRIVED is returned as it is by
    every sweep, with no sink called for it, and by every authorization;
    hence by every sequence of them.  In the ledger, every sweep, every
    authorization and every submission leave it, identical, where it was
    (a submission shifts it by the one record it puts in front). *)
Theorem funds_arrived_absorbing env tx :
  status tx = FUNDS_ARRIVED →
  (∀ now, sweepTx env now tx = Some (tx, [])) ∧
  (∀ transactionId method now,
     authorizeTx transactionId method now tx = tx) ∧
  (∀ evs, runTx env evs tx = Some (replicate (S (length evs)) tx, [])) ∧
  (∀ st k, transactions st !! k = Some tx →
     (∀ clock st' effs, sweep env clock st = Some (st', effs) →
        transactions st' !! k = Some tx) ∧
     (∀ transactionId method clock,
        transactions (onAuthorizeTransaction transactionId method clock st).1
          !! k = Some tx) ∧
     (∀ details t_id t_eta t_sub,
        transactions (createTransaction env details t_id t_eta t_sub st).1.2
          !! S k = Some tx)).
Proof.
  intros Hs.
  assert (∀ transactionId method now,
            authorizeTx transactionId method now tx = tx) as Hauth.
  { intros. apply authorizeTx_no_match. rewrite Hs. by intros [_ ?]. }
  split_and!; [by intros; apply sweepTx_FUNDS_ARRIVED|done
              |by intros; apply runTx_FUNDS_ARRIVED|].
  intros st k Hk. split_and!.
  - intros clock st' effs. unfold sweep.
    destruct (sweepFrom env clock 0 (transactions st)) as [[txs' es]|] eqn:Hsw;
      [simpl|done].
    intros [= <- <-]. simpl.
    destruct (sweepFrom_spec _ _ _ _ _ _ Hsw) as (? & _ & _ & Hlk).
    destruct (Hlk k tx Hk) as (tx' & e & Htx & Hk' & _).
    rewrite sweepTx_FUNDS_ARRIVED in Htx by done. by simplify_eq.
  - intros. by rewrite (onAuthorizeTransaction_lookup _ _ _ _ _ tx), Hauth.
  - done.
Qed.

(** An arrived record, swept again later. *)
Lemma funds_arrived_absorbing_witness :
  sweepTx demoEnv 20000 arrivedTx = Some (arrivedTx, []).
Proof.
  apply (funds_arrived_absorbing demoEnv arrivedTx). reflexivity.
Defined.

(** ** Authorize *)

(** C3: [onAuthorizeTransaction] calls no sink and touches nothing but the
    ledger; in the ledger it replaces the records with the given id whose
    status is FLAGGED_AWAITING_CLEARANCE, and only those; when there is
    none the whole state is returned as it was.  A replaced record has
    status CLEARANCE_GRANTED, the clock reading recorded under
    CLEARANCE_GRANTED on top of its former timestamps,
    [clearanceFeePaid] true exactly for method 'fee' (false for 'code'),
    and every other field as before. *)
Theorem onAuthorizeTransaction_spec transactionId method clock st :
  let st' := (onAuthorizeTransaction transactionId method clock st).1 in
  let hit tx := tx_id tx = transactionId
                ∧ status tx = FLAGGED_AWAITING_CLEARANCE in
  (onAuthorizeTransaction transactionId method clock st).2 = [] ∧
  recipients st' = recipients st ∧
  length (transactions st') = length (transactions st) ∧
  (∀ k tx, transactions st !! k = Some tx →
     ∃ tx', transactions st' !! k = Some tx' ∧
       (¬ hit tx → tx' = tx) ∧
       (hit tx →
          status tx' = CLEARANCE_GRANTED ∧
          statusTimestamps tx' =
            <[CLEARANCE_GRANTED := clock k]> (statusTimestamps tx) ∧
          clearanceFeePaid tx' = Some (bool_decide (method = method_fee)) ∧
          otherFields tx' = otherFields tx)) ∧
  ((¬ ∃ tx, tx ∈ transactions st ∧ hit tx) → st' = st).
Proof.
  intros st' hit. subst st' hit. split_and!; try done.
  - simpl. by rewrite length_imap.
  - intros k tx Hk. eexists. split.
    { by apply onAuthorizeTransaction_lookup. }
    split.
    + apply authorizeTx_no_match.
    + intros [Hid Hs]. by rewrite authorizeTx_match.
  - intros Hnone. destruct st as [txs rcps]. simpl in *. f_equal.
    apply list_eq. intros k. rewrite list_lookup_imap.
    destruct (txs !! k) as [tx|] eqn:Hk; [simpl|done].
    rewrite authorizeTx_no_match; [done|].
    intros Hhit. apply Hnone. exists tx. split; [|done].
    by eapply list_elem_of_lookup_2.
Qed.

(** ** One state per sweep *)

Lemma sweepTarget_sweepsLeft tx s :
  sweepTarget tx = Some s → sweepsLeft (status tx) = S (sweepsLeft s).
Proof.
  unfold sweepTarget.
  destruct (status tx); intros [= <-]; try done. by destruct (truthy _).
Qed.

Lemma TxStep_sweepsLeft env ev a b e :
  TxStep env ev a b e →
  (sweepsLeft (status a) ≤ sweepsLeft (status b) + (if isSwept ev then 1 else 0))%nat.
Proof.
  intros [ev' tx|now tx s Hs|method now tx Hs]; simpl.
  - lia.
  - rewrite (sweepTarget_sweepsLeft _ _ Hs). lia.
  - by rewrite Hs.
Qed.

Lemma runTx_sweepsLeft env evs tx tr effs final :
  runTx env evs tx = Some (tr, effs) → last tr = Some final →
  (sweepsLeft (status tx) ≤ sweepsLeft (status final) + countSwept evs)%nat.
Proof.
  revert tx tr effs. induction evs as [|ev evs IH]; intros tx tr effs.
  - intros [= <- <-] [= <-]. lia.
  - intros (tx' & e & tr' & es & Hst & Hr & -> & _)%runTx_cons Hlast.
    destruct (runTx_head _ _ _ _ _ Hr) as [tr'' ->].
    rewrite last_cons_cons in Hlast.
    specialize (IH _ _ _ Hr Hlast).
    apply stepTx_sound, TxStep_sweepsLeft in Hst.
    unfold countSwept in *. rewrite filter_cons.
    destruct (isSwept ev); case_decide; simpl; try done; lia.
Qed.

(** C10: one sweep moves a record along at most one edge of the state
    graph.  In particular a record still in SUBMITTED more than 15 seconds
    after submission is moved to CONVERTING (or, when flagged,
    FLAGGED_AWAITING_CLEARANCE) and no further; and any sequence of sweeps
    and authorizations that takes a record from SUBMITTED to FUNDS_ARRIVED
    contains at least three sweeps. *)
Theorem sweep_one_state_per_invocation env now tx sub :
  status tx = SUBMITTED →
  statusTimestamps tx !! SUBMITTED = Some sub →
  (15 < elapsedSeconds now sub)%Q →
  sweepTx env now tx =
    Some (moved tx (if truthy (requiresAuth tx)
                    then FLAGGED_AWAITING_CLEARANCE else CONVERTING) now, []) ∧
  (∀ now' a b e, sweepTx env now' a = Some (b, e) →
     status b = status a ∨ sweepTarget a = Some (status b)) ∧
  (∀ evs tr effs final,
     runTx env evs tx = Some (tr, effs) → last tr = Some final →
     status final = FUNDS_ARRIVED → (3 ≤ countSwept evs)%nat).
Proof.
  intros Hs Hsub Hel. split_and!.
  - rewrite (sweepTx_SUBMITTED _ _ _ sub) by done.
    apply (elapsed_gt_ms now sub 15) in Hel.
    by rewrite bool_decide_eq_true_2 by lia.
  - intros now' a b e [[-> ->]|(s & Ht & -> & ->)]%sweepTx_step; [by left|].
    by right.
  - intros evs tr effs final Hr Hlast Hfa.
    pose proof (runTx_sweepsLeft _ _ _ _ _ _ Hr Hlast) as Hle.
    rewrite Hs, Hfa in Hle. simpl in Hle. lia.
Qed.

(** A record first swept twenty seconds after submission. *)
Lemma sweep_one_state_per_invocation_witness :
  sweepTx demoEnv 20000 plainTx
  = Some (moved plainTx CONVERTING 20000, []).
Proof.
  apply (sweep_one_state_per_invocation demoEnv 20000 plainTx 0);
    reflexivity.
Defined.

(** ** Records created by Submit: the timestamp invariant *)

Lemma well_formed_new details t_id t_eta t_sub :
  well_formed (newTransaction details t_id t_eta t_sub).
Proof.
  split_and!; simpl.
  - rewrite lookup_singleton_eq. by eexists.
  - rewrite lookup_singleton_eq. by eexists.
  - intros s [t Hs]. apply lookup_singleton_Some in Hs as [<- _]. done.
Qed.

Lemma sweepTarget_rank tx s :
  sweepTarget tx = Some s → (rank (status tx) < rank s)%nat.
Proof.
  unfold sweepTarget.
  destruct (status tx); intros [= <-]; simpl; try lia.
  destruct (truthy _); simpl; lia.
Qed.

(** A step of a well-formed record adds at most one timestamp, under the
    status it moves to, and that status had none before. *)
Lemma TxStep_timestamps env ev a b e :
  well_formed a → TxStep env ev a b e →
  statusTimestamps a ⊆ statusTimestamps b ∧
  dom (statusTimestamps b) = dom (statusTimestamps a) ∪ {[ status b ]} ∧
  well_formed b.
Proof.
  intros Hwf Hst. pose proof Hwf as (Hsub & Hcur & Hrank).
  destruct Hst as [ev' tx|now tx s Hs|method now tx Hs].
  - split_and!; [reflexivity| |done].
    apply elem_of_dom in Hcur. set_solver.
  - apply sweepTarget_rank in Hs.
    assert (statusTimestamps tx !! s = None) as Hfresh.
    { apply eq_None_not_Some. intros Hin%Hrank. lia. }
    simpl. split_and!.
    + by apply insert_subseteq.
    + rewrite dom_insert_L. set_solver.
    + split_and!; simpl.
      * destruct Hsub as [t Ht]. exists t.
        rewrite lookup_insert_ne; [done|]. intros ->. by rewrite Hfresh in Ht.
      * rewrite lookup_insert_eq. by eexists.
      * intros s' [t Ht]. apply lookup_insert_Some in Ht as [[<- _]|[_ Ht]];
          [done|]. specialize (Hrank s' (mk_is_Some _ _ Ht)). lia.
  - assert (statusTimestamps tx !! CLEARANCE_GRANTED = None) as Hfresh.
    { apply eq_None_not_Some. intros Hin%Hrank. rewrite Hs in Hin.
      simpl in Hin. lia. }
    simpl. split_and!.
    + by apply insert_subseteq.
    + rewrite dom_insert_L. set_solver.
    + split_and!; simpl.
      * destruct Hsub as [t Ht]. exists t. by rewrite lookup_insert_ne.
      * rewrite lookup_insert_eq. by eexists.
      * intros s' [t Ht]. apply lookup_insert_Some in Ht as [[<- _]|[_ Ht]];
          [done|]. specialize (Hrank s' (mk_is_Some _ _ Ht)).
        rewrite Hs in Hrank. simpl in *. lia.
Qed.

Lemma well_formed_step env ev a b e :
  well_formed a → stepTx env ev a = Some (b, e) → well_formed b.
Proof. intros Ha Hst%stepTx_sound. by eapply TxStep_timestamps. Qed.

(** No event gets stuck on a well-formed record. *)
Lemma well_formed_total env ev a :
  well_formed a → is_Some (stepTx env ev a).
Proof.
  intros ([sub Hsub] & [cur Hcur] & _). destruct ev as [now|? ? ?];
    [simpl|by eexists].
  destruct (status a) eqn:Hs.
  - rewrite (sweepTx_SUBMITTED _ _ _ sub) by done. by eexists.
  - rewrite (sweepTx_CONVERTING _ _ _ sub) by done. by eexists.
  - rewrite (sweepTx_FLAGGED _ _ _ sub) by done. by eexists.
  - rewrite (sweepTx_CLEARANCE_GRANTED _ _ _ sub cur) by done. by eexists.
  - rewrite (sweepTx_IN_TRANSIT _ _ _ sub) by done. by eexists.
  - rewrite sweepTx_FUNDS_ARRIVED by done. by eexists.
Qed.

(** Every sequence of sweeps and authorizations runs to its end on a
    record created by Submit, through well-formed records only. *)
Lemma runTx_new env evs details t_id t_eta t_sub :
  ∃ tr effs,
    runTx env evs (newTransaction details t_id t_eta t_sub) = Some (tr, effs)
    ∧ Forall well_formed tr.
Proof.
  destruct (runTx_total env well_formed evs
              (newTransaction details t_id t_eta t_sub)) as [[tr effs] Hr].
  - apply well_formed_step.
  - intros. by apply well_formed_total.
  - apply well_formed_new.
  - exists tr, effs. split; [done|].
    eapply runTx_invariant; [apply well_formed_step|apply well_formed_new|done].
Qed.

(** ** Submit *)

(** C8: [createTransaction] is a total function of its arguments: it
    returns the record it created, whose status is SUBMITTED and whose
    [statusTimestamps] is the single entry SUBMITTED with the clock reading
    taken for it; the ledger afterwards is that record followed by the
    former ledger, record for record; the remaining fields of the created
    record are the caller's details; and the record is one no later sweep
    raises an error on. *)
Theorem createTransaction_spec env details t_id t_eta t_sub st :
  ∃ tx st' effs,
    createTransaction env details t_id t_eta t_sub st = (tx, st', effs) ∧
    status tx = SUBMITTED ∧
    statusTimestamps tx = {[ SUBMITTED := t_sub ]} ∧
    statusTimestamps tx !! SUBMITTED = Some t_sub ∧
    transactions st' = tx :: transactions st ∧
    length (transactions st') = S (length (transactions st)) ∧
    (∀ k old, transactions st !! k = Some old →
              transactions st' !! S k = Some old) ∧
    recipients st' = recipients st ∧
    tx_id tx = "txn_" +:+ pretty t_id ∧
    recipient tx = d_recipient details ∧
    requiresAuth tx = d_requiresAuth details ∧
    (accountId tx, sendAmount tx, receiveAmount tx, fee tx, exchangeRate tx)
    = (d_accountId details, d_sendAmount details, d_receiveAmount details,
       d_fee details, d_exchangeRate details) ∧
    well_formed tx ∧
    (∀ evs, is_Some (runTx env evs tx)).
Proof.
  do 3 eexists. split_and!; try done.
  - apply well_formed_new.
  - intros evs. destruct (runTx_new env evs details t_id t_eta t_sub)
      as (tr & effs & Hr & _).
    by eexists.
Qed.

(** ** The timestamp trail *)

Lemma runTx_TxStep env evs tx tr effs k a b :
  runTx env evs tx = Some (tr, effs) →
  tr !! k = Some a → tr !! S k = Some b →
  ∃ ev e, evs !! k = Some ev ∧ TxStep env ev a b e.
Proof.
  intros Hr Ha Hb.
  destruct (runTx_adjacent _ _ _ _ _ _ _ _ Hr Ha Hb) as (ev & e & Hev & Hst).
  exists ev, e. split; [done|]. by apply stepTx_sound.
Qed.

(** C7: for a record created by [createTransaction] and any sequence of
    sweeps and authorizations, the run goes through, and at every point of
    it: the statuses holding a timestamp are exactly the statuses the
    record has been in so far, the current one among them; a timestamp,
    once there, is there with the same value at every later point; and at
    most one step of the run enters FUNDS_ARRIVED. *)
Theorem statusTimestamps_invariant env evs details t_id t_eta t_sub :
  ∃ tr effs,
    runTx env evs (newTransaction details t_id t_eta t_sub) = Some (tr, effs) ∧
    (∀ k b, tr !! k = Some b →
       dom (statusTimestamps b) = list_to_set (status <$> take (S k) tr) ∧
       is_Some (statusTimestamps b !! status b)) ∧
    (∀ i j a b s t, (i ≤ j)%nat → tr !! i = Some a → tr !! j = Some b →
       statusTimestamps a !! s = Some t → statusTimestamps b !! s = Some t) ∧
    (∀ i j, enters FUNDS_ARRIVED tr i → enters FUNDS_ARRIVED tr j → i = j).
Proof.
  destruct (runTx_new env evs details t_id t_eta t_sub)
    as (tr & effs & Hr & Hwf).
  exists tr, effs. split; [done|].
  rewrite Forall_lookup in Hwf.
  assert (∀ k a b, tr !! k = Some a → tr !! S k = Some b →
            statusTimestamps a ⊆ statusTimestamps b ∧
            dom (statusTimestamps b)
            = dom (statusTimestamps a) ∪ {[ status b ]} ∧
            (status a = FUNDS_ARRIVED → status b = FUNDS_ARRIVED)) as Hadj.
  { intros k a b Ha Hb.
    destruct (runTx_TxStep _ _ _ _ _ _ _ _ Hr Ha Hb) as (ev & e & _ & Hst).
    destruct (TxStep_timestamps _ _ _ _ _ (Hwf _ _ Ha) Hst) as (? & ? & _).
    split_and!; [done..|].
    destruct Hst as [| ? ? s Hs |]; [done| |congruence].
    unfold sweepTarget in Hs. intros Hfa. by rewrite Hfa in Hs. }
  split_and!.
  - intros k. induction k as [|k IH]; intros b Hb.
    + destruct (runTx_head _ _ _ _ _ Hr) as [tr' ->]. simpl in *.
      simplify_eq. simpl. split.
      * rewrite dom_singleton_L. set_solver.
      * rewrite lookup_singleton_eq. by eexists.
    + destruct (lookup_lt_is_Some_2 tr k) as [a Ha].
      { apply lookup_lt_Some in Hb. lia. }
      destruct (Hadj _ _ _ Ha Hb) as (_ & Hdom & _).
      destruct (IH _ Ha) as [IHdom _].
      split; [|by apply Hwf in Hb as (_ & ? & _)].
      rewrite Hdom, IHdom, (take_S_r _ _ _ Hb), fmap_app, list_to_set_app_L.
      simpl. set_solver.
  - intros i j a b s t Hij Ha Hb Hs.
    assert (statusTimestamps a ⊆ statusTimestamps b) as Hsub.
    { apply (adjacent_le (λ a b, statusTimestamps a ⊆ statusTimestamps b)
               tr) with i j; try done.
      - intros x y z Hxy Hyz. by transitivity (statusTimestamps y).
      - intros k a' b' Ha' Hb'. by destruct (Hadj _ _ _ Ha' Hb'). }
    by eapply lookup_weaken.
  - assert (∀ i j, (i < j)%nat → enters FUNDS_ARRIVED tr i →
              ¬ enters FUNDS_ARRIVED tr j) as Hlt.
    { intros i j Hij (a & b & Ha & Hb & Hna & Hfa) (a' & b' & Ha' & _ & Hna' & _).
      apply Hna'.
      apply (adjacent_le (λ a b, status a = FUNDS_ARRIVED
                                 → status b = FUNDS_ARRIVED) tr)
        with (S i) j b; try done; try lia.
      - intros x y z Hxy Hyz ?. by apply Hyz, Hxy.
      - intros k x y Hx Hy. by destruct (Hadj _ _ _ Hx Hy) as (_ & _ & ?). }
    intros i j Hi Hj.
    destruct (Nat.lt_trichotomy i j) as [Hij|[Hij|Hij]]; [|done|].
    + by destruct (Hlt i j Hij Hi).
    + by destruct (Hlt j i Hij Hj).
Qed.

(** ** The authorization gate *)

Lemma gated_step env transactionId ev a b e :
  gated transactionId a → stepTx env ev a = Some (b, e) →
  gated transactionId b.
Proof.
  intros (Hid & Hauth & Hnc) Hst%stepTx_sound.
  destruct Hst as [|now tx s Hs|method now tx Hs]; [done|..].
  - split_and!; [done..|]. simpl. unfold sweepTarget in Hs.
    rewrite Hauth in Hs. destruct (status tx); by simplify_eq.
  - by split_and!.
Qed.

(** C6: take a record created with [requiresAuth] true and any sequence of
    sweeps and authorizations.  The run goes through, and: whenever the
    record is IN_TRANSIT, it was in CLEARANCE_GRANTED at an earlier point;
    whenever it is in CLEARANCE_GRANTED, an earlier event was an
    authorization naming this record, received while it was
    FLAGGED_AWAITING_CLEARANCE, and that event put it there; and every
    sweep of the record while FLAGGED_AWAITING_CLEARANCE returns it
    unchanged. *)
Theorem clearance_gate env evs details t_id t_eta t_sub :
  truthy (d_requiresAuth details) = true →
  let tx := newTransaction details t_id t_eta t_sub in
  ∃ tr effs,
    runTx env evs tx = Some (tr, effs) ∧
    (∀ j b, tr !! j = Some b → status b = IN_TRANSIT →
       ∃ i a, (i < j)%nat ∧ tr !! i = Some a ∧
              status a = CLEARANCE_GRANTED) ∧
    (∀ j b, tr !! j = Some b → status b = CLEARANCE_GRANTED →
       ∃ i a method now, (i < j)%nat ∧ tr !! i = Some a ∧
         status a = FLAGGED_AWAITING_CLEARANCE ∧
         evs !! i = Some (Authorized (tx_id tx) method now) ∧
         tr !! S i = Some (granted a method now)) ∧
    (∀ k a b now, tr !! k = Some a → tr !! S k = Some b →
       evs !! k = Some (Swept now) →
       status a = FLAGGED_AWAITING_CLEARANCE → b = a).
Proof.
  intros Hauth tx.
  destruct (runTx_new env evs details t_id t_eta t_sub)
    as (tr & effs & Hr & _).
  exists tr, effs. split; [done|].
  assert (Forall (gated (tx_id tx)) tr) as Hg.
  { eapply runTx_invariant; [apply gated_step| |done]. by split_and!. }
  rewrite Forall_lookup in Hg.
  destruct (runTx_head _ _ _ _ _ Hr) as [tr' Htr].
  split_and!.
  - intros j. induction j as [|j IH]; intros b Hb Hs.
    { subst tr. simpl in Hb. by simplify_eq. }
    destruct (lookup_lt_is_Some_2 tr j) as [a Ha].
    { apply lookup_lt_Some in Hb. lia. }
    destruct (runTx_TxStep _ _ _ _ _ _ _ _ Hr Ha Hb) as (ev & e & _ & Hst).
    destruct Hst as [ev' a|now a s Ht|method now a Hf].
    + destruct (IH _ Ha Hs) as (i & a' & ? & ? & ?).
      exists i, a'. split_and!; [lia|done..].
    + simpl in Hs. subst s. unfold sweepTarget in Ht.
      destruct (Hg _ _ Ha) as (_ & Hau & Hnc).
      rewrite Hau in Ht.
      destruct (status a) eqn:Hsa; simplify_eq.
      exists j, a. split_and!; [lia|done..].
    + done.
  - intros j. induction j as [|j IH]; intros b Hb Hs.
    { subst tr. simpl in Hb. by simplify_eq. }
    destruct (lookup_lt_is_Some_2 tr j) as [a Ha].
    { apply lookup_lt_Some in Hb. lia. }
    destruct (runTx_TxStep _ _ _ _ _ _ _ _ Hr Ha Hb) as (ev & e & Hev & Hst).
    destruct Hst as [ev' a|now a s Ht|method now a Hf].
    + destruct (IH _ Ha Hs) as (i & a' & m & n & ? & ? & ? & ? & ?).
      exists i, a', m, n. split_and!; [lia|done..].
    + simpl in Hs. subst s. unfold sweepTarget in Ht.
      by destruct (status a), (truthy (requiresAuth a)).
    + destruct (Hg _ _ Ha) as (Hid & _ & _).
      exists j, a, method, now. rewrite <- Hid. split_and!; [lia|done..].
  - intros k a b now Ha Hb Hev Hf.
    destruct (runTx_TxStep _ _ _ _ _ _ _ _ Hr Ha Hb)
      as (ev & e & Hev' & Hst).
    rewrite Hev in Hev'. simplify_eq.
    inversion Hst as [|? ? s Ht|]; [done|]. subst.
    unfold sweepTarget in Ht. by rewrite Hf in Ht.
Qed.

(** A flagged record: swept, left waiting, cleared by fee, swept again. *)
Lemma clearance_gate_witness :
  ∃ tr effs,
    runTx demoEnv [Swept 5000; Swept 100000;
                   Authorized "txn_0" method_fee 100000; Swept 104001]
      (newTransaction (demoDetails (Some true)) 0 0 0) = Some (tr, effs) ∧
    (∀ j b, tr !! j = Some b → status b = IN_TRANSIT →
       ∃ i a, (i < j)%nat ∧ tr !! i = Some a ∧
              status a = CLEARANCE_GRANTED) ∧
    (∀ j b, tr !! j = Some b → status b = CLEARANCE_GRANTED →
       ∃ i a method now, (i < j)%nat ∧ tr !! i = Some a ∧
         status a = FLAGGED_AWAITING_CLEARANCE ∧
         [Swept 5000; Swept 100000;
          Authorized "txn_0" method_fee 100000; Swept 104001] !! i
         = Some (Authorized
                   (tx_id (newTransaction (demoDetails (Some true)) 0 0 0))
                   method now) ∧
         tr !! S i = Some (granted a method now)) ∧
    (∀ k a b now, tr !! k = Some a → tr !! S k = Some b →
       [Swept 5000; Swept 100000;
        Authorized "txn_0" method_fee 100000; Swept 104001] !! k
       = Some (Swept now) →
       status a = FLAGGED_AWAITING_CLEARANCE → b = a).
Proof.
  apply (clearance_gate demoEnv
           [Swept 5000; Swept 100000;
            Authorized "txn_0" method_fee 100000; Swept 104001]
           (demoDetails (Some true)) 0 0 0).
  reflexivity.
Defined.

(** ** The arrival side effects *)

Lemma TxStep_effects env ev a b e :
  TxStep env ev a b e → status a ≠ FUNDS_ARRIVED →
  (status a = IN_TRANSIT ∧ status b = FUNDS_ARRIVED ∧
   (∃ now, ev = Swept now) ∧ e = arrivalEffects env a) ∨
  (status b ≠ FUNDS_ARRIVED ∧ e = []).
Proof.
  intros [ev' tx|now tx s Hs|method now tx Hs] Hna; [by right| |by right].
  unfold sweepTarget in Hs.
  destruct (status tx) eqn:Hst; simplify_eq; simpl.
  - right. by destruct (truthy _).
  - by right.
  - by right.
  - left. split_and!; eauto.
Qed.

Lemma last_replicate_S {A} (n : nat) (x : A) :
  last (replicate (S n) x) = Some x.
Proof.
  rewrite last_lookup, length_replicate.
  apply lookup_replicate_2. simpl. lia.
Qed.

(** The sink calls of a whole run are those of its arrival step, if it has
    one. *)
Lemma runTx_effects env evs tx tr effs final :
  status tx ≠ FUNDS_ARRIVED →
  runTx env evs tx = Some (tr, effs) → last tr = Some final →
  (status final ≠ FUNDS_ARRIVED ∧ effs = []) ∨
  (status final = FUNDS_ARRIVED ∧
   ∃ a, a ∈ tr ∧ status a = IN_TRANSIT ∧ effs = arrivalEffects env a).
Proof.
  revert tx tr effs. induction evs as [|ev evs IH]; intros tx tr effs Hna.
  - intros [= <- <-] [= <-]. by left.
  - intros (tx' & e & tr' & es & Hst & Hr & -> & ->)%runTx_cons Hlast.
    destruct (runTx_head _ _ _ _ _ Hr) as [tr'' ->].
    rewrite last_cons_cons in Hlast.
    destruct (TxStep_effects _ _ _ _ _ (stepTx_sound _ _ _ _ _ Hst) Hna)
      as [(Hit & Hfa & _ & ->)|[Hnfa ->]].
    + pose proof (runTx_FUNDS_ARRIVED env evs tx' Hfa) as Hr'.
      assert (tx' :: tr'' = replicate (S (length evs)) tx' ∧ es = [])
        as [Htr ->] by (split; congruence).
      rewrite Htr, last_replicate_S in Hlast. simplify_eq.
      right. split; [done|]. exists tx.
      split_and!; [by left|done|by rewrite app_nil_r].
    + destruct (IH _ _ _ Hnfa Hr Hlast) as [[? ->]|(? & a & ? & ? & ->)].
      * by left.
      * right. split; [done|]. exists a. split_and!; [by right|done..].
Qed.

Lemma countIf_arrivalEffects env a :
  countIf isArrivalNotification (arrivalEffects env a)
  = (if push_transactions (settings env) then 1 else 0)%nat ∧
  countIf isArrivalReceipt (arrivalEffects env a)
  = (if email_transactions (settings env) then 1 else 0)%nat.
Proof.
  unfold arrivalEffects, countIf.
  by destruct (push_transactions _), (email_transactions _).
Qed.

Lemma countIf_app p effs1 effs2 :
  countIf p (effs1 ++ effs2) = (countIf p effs1 + countIf p effs2)%nat.
Proof. unfold countIf. by rewrite filter_app, length_app. Qed.

Lemma arrivedCount_cons tx txs :
  arrivedCount (tx :: txs)
  = ((if bool_decide (status tx = FUNDS_ARRIVED) then 1 else 0)
     + arrivedCount txs)%nat.
Proof.
  unfold arrivedCount. rewrite filter_cons.
  by case_decide; case_bool_decide.
Qed.

(** Closes an [arrivalsMatch] goal by cases on the two switches. *)
Ltac by_switches :=
  unfold arrivalsMatch, arrivedCount, countIf;
  destruct (push_transactions _), (email_transactions _);
  simpl; split_and!; (done || lia).

Lemma sweepTx_arrivals env now tx tx' e :
  sweepTx env now tx = Some (tx', e) →
  arrivalsMatch env e
    (if bool_decide (status tx = FUNDS_ARRIVED) then 1 else 0)
    (if bool_decide (status tx' = FUNDS_ARRIVED) then 1 else 0).
Proof.
  intros Hsw.
  destruct (decide (status tx = FUNDS_ARRIVED)) as [Hfa|Hna].
  { rewrite sweepTx_FUNDS_ARRIVED in Hsw by done. simplify_eq.
    rewrite bool_decide_eq_true_2 by done. by_switches. }
  apply (stepTx_sound env (Swept now)) in Hsw.
  rewrite (bool_decide_eq_false_2 (status tx = _)) by done.
  destruct (TxStep_effects _ _ _ _ _ Hsw Hna) as [(_ & Hfa & _ & ->)|[Hn ->]].
  - rewrite bool_decide_eq_true_2 by done.
    unfold arrivalsMatch. destruct (countIf_arrivalEffects env tx) as [-> ->].
    by_switches.
  - rewrite bool_decide_eq_false_2 by done. by_switches.
Qed.

Lemma arrivalsMatch_app env effs1 effs2 a b c d :
  arrivalsMatch env effs1 a b → arrivalsMatch env effs2 c d →
  arrivalsMatch env (effs1 ++ effs2) (a + c) (b + d).
Proof.
  unfold arrivalsMatch. rewrite !countIf_app.
  intros (? & -> & ->) (? & -> & ->).
  destruct (push_transactions _), (email_transactions _); lia.
Qed.

Lemma arrivalsMatch_trans env effs1 effs2 a b c :
  arrivalsMatch env effs1 a b → arrivalsMatch env effs2 b c →
  arrivalsMatch env (effs1 ++ effs2) a c.
Proof.
  unfold arrivalsMatch. rewrite !countIf_app.
  intros (? & -> & ->) (? & -> & ->).
  destruct (push_transactions _), (email_transactions _); lia.
Qed.

Lemma sweepFrom_arrivals env clock i txs txs' effs :
  sweepFrom env clock i txs = Some (txs', effs) →
  arrivalsMatch env effs (arrivedCount txs) (arrivedCount txs').
Proof.
  revert i txs' effs. induction txs as [|tx txs IH]; intros i txs' effs; simpl.
  - intros [= <- <-]. by_switches.
  - destruct (sweepTx env (clock i) tx) as [[tx' e]|] eqn:Htx; [simpl|done].
    destruct (sweepFrom env clock (S i) txs) as [[rest' es']|] eqn:Hrest;
      [simpl|done].
    intros [= <- <-].
    rewrite (arrivedCount_cons tx), (arrivedCount_cons tx').
    apply arrivalsMatch_app; [by eapply sweepTx_arrivals|by eapply IH].
Qed.

Lemma authorize_arrivedCount transactionId method clock i txs :
  arrivedCount (imap (λ k tx, authorizeTx transactionId method
                                (clock (i + k)%nat) tx) txs)
  = arrivedCount txs.
Proof.
  revert i. induction txs as [|tx txs IH]; intros i; [done|].
  rewrite imap_cons, !arrivedCount_cons. f_equal.
  - unfold authorizeTx. repeat case_bool_decide; simpl in *; congruence.
  - rewrite <- (IH (S i)). f_equal. apply imap_ext. intros k x _. simpl.
    by replace (i + S k)%nat with (S i + k)%nat by lia.
Qed.

(** Over a sequence of ledger operations, the arrival calls of each kind
    number the records that reached FUNDS_ARRIVED during it, when the
    switch of that kind is on, and are absent otherwise. *)
Lemma runApp_arrivals env ops st st' effs :
  runApp env ops st = Some (st', effs) →
  arrivalsMatch env effs (arrivedCount (transactions st))
    (arrivedCount (transactions st')).
Proof.
  revert st st' effs. induction ops as [|op ops IH]; intros st st' effs; simpl.
  - intros [= <- <-]. by_switches.
  - destruct (stepApp env op st) as [[st1 e]|] eqn:Hst; [simpl|done].
    destruct (runApp env ops st1) as [[st2 es]|] eqn:Hrun; [simpl|done].
    intros [= <- <-].
    apply arrivalsMatch_trans with (arrivedCount (transactions st1));
      [|by eapply IH].
    destruct op as [details t_id t_eta t_sub|clock|transactionId method clock];
      simpl in Hst.
    + simplify_eq. simpl. rewrite arrivedCount_cons. simpl.
      unfold submitEffects. destruct (sms_transactions _); by_switches.
    + unfold sweep in Hst.
      destruct (sweepFrom env clock 0 (transactions st)) as [[txs' es']|]
        eqn:Hsw; [simpl in Hst|done].
      simplify_eq. simpl. by eapply sweepFrom_arrivals.
    + unfold onAuthorizeTransaction in Hst. simplify_eq. cbn [transactions].
      pose proof (authorize_arrivedCount transactionId method clock 0
                    (transactions st)) as Hsame.
      simpl in Hsame. rewrite Hsame. by_switches.
Qed.

(** C4, as stated, fails on its first clause: with the transaction alerts
    switched off, the sweep moves an IN_TRANSIT record to FUNDS_ARRIVED
    and calls neither sink. *)
Lemma arrival_effects_counterexample :
  let tx := moved (moved plainTx CONVERTING 5000) IN_TRANSIT 9000 in
  status tx = IN_TRANSIT ∧
  sweepTx quietEnv 16000 tx = Some (moved tx FUNDS_ARRIVED 16000, []) ∧
  status (moved tx FUNDS_ARRIVED 16000) = FUNDS_ARRIVED.
Proof. by split_and!. Qed.

(** C4 (amended): take a record created by [createTransaction] and any
    sequence of sweeps and authorizations.  The run goes through; a step
    calls a sink only if it is the sweep that moves the record from
    IN_TRANSIT to FUNDS_ARRIVED, and that step calls
    [arrivalEffects]: the "Funds Arrived" notification when
    [pushNotificationSettings.transactions] is on, then the funds-arrived
    mail when [privacySettings.email.transactions] is on.  Over the whole
    run each of the two is emitted once if its switch is on and the record
    has reached FUNDS_ARRIVED, and not at all otherwise;
    [createTransaction] itself emits neither.  For the ledger as a whole:
    over any sequence of submissions, sweeps and authorizations, the
    arrival calls of each kind number the records that reached
    FUNDS_ARRIVED during it when the switch of that kind is on, and are
    absent otherwise. *)
Theorem arrival_effects_once env evs details t_id t_eta t_sub :
  let tx := newTransaction details t_id t_eta t_sub in
  let arrived (final : Transaction) :=
    bool_decide (status final = FUNDS_ARRIVED) in
  ∃ tr effs final,
    runTx env evs tx = Some (tr, effs) ∧ last tr = Some final ∧
    (∀ k a b ev e, tr !! k = Some a → evs !! k = Some ev →
       stepTx env ev a = Some (b, e) →
       (status a = IN_TRANSIT ∧ status b = FUNDS_ARRIVED ∧
        (∃ now, ev = Swept now) ∧ e = arrivalEffects env a) ∨
       (¬ (status a = IN_TRANSIT ∧ status b = FUNDS_ARRIVED) ∧ e = [])) ∧
    countIf isArrivalNotification effs
    = (if arrived final && push_transactions (settings env)
       then 1 else 0)%nat ∧
    countIf isArrivalReceipt effs
    = (if arrived final && email_transactions (settings env)
       then 1 else 0)%nat ∧
    countIf isArrivalNotification (submitEffects env tx) = 0%nat ∧
    countIf isArrivalReceipt (submitEffects env tx) = 0%nat ∧
    (∀ ops st st' ledgerEffs,
       runApp env ops st = Some (st', ledgerEffs) →
       arrivalsMatch env ledgerEffs (arrivedCount (transactions st))
         (arrivedCount (transactions st'))).
Proof.
  intros tx arrived. subst arrived.
  destruct (runTx_new env evs details t_id t_eta t_sub)
    as (tr & effs & Hr & _).
  destruct (runTx_head _ _ _ _ _ Hr) as [tr' Htr].
  assert (is_Some (last tr)) as [final Hlast].
  { rewrite last_is_Some. by subst tr. }
  exists tr, effs, final.
  split_and!; [done..| | | | | |by intros; eapply runApp_arrivals].
  - intros k a b ev e _ _ Hst%stepTx_sound.
    destruct (decide (status a = FUNDS_ARRIVED)) as [Hfa|Hna].
    + right. split; [intros [? _]; congruence|].
      destruct Hst as [|? ? s Hs|]; [done| |congruence].
      unfold sweepTarget in Hs. by rewrite Hfa in Hs.
    + destruct (TxStep_effects _ _ _ _ _ Hst Hna) as [?|[? ->]];
        [by left|right]. split; [intros [_ ?]|]; done.
  - destruct (runTx_effects env evs tx tr effs final) as
      [[Hn ->]|(Hfa & a & _ & _ & ->)]; try done.
    + by rewrite bool_decide_eq_false_2.
    + rewrite bool_decide_eq_true_2 by done.
      apply countIf_arrivalEffects.
  - destruct (runTx_effects env evs tx tr effs final) as
      [[Hn ->]|(Hfa & a & _ & _ & ->)]; try done.
    + by rewrite bool_decide_eq_false_2.
    + rewrite bool_decide_eq_true_2 by done.
      apply countIf_arrivalEffects.
  - unfold submitEffects, countIf.
    by destruct (email_transactions _), (sms_transactions _).
  - unfold submitEffects, countIf.
    by destruct (email_transactions _), (sms_transactions _).
Qed.

(** ** From the ledger to its records *)

Lemma lives_refl env tx : lives env tx tx.
Proof. by exists [], [tx], []. Qed.

Lemma lives_cons env ev a b c e :
  stepTx env ev a = Some (b, e) → lives env b c → lives env a c.
Proof.
  intros Hst (evs & tr & effs & Hr & Hlast).
  exists (ev :: evs), (a :: tr), (e ++ effs). split.
  - apply runTx_cons. naive_solver.
  - destruct (runTx_head _ _ _ _ _ Hr) as [tr' ->].
    by rewrite last_cons_cons.
Qed.

(** A sweep or an authorization of the ledger is one event for each of its
    records. *)
Lemma stepApp_records env op st st' effs :
  stepApp env op st = Some (st', effs) →
  match op with
  | Submit details t_id t_eta t_sub =>
      transactions st' =
        newTransaction details t_id t_eta t_sub :: transactions st
  | _ =>
      Forall2 (λ a b, ∃ ev e, stepTx env ev a = Some (b, e))
        (transactions st) (transactions st')
  end.
Proof.
  destruct op as [details t_id t_eta t_sub|clock|transactionId method clock];
    simpl.
  - by intros [= <- <-].
  - unfold sweep.
    destruct (sweepFrom env clock 0 (transactions st)) as [[txs' es]|] eqn:Hsw;
      [simpl|done].
    intros [= <- <-]. simpl.
    destruct (sweepFrom_spec _ _ _ _ _ _ Hsw) as (ess & _ & Hlen & Hlk).
    apply Forall2_same_length_lookup_2; [done|].
    intros k a b Ha Hb. destruct (Hlk _ _ Ha) as (tx' & e & Htx & Hb' & _).
    exists (Swept (clock k)), e. simpl. by simplify_eq.
  - intros [= <- <-]. simpl.
    apply Forall2_same_length_lookup_2; [by rewrite length_imap|].
    intros k a b Ha Hb. rewrite list_lookup_imap, Ha in Hb. simpl in Hb.
    exists (Authorized transactionId method (clock k)), []. simpl.
    by simplify_eq.
Qed.

(** After any sequence of ledger operations the ledger consists of the
    records submitted on the way, newest first, followed by the records it
    started with, in their order; each is what a sequence of sweeps and
    authorizations made of the record as it was created (or as it was in
    the initial ledger). *)
Lemma runApp_records env ops st st' effs :
  runApp env ops st = Some (st', effs) →
  ∃ news olds,
    transactions st' = news ++ olds ∧
    Forall2 (lives env) (transactions st) olds ∧
    Forall (λ tx', ∃ details t_id t_eta t_sub,
              lives env (newTransaction details t_id t_eta t_sub) tx') news.
Proof.
  revert st st' effs. induction ops as [|op ops IH]; intros st st' effs; simpl.
  - intros [= <- <-]. exists [], (transactions st). split_and!; [done| |done].
    apply Forall2_same_length_lookup_2; [done|].
    intros k a b Ha Hb. simplify_eq. apply lives_refl.
  - destruct (stepApp env op st) as [[st1 e]|] eqn:Hst; [simpl|done].
    destruct (runApp env ops st1) as [[st2 es]|] eqn:Hrun; [simpl|done].
    intros [= <- <-].
    destruct (IH _ _ _ Hrun) as (news & olds & Heq & Hold & Hnew).
    apply stepApp_records in Hst. destruct op.
    + rewrite Hst in Hold.
      apply Forall2_cons_inv_l in Hold as (o & olds' & Ho & Hold & ->).
      exists (news ++ [o]), olds'. split_and!.
      * by rewrite Heq, <- app_assoc.
      * done.
      * apply Forall_app. split; [done|]. constructor; [|done]. eauto.
    + exists news, olds. split_and!; [done| |done].
      clear Heq. revert Hst olds Hold.
      generalize (transactions st) (transactions st1).
      induction 1 as [|a b l1 l2 (ev & e' & Hab) _ IHl];
        intros olds Hold; [done|].
      apply Forall2_cons_inv_l in Hold as (o & olds' & Ho & Hold & ->).
      constructor; [by eapply lives_cons|by apply IHl].
    + exists news, olds. split_and!; [done| |done].
      clear Heq. revert Hst olds Hold.
      generalize (transactions st) (transactions st1).
      induction 1 as [|a b l1 l2 (ev & e' & Hab) _ IHl];
        intros olds Hold; [done|].
      apply Forall2_cons_inv_l in Hold as (o & olds' & Ho & Hold & ->).
      constructor; [by eapply lives_cons|by apply IHl].
Qed.

(** Started from a ledger of well-formed records (the empty ledger, for
    one), no sequence of ledger operations raises an error. *)
Lemma runApp_total env ops st :
  Forall well_formed (transactions st) → is_Some (runApp env ops st).
Proof.
  revert st. induction ops as [|op ops IH]; intros st Hwf; [by eexists|].
  assert (∃ st1 e, stepApp env op st = Some (st1, e)) as (st1 & e & Hst).
  { destruct op; simpl; [by do 2 eexists| |by do 2 eexists].
    unfold sweep.
    destruct (sweepFrom_total env clock 0 (transactions st)) as [[txs' es] ->];
      [|by do 2 eexists].
    intros now tx Hin. rewrite Forall_forall in Hwf.
    apply (well_formed_total env (Swept now)). by apply Hwf. }
  simpl. rewrite Hst. simpl.
  destruct (IH st1) as [[st2 es] ->]; [|by eexists].
  pose proof (stepApp_records _ _ _ _ _ Hst) as Hrec. destruct op.
  - rewrite Hrec. constructor; [apply well_formed_new|done].
  - revert Hrec Hwf. generalize (transactions st) (transactions st1).
    induction 1 as [|a b l1 l2 (ev & e' & Hab) _ IHl]; [done|].
    intros [Ha Hl]%Forall_cons. constructor; [|by apply IHl].
    by eapply well_formed_step.
  - revert Hrec Hwf. generalize (transactions st) (transactions st1).
    induction 1 as [|a b l1 l2 (ev & e' & Hab) _ IHl]; [done|].
    intros [Ha Hl]%Forall_cons. constructor; [|by apply IHl].
    by eapply well_formed_step.
Qed.

(** ** Recipients are snapshots *)

Lemma deref_Some heap refs rs :
  deref heap refs = Some rs ↔ Forall2 (λ l r, heap !! l = Some r) refs rs.
Proof. apply mapM_Some. Qed.

Lemma updateRefs_spec recipientId data heap refs :
  (∀ l, l ∈ refs → is_Some (heap !! l)) →
  ∃ heap' refs',
    updateRefs recipientId data heap refs = Some (heap', refs') ∧
    heap ⊆ heap' ∧
    (∀ l, l ∈ refs' → is_Some (heap' !! l)) ∧
    ∀ rs, deref heap refs = Some rs →
      deref heap' refs' =
        Some (map (λ r, if bool_decide (rec_id r = recipientId)
                        then updatedRecipient r data else r) rs).
Proof.
  setoid_rewrite deref_Some.
  revert heap. induction refs as [|l refs IH]; intros heap Hall; simpl.
  { exists heap, []. split_and!; [done..|set_solver|].
    intros rs ->%Forall2_nil_inv_l. constructor. }
  destruct (Hall l) as [r Hr]; [by left|]. rewrite Hr. simpl.
  assert (∀ l0, l0 ∈ refs → is_Some (heap !! l0)) as Hrest.
  { intros l0 Hin. apply Hall. by right. }
  case_bool_decide as Hid.
  - set (l' := fresh (dom heap)).
    assert (heap !! l' = None) as Hfresh.
    { apply not_elem_of_dom. apply is_fresh. }
    assert (heap ⊆ <[l' := updatedRecipient r data]> heap) as Hext
      by by apply insert_subseteq.
    destruct (IH (<[l' := updatedRecipient r data]> heap))
      as (heap' & refs' & -> & Hsub & Hal & Hde).
    { intros l0 [x Hx]%Hrest. exists x. by eapply lookup_weaken. }
    assert (heap' !! l' = Some (updatedRecipient r data)) as Hl'.
    { eapply lookup_weaken; [|done]. apply lookup_insert_eq. }
    simpl. exists heap', (l' :: refs'). split_and!; [done| | |].
    + by transitivity (<[l' := updatedRecipient r data]> heap).
    + intros l0 [->|Hin]%elem_of_cons; [by eexists|by apply Hal].
    + intros rs (r0 & rs' & Hr0 & Hrs & ->)%Forall2_cons_inv_l.
      simplify_eq. simpl. rewrite bool_decide_eq_true_2 by done.
      constructor; [done|]. apply Hde.
      eapply Forall2_impl; [done|]. simpl. intros l0 x Hx.
      by eapply lookup_weaken.
  - destruct (IH heap Hrest) as (heap' & refs' & -> & Hsub & Hal & Hde).
    simpl. exists heap', (l :: refs'). split_and!; [done..| |].
    + intros l0 [->|Hin]%elem_of_cons; [|by apply Hal].
      exists r. by eapply lookup_weaken.
    + intros rs (r0 & rs' & Hr0 & Hrs & ->)%Forall2_cons_inv_l.
      simplify_eq. simpl. rewrite bool_decide_eq_false_2 by done.
      constructor; [by eapply lookup_weaken|by apply Hde].
Qed.

Lemma onUpdateRecipientRef_spec recipientId data s :
  allocated s →
  ∃ s', onUpdateRecipientRef recipientId data s = Some s' ∧
    ledgerRefs s' = ledgerRefs s ∧ objects s ⊆ objects s' ∧ allocated s' ∧
    ∀ rs, deref (objects s) (recipientRefs s) = Some rs →
      deref (objects s') (recipientRefs s') =
        Some (map (λ r, if bool_decide (rec_id r = recipientId)
                        then updatedRecipient r data else r) rs).
Proof.
  unfold allocated. rewrite Forall_app, !Forall_forall. intros [Hrec Hled].
  destruct (updateRefs_spec recipientId data (objects s) (recipientRefs s))
    as (heap' & refs' & Hup & Hsub & Hal & Hde); [done|].
  unfold onUpdateRecipientRef. rewrite Hup. simpl. eexists. split; [done|].
  simpl. split_and!; [done..| |done].
  rewrite Forall_app, !Forall_forall. split; [done|].
  intros l [r Hr]%Hled. exists r. by eapply lookup_weaken.
Qed.

(** C9: when no reference dangles, any sequence of recipient edits goes
    through, leaves the recipient reference of every ledger record what it
    was, and leaves every object that existed before, in particular every
    object a ledger record refers to, as it was, field for field, even
    when the recipients array refers to the same object: an edit puts a new
    object in the array and writes to no existing one.  On values,
    [onUpdateRecipient] returns the ledger it was given, and is what the
    edit by reference does to the objects behind the array. *)
Theorem recipient_snapshot_preserved edits s :
  allocated s →
  ∃ s', editAll edits s = Some s' ∧
    ledgerRefs s' = ledgerRefs s ∧
    (∀ k l, ledgerRefs s !! k = Some l →
       ∃ r, objects s !! l = Some r ∧ objects s' !! l = Some r) ∧
    (∀ l r, objects s !! l = Some r → objects s' !! l = Some r) ∧
    (∀ recipientId data st,
       transactions (onUpdateRecipient recipientId data st).1
       = transactions st) ∧
    (∀ recipientId data txs rs,
       deref (objects s) (recipientRefs s) = Some rs →
       ∃ s1, onUpdateRecipientRef recipientId data s = Some s1 ∧
         deref (objects s1) (recipientRefs s1) =
           Some (recipients
                   (onUpdateRecipient recipientId data
                      {| transactions := txs; recipients := rs |}).1)).
Proof.
  intros Hal.
  assert (∃ s', editAll edits s = Some s' ∧ ledgerRefs s' = ledgerRefs s ∧
                objects s ⊆ objects s') as (s' & Hed & Hled & Hsub).
  { clear -Hal. revert s Hal.
    induction edits as [|[recipientId data] edits IH]; intros s Hal; simpl.
    - by exists s.
    - destruct (onUpdateRecipientRef_spec recipientId data s Hal)
        as (s1 & -> & Hl1 & Hs1 & Hal1 & _). simpl.
      destruct (IH s1 Hal1) as (s' & -> & Hl' & Hs').
      exists s'. split_and!; [done|congruence|by transitivity (objects s1)]. }
  exists s'. split_and!; [done..| | |done|].
  - intros k l Hk. unfold allocated in Hal.
    rewrite Forall_app, !Forall_forall in Hal. destruct Hal as [_ Hal].
    destruct (Hal l) as [r Hr]; [by eapply list_elem_of_lookup_2|].
    exists r. split; [done|]. by eapply lookup_weaken.
  - intros l r Hr. by eapply lookup_weaken.
  - intros recipientId data txs rs Hrs.
    destruct (onUpdateRecipientRef_spec recipientId data s Hal)
      as (s1 & Hs1 & _ & _ & _ & Hde).
    exists s1. split; [done|]. by apply Hde.
Qed.

(** The recipient of the one ledger record is edited through the
    recipients array; the record still reads the recipient as submitted. *)
Lemma recipient_snapshot_preserved_witness :
  ∃ s', editAll [("rec_1", demoData)] sharedState = Some s' ∧
    ledgerRefs s' = [0%nat] ∧
    objects s' !! 0%nat = Some demoRecipient.
Proof.
  destruct (recipient_snapshot_preserved [("rec_1", demoData)] sharedState)
    as (s' & Hed & Hled & _ & Hobj & _).
  - repeat constructor; by eexists.
  - exists s'. split_and!; [exact Hed|exact Hled|].
    apply Hobj. reflexivity.
Defined.

(** * Further properties of the status machine *)

(** ** Runs, end to end *)

Lemma finalTx_nil env tx : finalTx env [] tx = Some tx.
Proof. done. Qed.

Lemma finalTx_cons env ev evs tx :
  finalTx env (ev :: evs) tx
  = '(tx', _) ← stepTx env ev tx; finalTx env evs tx'.
Proof.
  unfold finalTx. simpl.
  destruct (stepTx env ev tx) as [[tx' e]|]; [simpl|done].
  destruct (runTx env evs tx') as [[tr es]|] eqn:Hr; [simpl|done].
  destruct (runTx_head _ _ _ _ _ Hr) as [tr' ->].
  by rewrite last_cons_cons.
Qed.

Lemma finalTx_app env evs1 evs2 tx :
  finalTx env (evs1 ++ evs2) tx
  = finalTx env evs1 tx ≫= finalTx env evs2.
Proof.
  revert tx. induction evs1 as [|ev evs1 IH]; intros tx; [done|].
  rewrite <- app_comm_cons, !finalTx_cons.
  destruct (stepTx env ev tx) as [[tx' e]|]; [simpl|done]. apply IH.
Qed.

Lemma finalTx_invariant env (P : Transaction → Prop) evs tx tx' :
  (∀ ev a b e, P a → stepTx env ev a = Some (b, e) → P b) →
  P tx → finalTx env evs tx = Some tx' → P tx'.
Proof.
  intros Hstep Htx. unfold finalTx.
  destruct (runTx env evs tx) as [[tr effs]|] eqn:Hr; [simpl|done].
  intros Hlast. pose proof (runTx_invariant _ P _ _ _ _ Hstep Htx Hr) as Hall.
  rewrite Forall_forall in Hall. apply Hall.
  rewrite last_lookup in Hlast. by eapply list_elem_of_lookup_2.
Qed.

(** ** Unflagged records *)

Lemma unflagged_step env details ev a b e :
  unflagged details a → stepTx env ev a = Some (b, e) → unflagged details b.
Proof.
  intros (Hauth & Hfee & Hnf & Hng) Hst%stepTx_sound.
  destruct Hst as [|now tx s Hs|method now tx Hs]; [done| |done].
  unfold sweepTarget in Hs. rewrite Hauth in Hs.
  split_and!; [done..| |]; simpl; destruct (status tx); by simplify_eq.
Qed.

(** X1: a record created with [requiresAuth] absent or false goes through
    any sequence of sweeps and authorizations without ever being
    FLAGGED_AWAITING_CLEARANCE or CLEARANCE_GRANTED; its
    [clearanceFeePaid] stays what the caller passed, and an authorization,
    whatever id and method it names, returns the record as it is. *)
Theorem unflagged_never_awaits_clearance env evs details t_id t_eta t_sub :
  truthy (d_requiresAuth details) = false →
  ∃ tr effs,
    runTx env evs (newTransaction details t_id t_eta t_sub) = Some (tr, effs) ∧
    (∀ k a, tr !! k = Some a →
       status a ≠ FLAGGED_AWAITING_CLEARANCE ∧
       status a ≠ CLEARANCE_GRANTED ∧
       clearanceFeePaid a = d_clearanceFeePaid details ∧
       ∀ transactionId method now,
         authorizeTx transactionId method now a = a).
Proof.
  intros Hauth.
  destruct (runTx_new env evs details t_id t_eta t_sub)
    as (tr & effs & Hr & _).
  exists tr, effs. split; [done|].
  assert (Forall (unflagged details) tr) as Hall.
  { eapply runTx_invariant; [apply unflagged_step| |done]. by split_and!. }
  rewrite Forall_lookup in Hall.
  intros k a Ha. destruct (Hall _ _ Ha) as (_ & Hfee & Hnf & Hng).
  split_and!; [done..|]. intros. apply authorizeTx_no_match. by intros [_ ?].
Qed.

(** An unflagged record, swept and, to no effect, authorized. *)
Lemma unflagged_never_awaits_clearance_witness :
  ∃ tr effs,
    runTx demoEnv [Swept 5000; Authorized "txn_0" method_fee 6000; Swept 9000]
      (newTransaction (demoDetails (Some false)) 0 0 0) = Some (tr, effs) ∧
    (∀ k a, tr !! k = Some a →
       status a ≠ FLAGGED_AWAITING_CLEARANCE ∧
       status a ≠ CLEARANCE_GRANTED ∧
       clearanceFeePaid a = None ∧
       ∀ transactionId method now,
         authorizeTx transactionId method now a = a).
Proof.
  apply (unflagged_never_awaits_clearance demoEnv
           [Swept 5000; Authorized "txn_0" method_fee 6000; Swept 9000]
           (demoDetails (Some false)) 0 0 0).
  reflexivity.
Defined.

(** ** Statuses only advance *)

Lemma TxStep_rank env ev a b e :
  TxStep env ev a b e →
  status a = status b ∨ (rank (status a) < rank (status b))%nat.
Proof.
  intros [|now tx s Hs|method now tx Hs]; [by left|right..].
  - by apply sweepTarget_rank.
  - simpl. rewrite Hs. simpl. lia.
Qed.

(** X2: along any run of sweeps and authorizations, from any record, a
    later record has the status of an earlier one or a status strictly
    deeper in the state graph: no status is ever left for an earlier one,
    nor CONVERTING for FLAGGED_AWAITING_CLEARANCE or the reverse. *)
Theorem status_never_moves_back env evs tx tr effs i j a b :
  runTx env evs tx = Some (tr, effs) →
  (i ≤ j)%nat → tr !! i = Some a → tr !! j = Some b →
  status a = status b ∨ (rank (status a) < rank (status b))%nat.
Proof.
  intros Hr.
  apply (adjacent_le
           (λ a b, status a = status b
                   ∨ (rank (status a) < rank (status b))%nat) tr).
  - by left.
  - intros x y z [Hxy|Hxy] [Hyz|Hyz]; [left|right..]; try congruence;
      try (rewrite Hxy; done); try (rewrite <- Hyz; done); lia.
  - intros k x y Hx Hy.
    destruct (runTx_TxStep _ _ _ _ _ _ _ _ Hr Hx Hy) as (ev & e & _ & Hst).
    by eapply TxStep_rank.
Qed.

(** The flagged record of the samples, before and after its clearance. *)
Lemma status_never_moves_back_witness :
  status flaggedTx = status clearedTx
  ∨ (rank (status flaggedTx) < rank (status clearedTx))%nat.
Proof.
  apply (status_never_moves_back demoEnv
           [Swept 5200; Authorized "txn_0" method_code 5500; Swept 6000]
           flaggedTx
           [flaggedTx; flaggedTx; clearedTx; clearedTx] [] 1 2);
    [reflexivity|lia|reflexivity|reflexivity].
Defined.

(** ** Timestamps are never early *)



(** ** The two-second interval *)

Lemma onSchedule_step env sub t t' tx :
  onSchedule sub t tx → t ≤ t' ≤ t + 2000 →
  ∃ tx' e, sweepTx env t' tx = Some (tx', e) ∧ onSchedule sub t' tx'.
Proof.
  intros (Hsub & Hauth & Hst) Hpace. unfold onSchedule.
  destruct (status tx) eqn:Hs; try done.
  - rewrite (sweepTx_SUBMITTED _ _ _ sub) by done. rewrite Hauth.
    case_bool_decide; do 2 eexists; (split; [done|]); simpl;
      rewrite ?lookup_insert_ne, ?Hs by done; split_and!; try done; lia.
  - rewrite (sweepTx_CONVERTING _ _ _ sub) by done.
    case_bool_decide; do 2 eexists; (split; [done|]); simpl;
      rewrite ?lookup_insert_ne, ?Hs by done; split_and!; try done; lia.
  - rewrite (sweepTx_IN_TRANSIT _ _ _ sub) by done.
    case_bool_decide; do 2 eexists; (split; [done|]); simpl;
      rewrite ?lookup_insert_ne, ?Hs by done; split_and!; try done; try lia.
    exists t'. rewrite lookup_insert_eq. split; [done|lia].
  - rewrite sweepTx_FUNDS_ARRIVED by done.
    do 2 eexists. split; [done|]. rewrite Hs.
    split_and!; try done; [lia|]. by destruct Hst as [_ ?].
Qed.

Lemma default_last_cons {A} (d x : A) (l : list A) :
  default d (last (x :: l)) = default x (last l).
Proof.
  destruct l as [|y l]; [done|]. rewrite last_cons_cons.
  destruct (last (y :: l)) eqn:Hl; [done|].
  by apply last_None in Hl.
Qed.

Lemma onSchedule_run env sub t tx times :
  onSchedule sub t tx → paced t times →
  ∃ final, finalTx env (Swept <$> times) tx = Some final ∧
           onSchedule sub (default t (last times)) final.
Proof.
  revert t tx. induction times as [|t' times IH]; intros t tx Hon Hp.
  { by exists tx. }
  destruct Hp as [Hpace Hp].
  destruct (onSchedule_step env sub t t' tx Hon Hpace) as (tx' & e & Hsw & Hon').
  destruct (IH t' tx' Hon' Hp) as (final & Hfin & Hlast).
  exists final. split.
  - rewrite fmap_cons, finalTx_cons. simpl. by rewrite Hsw.
  - by rewrite default_last_cons.
Qed.

(** X4: sweep an unflagged record created at [t_sub] at clock readings
    that start within 2000 ms of [t_sub] and follow each other by at most
    2000 ms (the 2-second interval with no late tick).  Then, [t] being
    the last reading, the record is SUBMITTED exactly while
    [t - t_sub <= 4000], CONVERTING while [4000 < t - t_sub <= 8000],
    IN_TRANSIT while [8000 < t - t_sub <= 15000] and FUNDS_ARRIVED from
    then on, and its FUNDS_ARRIVED timestamp lies more than 15000 and at
    most 17000 ms after [t_sub]. *)
Theorem paced_sweeps_arrival_window env details t_id t_eta t_sub times :
  truthy (d_requiresAuth details) = false → paced t_sub times →
  ∃ final,
    finalTx env (Swept <$> times) (newTransaction details t_id t_eta t_sub)
    = Some final ∧
    let elapsed := default t_sub (last times) - t_sub in
    (status final = SUBMITTED ↔ elapsed ≤ 4000) ∧
    (status final = CONVERTING ↔ 4000 < elapsed ≤ 8000) ∧
    (status final = IN_TRANSIT ↔ 8000 < elapsed ≤ 15000) ∧
    (status final = FUNDS_ARRIVED ↔ 15000 < elapsed) ∧
    (status final = FUNDS_ARRIVED →
       ∃ a, statusTimestamps final !! FUNDS_ARRIVED = Some a ∧
            t_sub + 15000 < a ≤ t_sub + 17000).
Proof.
  intros Hauth Hp.
  destruct (onSchedule_run env t_sub t_sub
              (newTransaction details t_id t_eta t_sub) times)
    as (final & Hfin & (_ & _ & Hon)); [|done|].
  { split_and!; simpl; [by rewrite lookup_singleton_eq|done|lia]. }
  exists final. split; [done|]. simpl.
  destruct (status final); try done;
    split_and!; try (split; (done || lia)); try done.
  intros _. by destruct Hon as [_ ?].
Qed.

(** Sweeps every two seconds, the first one second after submission. *)
Lemma paced_sweeps_arrival_window_witness :
  ∃ final,
    finalTx demoEnv
      (Swept <$> [1000; 3000; 5000; 7000; 9000; 11000; 13000; 15000; 17000])
      (newTransaction (demoDetails None) 0 0 0)
    = Some final ∧ status final = FUNDS_ARRIVED ∧
    statusTimestamps final !! FUNDS_ARRIVED = Some 17000.
Proof.
  destruct (paced_sweeps_arrival_window demoEnv (demoDetails None) 0 0 0
              [1000; 3000; 5000; 7000; 9000; 11000; 13000; 15000; 17000])
    as (final & Hfin & _); [reflexivity|simpl; lia|].
  exists final. split; [exact Hfin|].
  vm_compute in Hfin. injection Hfin as <-. split; reflexivity.
Defined.

(** ** Late sweeps *)

(** A sweep later than 15 seconds after submission takes an unflagged
    record one timer edge further, unless it has arrived. *)
Lemma late_sweep env details sub now tx :
  unflagged details tx → statusTimestamps tx !! SUBMITTED = Some sub →
  sub + 15000 < now →
  ∃ tx' e, sweepTx env now tx = Some (tx', e) ∧
    unflagged details tx' ∧ statusTimestamps tx' !! SUBMITTED = Some sub ∧
    sweepsLeft (status tx') = pred (sweepsLeft (status tx)).
Proof.
  intros (Hauth & Hfee & Hnf & Hng) Hsub Hlate.
  destruct (status tx) eqn:Hs; try done.
  - rewrite (sweepTx_SUBMITTED _ _ _ sub) by done.
    rewrite bool_decide_eq_true_2, Hauth by lia.
    do 2 eexists. split; [done|]. unfold unflagged. simpl.
    by rewrite lookup_insert_ne.
  - rewrite (sweepTx_CONVERTING _ _ _ sub) by done.
    rewrite bool_decide_eq_true_2 by lia.
    do 2 eexists. split; [done|]. unfold unflagged. simpl.
    by rewrite lookup_insert_ne.
  - rewrite (sweepTx_IN_TRANSIT _ _ _ sub) by done.
    rewrite bool_decide_eq_true_2 by lia.
    do 2 eexists. split; [done|]. unfold unflagged. simpl.
    by rewrite lookup_insert_ne.
  - rewrite sweepTx_FUNDS_ARRIVED by done.
    do 2 eexists. split; [done|]. unfold unflagged. by rewrite Hs.
Qed.

Lemma sweepsLeft_0 s : sweepsLeft s = 0%nat → s = FUNDS_ARRIVED.
Proof. by destruct s. Qed.

Lemma sweepsLeft_le_3 s : (sweepsLeft s ≤ 3)%nat.
Proof. destruct s; simpl; lia. Qed.

Lemma submitted_step env sub ev a b e :
  statusTimestamps a !! SUBMITTED = Some sub ∧ well_formed a →
  stepTx env ev a = Some (b, e) →
  statusTimestamps b !! SUBMITTED = Some sub ∧ well_formed b.
Proof.
  intros [Hsub Hwf] Hst. split; [|by eapply well_formed_step].
  apply stepTx_sound in Hst.
  destruct (TxStep_timestamps _ _ _ _ _ Hwf Hst) as (Hincl & _).
  by eapply lookup_weaken.
Qed.

Lemma finalTx_Swept env now evs tx tx' e :
  sweepTx env now tx = Some (tx', e) →
  finalTx env (Swept now :: evs) tx = finalTx env evs tx'.
Proof. intros Hsw. rewrite finalTx_cons. simpl. by rewrite Hsw. Qed.

(** X5: whatever sweeps and authorizations an unflagged record created at
    [t_sub] has been through, three further sweeps, each reading a clock
    later than [t_sub + 15000], leave it in FUNDS_ARRIVED. *)
Theorem three_late_sweeps_arrive env evs details t_id t_eta t_sub n1 n2 n3 :
  truthy (d_requiresAuth details) = false →
  t_sub + 15000 < n1 → t_sub + 15000 < n2 → t_sub + 15000 < n3 →
  ∃ final,
    finalTx env (evs ++ [Swept n1; Swept n2; Swept n3])
      (newTransaction details t_id t_eta t_sub) = Some final ∧
    status final = FUNDS_ARRIVED.
Proof.
  intros Hauth H1 H2 H3.
  set (tx := newTransaction details t_id t_eta t_sub).
  destruct (runTx_new env evs details t_id t_eta t_sub)
    as (tr & effs & Hr & _).
  destruct (runTx_head _ _ _ _ _ Hr) as [tr' Htr].
  assert (is_Some (last tr)) as [mid Hlast].
  { rewrite last_is_Some. by subst tr. }
  assert (finalTx env evs tx = Some mid) as Hmid.
  { unfold finalTx, tx. by rewrite Hr. }
  assert (unflagged details mid) as Hu.
  { eapply finalTx_invariant; [apply unflagged_step| |done]. by split_and!. }
  assert (statusTimestamps mid !! SUBMITTED = Some t_sub ∧ well_formed mid)
    as [Hsub _].
  { eapply (finalTx_invariant env
              (λ a, statusTimestamps a !! SUBMITTED = Some t_sub
                    ∧ well_formed a));
      [apply submitted_step| |done].
    split; [by simpl; rewrite lookup_singleton_eq|apply well_formed_new]. }
  destruct (late_sweep env details t_sub n1 mid Hu Hsub H1)
    as (x1 & e1 & Hs1 & Hu1 & Hsub1 & Hl1).
  destruct (late_sweep env details t_sub n2 x1 Hu1 Hsub1 H2)
    as (x2 & e2 & Hs2 & Hu2 & Hsub2 & Hl2).
  destruct (late_sweep env details t_sub n3 x2 Hu2 Hsub2 H3)
    as (x3 & e3 & Hs3 & _ & _ & Hl3).
  exists x3. split.
  - rewrite finalTx_app. fold tx. rewrite Hmid. simpl.
    by rewrite (finalTx_Swept _ _ _ _ _ _ Hs1), (finalTx_Swept _ _ _ _ _ _ Hs2),
      (finalTx_Swept _ _ _ _ _ _ Hs3).
  - apply sweepsLeft_0. pose proof (sweepsLeft_le_3 (status mid)). lia.
Qed.

(** A record that has only seen an early sweep, then three late ones. *)
Lemma three_late_sweeps_arrive_witness :
  ∃ final,
    finalTx demoEnv ([Swept 3000] ++ [Swept 20000; Swept 20000; Swept 20001])
      (newTransaction (demoDetails None) 0 0 0) = Some final ∧
    status final = FUNDS_ARRIVED.
Proof.
  apply (three_late_sweeps_arrive demoEnv [Swept 3000] (demoDetails None)
           0 0 0 20000 20000 20001); [reflexivity|lia..].
Defined.

(** ** Sweeps at one instant *)





(** ** After the clearance *)

Lemma stepTx_otherFields env ev a b e :
  stepTx env ev a = Some (b, e) → otherFields b = otherFields a.
Proof. by intros [| |]%stepTx_sound. Qed.

(** X7: a record created at [t_sub] that is awaiting clearance is taken to
    FUNDS_ARRIVED by an authorization naming its id at clock reading [g],
    a sweep later than [g + 4000] and a sweep later than [t_sub + 15000];
    it then carries [g] as its CLEARANCE_GRANTED timestamp and
    [clearanceFeePaid] true exactly for method 'fee'. *)
Theorem cleared_record_arrives env evs details t_id t_eta t_sub mid
    method g n2 n3 :
  let tx := newTransaction details t_id t_eta t_sub in
  finalTx env evs tx = Some mid →
  status mid = FLAGGED_AWAITING_CLEARANCE →
  g + 4000 < n2 → t_sub + 15000 < n3 →
  ∃ final,
    finalTx env (evs ++ [Authorized (tx_id tx) method g; Swept n2; Swept n3])
      tx = Some final ∧
    status final = FUNDS_ARRIVED ∧
    clearanceFeePaid final = Some (bool_decide (method = method_fee)) ∧
    statusTimestamps final !! CLEARANCE_GRANTED = Some g.
Proof.
  intros tx Hmid Hs H2 H3.
  assert (otherFields mid = otherFields tx) as Hid.
  { eapply (finalTx_invariant env (λ a, otherFields a = otherFields tx));
      [|done|done].
    intros ev a b e Ha Hst. by rewrite (stepTx_otherFields _ _ _ _ _ Hst). }
  assert (tx_id mid = tx_id tx) as Hid' by (by injection Hid).
  assert (statusTimestamps mid !! SUBMITTED = Some t_sub ∧ well_formed mid)
    as [Hsub _].
  { eapply (finalTx_invariant env
              (λ a, statusTimestamps a !! SUBMITTED = Some t_sub
                    ∧ well_formed a));
      [apply submitted_step| |done].
    split; [by simpl; rewrite lookup_singleton_eq|apply well_formed_new]. }
  set (x1 := granted mid method g).
  set (x2 := moved x1 IN_TRANSIT n2).
  set (x3 := moved x2 FUNDS_ARRIVED n3).
  assert (sweepTx env n2 x1 = Some (x2, [])) as Hs2.
  { rewrite (sweepTx_CLEARANCE_GRANTED _ _ _ t_sub g); try done.
    - by rewrite bool_decide_eq_true_2.
    - by simpl; rewrite lookup_insert_ne.
    - by simpl; rewrite lookup_insert_eq. }
  assert (sweepTx env n3 x2 = Some (x3, arrivalEffects env x2)) as Hs3.
  { rewrite (sweepTx_IN_TRANSIT _ _ _ t_sub); try done.
    - by rewrite bool_decide_eq_true_2 by lia.
    - by simpl; rewrite !lookup_insert_ne. }
  exists x3. split_and!; [|done..|].
  - rewrite finalTx_app, Hmid. simpl. rewrite finalTx_cons. simpl.
    rewrite authorizeTx_match by done. fold x1.
    by rewrite (finalTx_Swept _ _ _ _ _ _ Hs2), (finalTx_Swept _ _ _ _ _ _ Hs3).
  - subst x1 x2 x3. simpl. rewrite !lookup_insert_ne by done.
    apply lookup_insert_eq.
Qed.

(** The flagged sample, cleared by fee at six seconds. *)
Lemma cleared_record_arrives_witness :
  ∃ final,
    finalTx demoEnv
      ([Swept 5000] ++ [Authorized "txn_0" method_fee 6000;
                        Swept 10001; Swept 15001])
      (newTransaction (demoDetails (Some true)) 0 0 0) = Some final ∧
    status final = FUNDS_ARRIVED ∧
    clearanceFeePaid final = Some true ∧
    statusTimestamps final !! CLEARANCE_GRANTED = Some 6000.
Proof.
  apply (cleared_record_arrives demoEnv [Swept 5000]
           (demoDetails (Some true)) 0 0 0 flaggedTx method_fee 6000
           10001 15001); [reflexivity|reflexivity|lia|lia].
Defined.

(** ** The shape of the ledger *)

Lemma stepApp_otherFields env op st st' effs :
  stepApp env op st = Some (st', effs) →
  map otherFields (transactions st')
  = match op with
    | Submit details t_id t_eta t_sub =>
        [otherFields (newTransaction details t_id t_eta t_sub)]
    | _ => []
    end ++ map otherFields (transactions st).
Proof.
  intros Hst. pose proof (stepApp_records _ _ _ _ _ Hst) as Hrec.
  destruct op; [by rewrite Hrec|..]; simpl.
  - revert Hrec. generalize (transactions st) (transactions st').
    induction 1 as [|a b l1 l2 (ev & e' & Hab) _ IHl]; [done|]. simpl.
    by rewrite IHl, (stepTx_otherFields _ _ _ _ _ Hab).
  - revert Hrec. generalize (transactions st) (transactions st').
    induction 1 as [|a b l1 l2 (ev & e' & Hab) _ IHl]; [done|]. simpl.
    by rewrite IHl, (stepTx_otherFields _ _ _ _ _ Hab).
Qed.

(** X8: over any sequence of submissions, sweeps and authorizations the
    ledger only grows, at the front: afterwards it holds one record per
    submission, newest first, followed by one record for each record it
    held before, in the same order; and every record still has the id,
    account, recipient, amounts, fee, rate, type, estimated arrival,
    purpose, description, split group and [requiresAuth] flag it was
    created (or found) with. *)
Theorem ledger_only_grows_in_front env ops st st' effs :
  runApp env ops st = Some (st', effs) →
  map otherFields (transactions st')
  = map otherFields (reverse (submissions ops))
    ++ map otherFields (transactions st) ∧
  length (transactions st')
  = (length (submissions ops) + length (transactions st))%nat.
Proof.
  intros Hrun.
  assert (map otherFields (transactions st')
          = map otherFields (reverse (submissions ops))
            ++ map otherFields (transactions st)) as Heq.
  { revert st st' effs Hrun.
    induction ops as [|op ops IH]; intros st st' effs; simpl.
    - by intros [= <- <-].
    - destruct (stepApp env op st) as [[st1 e]|] eqn:Hst; [simpl|done].
      destruct (runApp env ops st1) as [[st2 es]|] eqn:Hrun; [simpl|done].
      intros [= <- <-]. rewrite (IH _ _ _ Hrun).
      rewrite (stepApp_otherFields _ _ _ _ _ Hst).
      destruct op; simpl; [|done..].
      by rewrite reverse_cons, map_app, <- app_assoc. }
  split; [done|].
  apply (f_equal length) in Heq.
  by rewrite length_app, !length_map, length_reverse in Heq.
Qed.

(** Two submissions around a sweep, from the empty ledger. *)
Lemma ledger_only_grows_in_front_witness :
  ∃ st' effs,
    runApp demoEnv [Submit (demoDetails None) 0 0 0; Sweep (λ _, 5000);
                    Submit (demoDetails (Some true)) 6000 6000 6000]
      {| transactions := []; recipients := [] |} = Some (st', effs) ∧
    length (transactions st') = (2 + 0)%nat.
Proof.
  eexists _, _. split; [reflexivity|].
  apply (ledger_only_grows_in_front demoEnv
    [Submit (demoDetails None) 0 0 0; Sweep (λ _, 5000);
     Submit (demoDetails (Some true)) 6000 6000 6000]
    {| transactions := []; recipients := [] |} _ _ eq_refl).
Defined.

(** * Properties of the recipient operations *)

(** ** The account-number mask *)








(** ** Edits of recipients *)

Lemma updatedRecipient_twice r data1 data2 :
  updatedRecipient (updatedRecipient r data1) data2 = updatedRecipient r data2.
Proof. done. Qed.

(** X10: an edit keeps the recipients array as long as it was, with the
    same ids and delivery options in the same order, and it never touches
    the ledger; an edit naming an id no recipient has leaves the array as
    it was and still announces "Recipient Updated"; of two edits of the
    same id the later one wins (so an edit repeated changes nothing
    more); and edits of different ids can be made in either order. *)
Theorem onUpdateRecipient_edits recipientId data st :
  let st' := (onUpdateRecipient recipientId data st).1 in
  map rec_id (recipients st') = map rec_id (recipients st) ∧
  map deliveryOptions (recipients st') = map deliveryOptions (recipients st) ∧
  transactions st' = transactions st ∧
  ((∀ r, r ∈ recipients st → rec_id r ≠ recipientId) →
     st' = st ∧
     (onUpdateRecipient recipientId data st).2
     = [addNotification ACCOUNT "Recipient Updated"
          (RecipientUpdatedMsg (data_fullName data)) None]) ∧
  (∀ data2,
     (onUpdateRecipient recipientId data2 st').1
     = (onUpdateRecipient recipientId data2 st).1) ∧
  (∀ otherId data2, otherId ≠ recipientId →
     (onUpdateRecipient otherId data2 st').1
     = (onUpdateRecipient recipientId data
          (onUpdateRecipient otherId data2 st).1).1).
Proof.
  destruct st as [txs rcps]. simpl. split_and!.
  - rewrite <- list_fmap_compose. apply list_fmap_ext.
    intros i r _. simpl. by case_bool_decide.
  - rewrite <- list_fmap_compose. apply list_fmap_ext.
    intros i r _. simpl. by case_bool_decide.
  - done.
  - intros Hnone. split; [|done]. f_equal.
    rewrite <- (list_fmap_id rcps) at 2. apply list_fmap_ext.
    intros i r Hr. rewrite bool_decide_eq_false_2; [done|].
    apply Hnone. by eapply list_elem_of_lookup_2.
  - intros data2. f_equal. rewrite <- list_fmap_compose.
    apply list_fmap_ext. intros i r _. simpl.
    by repeat (case_bool_decide; simpl in * ).
  - intros otherId data2 Hne. f_equal. rewrite <- !list_fmap_compose.
    apply list_fmap_ext. intros i r _. simpl.
    repeat (case_bool_decide; simpl in * ); try done; congruence.
Qed.

(** * Properties of the debiting operations *)

(** ** Finding and debiting *)


Lemma find_elem {A} (p : A → bool) (l : list A) (a : A) :
  List.find p l = Some a → a ∈ l ∧ p a = true.
Proof.
  intros Hf. apply List.find_some in Hf as [Hin Hp].
  split; [by apply list_elem_of_In|done].
Qed.

Lemma findAccount_Some accountId accs a :
  findAccount accountId accs = Some a → a ∈ accs ∧ acc_id a = accountId.
Proof.
  intros [Hin Hp]%find_elem. split; [done|].
  by apply bool_decide_eq_true in Hp.
Qed.








(** ** Accepted and declined payments *)

Lemma Qltb_false x y : Qltb x y = false ↔ (y <= x)%Q.
Proof.
  unfold Qltb. rewrite Qgtb_not_lt. split; [apply Qnot_lt_le|apply Qle_not_lt].
Qed.

(** What an accepted payment does to the accounts. *)
Lemma pay_accepted p bank :
  (pay p bank).1 = true →
  ∃ amount account,
    price p bank = Some amount ∧ payer p bank = Some account ∧
    (amount <= balance account)%Q ∧
    accounts (pay p bank).2
    = debitAccount (acc_id account) amount (accounts bank).
Proof.
  destruct p as [billId src|subscriptionId|prov ph amount accountId n1 n2
                 |cause amount accountId n1 n2|amount rest accountId n1 n2];
    simpl.
  - unfold onPayUtility.
    destruct (List.find _ (utilityBills bank)) as [bill|]; [|done].
    destruct (findAccount src (accounts bank)) as [a|] eqn:Ha; [|done].
    destruct (Qltb (balance a) (bill_amount bill)) eqn:Hlt; [done|].
    intros _. exists (bill_amount bill), a. simpl.
    apply findAccount_Some in Ha as [_ ->].
    split_and!; [done..|by apply Qltb_false|done].
  - unfold onPaySubscription.
    destruct (List.find _ (subscriptions bank)) as [sub|]; [|done].
    destruct (List.find _ (accounts bank)) as [a|] eqn:Ha; [|done].
    destruct (Qltb (balance a) (sub_amount sub)) eqn:Hlt; [done|].
    intros _. exists (sub_amount sub), a. simpl.
    split_and!; [done..|by apply Qltb_false|done].
  - unfold onPurchaseAirtime.
    destruct (findAccount accountId (accounts bank)) as [a|] eqn:Ha; [|done].
    destruct (Qltb (balance a) amount) eqn:Hlt; [done|].
    intros _. exists amount, a. simpl.
    apply findAccount_Some in Ha as [_ ->].
    split_and!; [done..|by apply Qltb_false|done].
  - unfold onDonate.
    destruct (findAccount accountId (accounts bank)) as [a|] eqn:Ha; [|done].
    destruct (Qltb (balance a) amount) eqn:Hlt; [done|].
    intros _. exists amount, a. simpl.
    apply findAccount_Some in Ha as [_ ->].
    split_and!; [done..|by apply Qltb_false|done].
  - unfold onBookFlight.
    destruct (findAccount accountId (accounts bank)) as [a|] eqn:Ha; [|done].
    destruct (Qltb (balance a) amount) eqn:Hlt; [done|].
    intros _. exists amount, a. simpl.
    apply findAccount_Some in Ha as [_ ->].
    split_and!; [done..|by apply Qltb_false|done].
Qed.

(** X11: each of [onPayUtility], [onPaySubscription], [onPurchaseAirtime],
    [onDonate] and [onBookFlight] returns true exactly when what is paid
    for exists, the paying account exists and its balance is at least the
    amount; and when it returns false it leaves accounts, bills,
    subscriptions, purchases, donations and bookings as they were. *)
Theorem payment_all_or_nothing p bank :
  ((pay p bank).1 = true ↔
   ∃ amount account,
     price p bank = Some amount ∧ payer p bank = Some account ∧
     (amount <= balance account)%Q) ∧
  ((pay p bank).1 = false → (pay p bank).2 = bank).
Proof.
  split; [split|].
  - intros (amount & account & ? & ? & ? & _)%pay_accepted. eauto.
  - intros (amount & account & Hp & Ha & Hle%Qltb_false).
    destruct p; simpl in *.
    + unfold onPayUtility.
      destruct (List.find _ (utilityBills bank)); simplify_eq/=.
      by rewrite Ha, Hle.
    + unfold onPaySubscription.
      destruct (List.find _ (subscriptions bank)); simplify_eq/=.
      by rewrite Ha, Hle.
    + unfold onPurchaseAirtime. simplify_eq. by rewrite Ha, Hle.
    + unfold onDonate. simplify_eq. by rewrite Ha, Hle.
    + unfold onBookFlight. simplify_eq. by rewrite Ha, Hle.
  - destruct p; simpl.
    + unfold onPayUtility.
      destruct (List.find _ (utilityBills bank)); [|done].
      destruct (findAccount _ _); [|done]. by destruct (Qltb _ _).
    + unfold onPaySubscription.
      destruct (List.find _ (subscriptions bank)); [|done].
      destruct (List.find _ (accounts bank)); [|done]. by destruct (Qltb _ _).
    + unfold onPurchaseAirtime.
      destruct (findAccount _ _); [|done]. by destruct (Qltb _ _).
    + unfold onDonate.
      destruct (findAccount _ _); [|done]. by destruct (Qltb _ _).
    + unfold onBookFlight.
      destruct (findAccount _ _); [|done]. by destruct (Qltb _ _).
Qed.






(** ** Paying a bill again *)




(** * Split transfers *)

Lemma splitFrom_spec env details clock todo : ∀ i st,
  splitFrom env details clock i todo st =
    ({| transactions :=
          reverse (imap (λ k, splitTransaction details clock (i + k)) todo)
          ++ transactions st;
        recipients := recipients st |},
     mjoin (imap (λ k split,
                    submitEffects env
                      (splitTransaction details clock (i + k) split)) todo)).
Proof.
  induction todo as [|split rest IH]; intros i st.
  - by destruct st.
  - cbn [splitFrom]. unfold createTransaction. rewrite IH.
    cbn [transactions recipients imap mjoin list_join].
    rewrite reverse_cons, <- app_assoc. cbn [app].
    replace (i + 0)%nat with i by lia.
    rewrite (imap_ext (λ k, splitTransaction details clock (S i + k))
               ((λ k, splitTransaction details clock (i + k)) ∘ S) rest)
      by (intros k x _; simpl; f_equal; lia).
    rewrite (imap_ext
               (λ k split, submitEffects env
                             (splitTransaction details clock (S i + k) split))
               ((λ k split, submitEffects env
                              (splitTransaction details clock (i + k) split))
                ∘ S) rest)
      by (intros k x _; simpl; do 2 f_equal; lia).
    reflexivity.
Qed.

Lemma countIf_submitEffects env tx :
  countIf isSubmittedNotification (submitEffects env tx) = 1%nat.
Proof.
  unfold countIf, submitEffects.
  destruct (email_transactions _), (sms_transactions _); reflexivity.
Qed.

Lemma countIf_join (p : Effect → bool) (ls : list (list Effect)) :
  (∀ l, l ∈ ls → countIf p l = 1%nat) →
  countIf p (mjoin ls) = length ls.
Proof.
  induction ls as [|l ls IH]; intros H; [done|].
  change (mjoin (l :: ls)) with (l ++ mjoin ls).
  rewrite countIf_app, H, IH; [done| |left].
  intros l' Hl'. apply H. by right.
Qed.

(** X14: [onSplitTransaction] declines exactly when the source account is
    missing or its balance is below [totalAmount], and then changes
    nothing.  Otherwise it puts one SUBMITTED record per share in front of
    the ledger, the last share first, each without fee, at rate 1, with no
    authorization flag, and announces each with one Transfer Submitted
    notification.  In both cases the accounts and the recipients are what
    they were: a split is never debited. *)
Theorem split_queues_one_record_per_share env details clock accs st
    ok st' accs' effs :
  onSplitTransaction env details clock accs st = (ok, st', accs', effs) →
  accs' = accs ∧ recipients st' = recipients st ∧
  if ok then
    (∃ a, findAccount (sd_sourceAccountId details) accs = Some a ∧
          (totalAmount details <= balance a)%Q) ∧
    transactions st' =
      reverse (imap (splitTransaction details clock) (splits details))
      ++ transactions st ∧
    countIf isSubmittedNotification effs = length (splits details) ∧
    ∀ i split, splits details !! i = Some split →
      let tx := splitTransaction details clock i split in
      status tx = SUBMITTED ∧ truthy (requiresAuth tx) = false ∧
      sendAmount tx = split_amount split ∧
      receiveAmount tx = split_amount split ∧
      fee tx = 0%Q ∧ accountId tx = sd_sourceAccountId details
  else
    st' = st ∧ effs = [] ∧
    (findAccount (sd_sourceAccountId details) accs = None ∨
     ∃ a, findAccount (sd_sourceAccountId details) accs = Some a ∧
          (balance a < totalAmount details)%Q).
Proof.
  unfold onSplitTransaction. intros H.
  destruct (findAccount _ accs) as [a|] eqn:Hfind.
  - destruct (Qltb (balance a) (totalAmount details)) eqn:Hlt.
    + simplify_eq. split_and!; try done. right. exists a. split; [done|].
      unfold Qltb in Hlt. apply negb_true_iff in Hlt.
      apply Qnot_le_lt. intros Hle. apply Qle_bool_iff in Hle. congruence.
    + rewrite splitFrom_spec in H. simplify_eq. cbn [recipients transactions].
      split_and!; try done.
      * exists a. split; [done|]. by apply Qltb_false.
      * rewrite countIf_join, length_imap; [done|].
        intros l [k [split [-> _]]]%elem_of_lookup_imap.
        apply countIf_submitEffects.
  - simplify_eq. split_and!; try done. by left.
Qed.

Lemma split_queues_one_record_per_share_witness :
  ∃ st' effs,
    onSplitTransaction demoEnv demoSplit demoClock (accounts demoBank)
      {| transactions := [plainTx]; recipients := [] |}
      = (true, st', accounts demoBank, effs) ∧
    length (transactions st') = 3%nat ∧
    countIf isSubmittedNotification effs = 2%nat.
Proof.
  eexists _, _. split; [reflexivity|].
  pose proof (split_queues_one_record_per_share demoEnv demoSplit demoClock
                (accounts demoBank)
                {| transactions := [plainTx]; recipients := [] |}
                _ _ _ _ eq_refl) as (_ & _ & _ & Htx & Hn & _).
  split; [by rewrite Htx|exact Hn].
Defined.

(** * Record ids *)

Lemma txn_id_inj (t1 t2 : Z) :
  "txn_" +:+ pretty t1 = "txn_" +:+ pretty t2 ↔ t1 = t2.
Proof.
  split; [|by intros ->]. intros H.
  apply (inj pretty). cbn in H. by simplify_eq.
Qed.

(** X15: the id of a created record is a function of the millisecond it
    was created in, and of nothing else.  So, of two created records that
    await clearance, an authorization naming the first also clears the
    second exactly when both were created in the same millisecond. *)
Theorem authorization_reaches_same_millisecond d1 d2 t1 t2 e1 e2 s1 s2
    a b method now :
  tx_id a = tx_id (newTransaction d1 t1 e1 s1) →
  tx_id b = tx_id (newTransaction d2 t2 e2 s2) →
  status b = FLAGGED_AWAITING_CLEARANCE →
  (tx_id a = tx_id b ↔ t1 = t2) ∧
  (status (authorizeTx (tx_id a) method now b) = CLEARANCE_GRANTED
     ↔ t1 = t2).
Proof.
  intros Ha Hb Hst.
  assert (tx_id a = tx_id b ↔ t1 = t2) as Hid.
  { rewrite Ha, Hb. cbn [newTransaction tx_id]. apply txn_id_inj. }
  split; [done|]. rewrite <- Hid. unfold authorizeTx.
  case_bool_decide as Heq; case_bool_decide as Hs; simpl;
    rewrite ?Hst; done.
Qed.

Lemma authorization_reaches_same_millisecond_witness :
  status (authorizeTx (tx_id flaggedTx) method_code 9000
            (moved (newTransaction (demoDetails (Some true)) 0 10 20)
                   FLAGGED_AWAITING_CLEARANCE 6000))
    = CLEARANCE_GRANTED.
Proof.
  apply (authorization_reaches_same_millisecond
           (demoDetails (Some true)) (demoDetails (Some true)) 0 0 0 10 0 20
           flaggedTx
           (moved (newTransaction (demoDetails (Some true)) 0 10 20)
                  FLAGGED_AWAITING_CLEARANCE 6000)
           method_code 9000 eq_refl eq_refl eq_refl).
  reflexivity.
Defined.
(** * The cheque deposit wizard *)

Lemma invalidAmount_false numericAmount :
  invalidAmount numericAmount = false ↔ aboveZero numericAmount.
Proof.
  destruct numericAmount as [|q|negative]; simpl; [done| |done].
  rewrite orb_false_iff. split.
  - intros [_ Hle]. apply Qnot_le_lt. intros H%Qle_bool_iff. congruence.
  - intros Hq. split.
    + apply not_true_is_false. intros H%Qeq_bool_iff.
      rewrite H in Hq. by apply Qlt_irrefl in Hq.
    + apply not_true_is_false. intros H%Qle_bool_iff.
      by apply Qle_not_lt in H.
Qed.

Lemma present_Some o : present o = true → ∃ s, o = Some s ∧ s ≠ "".
Proof.
  destruct o as [s|]; [|done]. simpl. unfold nonEmpty.
  case_bool_decide; [done|]. eauto.
Qed.

Lemma handleDeposit_valid parseFloat fl call :
  aboveZero (parseFloat (amount fl)) →
  handleDeposit parseFloat fl = Some call → validCall call.
Proof.
  intros Hq. unfold handleDeposit.
  destruct (frontImage fl) as [front|], (backImage fl) as [back|]; try done.
  destruct (nonEmpty front) eqn:Hf, (nonEmpty back) eqn:Hb,
    (nonEmpty (df_accountId fl)) eqn:Ha; simpl; try done.
  intros [= <-]. unfold validCall, nonEmpty in *. simpl.
  repeat case_bool_decide; done.
Qed.

Lemma stepFlow_invariant parseFloat ev fl fl' call :
  flowInvariant parseFloat fl →
  stepFlow parseFloat ev fl = (fl', call) →
  flowInvariant parseFloat fl' ∧ ∀ c, call = Some c → validCall c.
Proof.
  intros (Hstep & Hamt & Himg & Herr) H.
  destruct ev; simpl in H; simplify_eq; (split; [|try done]).
  - case_bool_decide as H1; [|done].
    split_and!; simpl; try done.
  - case_bool_decide as H1; [|done].
    split_and!; simpl; try done.
  - case_bool_decide as H1; [|done]. unfold handleDetailsSubmit.
    destruct (invalidAmount _) eqn:Hinv; split_and!; simpl; auto; try lia.
    intros _. by apply invalidAmount_false.
  - split_and!; simpl; try done. intros H3. by destruct (Himg H3).
  - split_and!; simpl; try done. intros H3. by destruct (Himg H3).
  - repeat case_bool_decide; unfold flowInvariant; simpl;
      split_and!; auto; try lia; try done.
    intros _. apply Hamt. lia.
  - case_bool_decide as H2; simpl; [|done].
    destruct (present (frontImage fl)) eqn:Hf; simpl; [|done].
    destruct (present (backImage fl)) eqn:Hb; simpl; [|done].
    unfold handleImagesSubmit. rewrite Hf, Hb. simpl.
    apply present_Some in Hf as (? & -> & _).
    apply present_Some in Hb as (? & -> & _).
    split_and!; simpl; auto. intros _. apply Hamt. lia.
  - done.
  - intros c Hc. case_bool_decide as H3; [|done].
    eapply handleDeposit_valid; [|done]. apply Hamt. lia.
Qed.

Lemma runFlow_invariant parseFloat evs : ∀ fl fl' calls,
  flowInvariant parseFloat fl →
  runFlow parseFloat evs fl = (fl', calls) →
  flowInvariant parseFloat fl' ∧ Forall validCall calls.
Proof.
  induction evs as [|ev rest IH]; intros fl fl' calls Hinv H.
  - by simplify_eq/=.
  - cbn [runFlow] in H.
    destruct (stepFlow parseFloat ev fl) as [fl1 call] eqn:Hs.
    destruct (runFlow parseFloat rest fl1) as [fl2 calls2] eqn:Hr.
    simplify_eq.
    destruct (stepFlow_invariant _ _ _ _ _ Hinv Hs) as [Hinv1 Hcall].
    destruct (IH _ _ _ Hinv1 Hr) as [Hinv2 Hcalls].
    split; [done|]. apply Forall_app. split; [|done].
    destruct call as [c|]; simpl; [|done]. apply Forall_singleton. eauto.
Qed.

Lemma initialFlow_invariant parseFloat accs :
  flowInvariant parseFloat (initialFlow accs).
Proof. unfold flowInvariant. simpl. split_and!; auto; done. Qed.

(** X16: whatever is typed, selected, uploaded and clicked, in whatever
    order, the wizard stays in one of its three steps; past step 1 the
    amount field parses to a number above zero, Infinity included; on the
    review step both images are set; the message about missing images is
    never shown, the button that could raise it being disabled just then;
    and every call of [onDepositCheck] carries such an amount, a non-empty
    account id and two non-empty images. *)
Theorem deposit_calls_are_valid parseFloat accs evs fl calls :
  runFlow parseFloat evs (initialFlow accs) = (fl, calls) →
  flowInvariant parseFloat fl ∧ Forall validCall calls.
Proof.
  apply runFlow_invariant, initialFlow_invariant.
Qed.

Lemma deposit_calls_are_valid_witness :
  ∃ fl call,
    runFlow demoParse demoVisit (initialFlow (accounts demoBank))
      = (fl, [call]) ∧
    step fl = 3%nat ∧ validCall call.
Proof.
  eexists _, _. split; [reflexivity|]. split; [reflexivity|].
  pose proof (deposit_calls_are_valid demoParse (accounts demoBank)
                demoVisit _ _ eq_refl) as [_ Hc].
  apply (Forall_singleton validCall). exact Hc.
Defined.


(** * Crypto trades *)

Lemma Qsum_cons {A} (w : A → Q) x l : Qsum w (x :: l) = (w x + Qsum w l)%Q.
Proof. reflexivity. Qed.


Lemma foldl_Qsum {A} (w : A → Q) l : ∀ s,
  (foldl (λ sum x, sum + w x) s l == s + Qsum w l)%Q.
Proof.
  induction l as [|x l IH]; intros s; [unfold Qsum; simpl; ring|].
  cbn [foldl]. rewrite IH, Qsum_cons. ring.
Qed.

Lemma accountTotal_Qsum accs : (accountTotal accs == Qsum balance accs)%Q.
Proof. unfold accountTotal. rewrite foldl_Qsum. ring. Qed.



Lemma findHolding_None asset hs :
  findHolding asset hs = None → asset ∉ assetId <$> hs.
Proof.
  intros Hf (h & -> & Hin)%list_elem_of_fmap.
  apply list_elem_of_In in Hin.
  pose proof (List.find_none _ _ Hf h Hin) as Hb. simpl in Hb.
  by rewrite bool_decide_eq_true_2 in Hb.
Qed.


Lemma update_ids asset (upd : CryptoHolding → CryptoHolding) hs :
  (∀ h, assetId (upd h) = assetId h) →
  assetId <$> map (λ h, if bool_decide (assetId h = asset) then upd h else h) hs
  = assetId <$> hs.
Proof.
  intros Hupd. change (map ?f hs) with (f <$> hs).
  rewrite <- list_fmap_compose. apply list_fmap_ext.
  intros i h _. simpl. case_bool_decide; [apply Hupd|done].
Qed.

Lemma NoDup_fmap_filter {A B} (f : A → B) (P : A → Prop)
    `{!∀ x, Decision (P x)} (l : list A) :
  NoDup (f <$> l) → NoDup (f <$> filter P l).
Proof.
  induction l as [|x l IH]; [done|].
  rewrite fmap_cons, NoDup_cons. intros [Hx Hnd].
  rewrite filter_cons. destruct (decide (P x)); [|by apply IH].
  rewrite fmap_cons. apply NoDup_cons. split; [|by apply IH].
  intros (y & Hy & Hin%list_elem_of_filter)%list_elem_of_fmap.
  apply Hx. apply list_elem_of_fmap. exists y. tauto.
Qed.

Lemma onBuyCrypto_ids asset usdAmount assetPrice p ok p' :
  onBuyCrypto asset usdAmount assetPrice p = Some (ok, p') →
  NoDup (assetId <$> cryptoHoldings p) →
  NoDup (assetId <$> cryptoHoldings p').
Proof.
  unfold onBuyCrypto. intros H Hnd.
  destruct (findChecking _) as [checking|]; [|by simplify_eq].
  destruct (Qltb _ _); [by simplify_eq|].
  destruct (Qeq_bool assetPrice 0); [done|].
  destruct (findHolding asset _) as [existing|] eqn:Hf.
  - destruct (Qeq_bool _ 0); [done|]. simplify_eq. simpl.
    by rewrite update_ids.
  - simplify_eq. simpl. rewrite fmap_app. simpl.
    apply NoDup_app. split_and!; [done| |apply NoDup_singleton].
    intros x Hx ->%list_elem_of_singleton.
    by apply findHolding_None in Hf.
Qed.

Lemma onSellCrypto_ids feePercent asset cryptoAmount assetPrice p :
  NoDup (assetId <$> cryptoHoldings p) →
  NoDup (assetId <$>
         cryptoHoldings (onSellCrypto feePercent asset cryptoAmount
                           assetPrice p).2).
Proof.
  unfold onSellCrypto. intros Hnd.
  destruct (findHolding asset _) as [holding|]; [|done].
  destruct (Qltb _ _); [done|]. simpl.
  apply NoDup_fmap_filter. by rewrite update_ids.
Qed.

(** X18: a portfolio that lists each asset once keeps doing so through any
    sequence of purchases and sales, accepted or declined: a purchase
    merges into the entry there is, and only adds one where there is
    none. *)
Theorem holdings_one_per_asset feePercent ts : ∀ p p',
  NoDup (assetId <$> cryptoHoldings p) →
  runTrades feePercent ts p = Some p' →
  NoDup (assetId <$> cryptoHoldings p').
Proof.
  induction ts as [|t rest IH]; intros p p' Hnd H; [by simplify_eq/=|].
  cbn [runTrades] in H.
  destruct (stepTrade feePercent t p) as [[ok p1]|] eqn:Hs; [|done].
  simpl in H. apply (IH p1); [|done].
  destruct t as [asset usdAmount assetPrice|asset cryptoAmount assetPrice];
    simpl in Hs.
  - by eapply onBuyCrypto_ids.
  - injection Hs as Hs.
    pose proof (onSellCrypto_ids feePercent asset cryptoAmount assetPrice
                  p Hnd) as Hsell.
    by rewrite Hs in Hsell.
Qed.

Lemma holdings_one_per_asset_witness :
  ∃ p',
    runTrades (1 # 100) [Buy "eth" 100 50; Buy "btc" 200 200; Sell "eth" 2 50]
      demoPortfolio = Some p' ∧
    NoDup (assetId <$> cryptoHoldings p').
Proof.
  eexists. split; [reflexivity|].
  apply (holdings_one_per_asset (1 # 100)
           [Buy "eth" 100 50; Buy "btc" 200 200; Sell "eth" 2 50]
           demoPortfolio _); [|reflexivity].
  simpl. apply NoDup_singleton.
Defined.







(** * Task reminders *)

Lemma checkFrom_spec midnight now todo : ∀ ts,
  checkFrom midnight now todo ts =
    (map (λ t, if bool_decide
                    (task_id t ∈
                     task_id <$> filter (λ t, dueToday midnight now t = true)
                                   todo)
               then with_sent t else t) ts,
     reminder <$> filter (λ t, dueToday midnight now t = true) todo).
Proof.
  induction todo as [|task rest IH]; intros ts.
  - cbn [checkFrom]. rewrite filter_nil, !fmap_nil. f_equal.
    rewrite <- (map_id ts) at 1. apply map_ext.
    intros t. rewrite bool_decide_eq_false_2; [done|]. apply not_elem_of_nil.
  - cbn [checkFrom]. rewrite filter_cons.
    destruct (dueToday midnight now task) eqn:Hdue.
    + rewrite decide_True by done. rewrite IH.
      f_equal. unfold markSent. rewrite map_map. apply map_ext. intros t.
      assert (∀ x, x ∈ task_id <$> task ::
                     filter (λ t, dueToday midnight now t = true) rest
                   ↔ x = task_id task ∨
                     x ∈ task_id <$>
                         filter (λ t, dueToday midnight now t = true) rest)
        as Hcons by (intros x; apply elem_of_cons).
      destruct (decide (task_id t = task_id task)) as [Heq|Hne].
      * rewrite (bool_decide_eq_true_2 (task_id t = _)) by done.
        rewrite (bool_decide_eq_true_2 (task_id t ∈ _ <$> _ :: _))
          by (apply Hcons; by left).
        simpl. by case_bool_decide.
      * rewrite (bool_decide_eq_false_2 (task_id t = _)) by done.
        rewrite (bool_decide_ext _ _ (Hcons (task_id t))).
        case_bool_decide as H1; case_bool_decide as H2; try done.
        -- destruct H2. by right.
        -- by destruct H2.
    + rewrite decide_False by done. apply IH.
Qed.

Lemma dueToday_unannounced midnight now t :
  dueToday midnight now t = true → truthy (notificationSent t) = false.
Proof.
  unfold dueToday. destruct (completed t), (dueDate t); simpl; try done.
  destruct (truthy _); [done|done].
Qed.

(** Marking the tasks whose id is in [ids]: what it does to the count of
    unannounced tasks of a list whose due tasks all have their id there. *)
Lemma unannounced_marked midnight now (ids : list string) l :
  (∀ t, t ∈ l → dueToday midnight now t = true → task_id t ∈ ids) →
  (unannounced
     (map (λ t, if bool_decide (task_id t ∈ ids) then with_sent t else t) l)
   + length (filter (λ t, dueToday midnight now t = true) l)
   ≤ unannounced l)%nat.
Proof.
  unfold unannounced. induction l as [|t l IH]; intros Hids; [done|].
  cbn [map]. rewrite !filter_cons.
  assert (∀ t, t ∈ l → dueToday midnight now t = true → task_id t ∈ ids)
    as Hl by (intros ???; apply Hids; [by right|done]).
  specialize (IH Hl).
  destruct (dueToday midnight now t) eqn:Hdue.
  - rewrite (bool_decide_eq_true_2 (task_id t ∈ ids))
      by (apply Hids; [left|done]).
    rewrite (decide_True (P := true = true)) by done.
    rewrite (decide_False (P := truthy (notificationSent (with_sent t)) = false))
      by done.
    rewrite (decide_True (P := truthy (notificationSent t) = false))
      by by eapply dueToday_unannounced.
    simpl. lia.
  - rewrite (decide_False (P := false = true)) by done.
    case_bool_decide.
    + rewrite (decide_False (P := truthy (notificationSent (with_sent t)) = false))
        by done.
      destruct (decide (truthy (notificationSent t) = false)); simpl; lia.
    + destruct (decide (truthy (notificationSent t) = false)); simpl; lia.
Qed.

Lemma checkTasks_unannounced midnight now tasks :
  (length (checkTasks midnight now tasks).2
   + unannounced (checkTasks midnight now tasks).1
   ≤ unannounced tasks)%nat.
Proof.
  unfold checkTasks. rewrite checkFrom_spec. cbn [fst snd].
  rewrite length_fmap.
  pose proof (unannounced_marked midnight now
                (task_id <$> filter (λ t, dueToday midnight now t = true) tasks)
                tasks) as H.
  rewrite Nat.add_comm. apply H.
  intros t Hin Hdue. apply list_elem_of_fmap_2. by apply list_elem_of_filter.
Qed.

Lemma toggleTask_unannounced taskId tasks :
  unannounced (toggleTask taskId tasks) = unannounced tasks.
Proof.
  unfold unannounced, toggleTask.
  induction tasks as [|t tasks IH]; [done|]. cbn [map].
  rewrite !filter_cons. case_bool_decide; simpl;
    destruct (decide (truthy (notificationSent t) = false)); simpl;
    by rewrite IH.
Qed.

Lemma deleteTask_unannounced taskId tasks :
  (unannounced (deleteTask taskId tasks) ≤ unannounced tasks)%nat.
Proof.
  unfold unannounced, deleteTask.
  induction tasks as [|t tasks IH]; [done|].
  rewrite !filter_cons.
  destruct (decide (task_id t ≠ taskId));
    rewrite ?filter_cons;
    destruct (decide (truthy (notificationSent t) = false)); simpl; lia.
Qed.

(** X21: over any sequence of timer checks and of additions, togglings and
    deletions of tasks, the reminders sent number at most the tasks that
    had none at the start plus the tasks added: no task is reminded of
    twice, whatever the days the checks fall on, and whether or not ids
    repeat. *)
Theorem reminders_at_most_once midnight evs : ∀ tasks tasks' notices,
  runTasks midnight evs tasks = (tasks', notices) →
  (length notices + unannounced tasks' ≤ unannounced tasks + added evs)%nat.
Proof.
  induction evs as [|ev rest IH]; intros tasks tasks' notices H.
  - simplify_eq/=. lia.
  - cbn [runTasks] in H.
    destruct (stepTasks midnight ev tasks) as [tasks1 notices1] eqn:Hs.
    destruct (runTasks midnight rest tasks1) as [tasks2 notices2] eqn:Hr.
    simplify_eq. specialize (IH _ _ _ Hr). rewrite length_app.
    unfold added in *. rewrite filter_cons.
    destruct ev as [now|text dueDate category now|taskId|taskId];
      simpl in Hs; simplify_eq;
      [rewrite decide_False by done|rewrite decide_True by done
      |rewrite decide_False by done|rewrite decide_False by done]; simpl.
    + pose proof (checkTasks_unannounced midnight now tasks) as Hc.
      rewrite Hs in Hc. simpl in Hc. lia.
    + unfold addTask, unannounced in IH. rewrite filter_cons in IH.
      rewrite decide_True in IH by done. simpl in IH.
      unfold unannounced. lia.
    + rewrite toggleTask_unannounced in IH. lia.
    + pose proof (deleteTask_unannounced taskId tasks). lia.
Qed.

Lemma reminders_at_most_once_witness :
  ∃ tasks' notices,
    runTasks demoMidnight
      [CheckTasks 86500000; ToggleTask "task_2"; CheckTasks 87000000;
       AddTask "File taxes" (Some 86400001) None 87000001;
       CheckTasks 87000002]
      demoTasks = (tasks', notices) ∧
    (length notices + unannounced tasks' ≤ 3)%nat.
Proof.
  eexists _, _. split; [reflexivity|].
  apply (reminders_at_most_once demoMidnight
           [CheckTasks 86500000; ToggleTask "task_2"; CheckTasks 87000000;
            AddTask "File taxes" (Some 86400001) None 87000001;
            CheckTasks 87000002]
           demoTasks _ _ eq_refl).
Defined.

Lemma dueToday_same_day midnight now now' t :
  midnight now' = midnight now →
  dueToday midnight now' t = dueToday midnight now t.
Proof. unfold dueToday. by intros ->. Qed.

Lemma marked_none_due midnight now (ids : list string) l :
  (∀ t, t ∈ l → dueToday midnight now t = true → task_id t ∈ ids) →
  filter (λ t, dueToday midnight now t = true)
    (map (λ t, if bool_decide (task_id t ∈ ids) then with_sent t else t) l)
  = [].
Proof.
  induction l as [|t l IH]; intros Hids; [done|].
  cbn [map]. rewrite filter_cons, IH
    by (intros ???; apply Hids; [by right|done]).
  rewrite decide_False; [done|].
  case_bool_decide as Hin.
  - unfold dueToday. simpl. destruct (completed t), (dueDate t); simpl; done.
  - intros Hdue. apply Hin, Hids; [left|done].
Qed.

(** X22: a check reminds of every task that is due that day, not completed
    and not yet announced, in the order of the list; a second check on the
    same day, with nothing done in between, reminds of nothing. *)
Theorem check_leaves_nothing_due midnight now now' tasks :
  midnight now' = midnight now →
  (checkTasks midnight now tasks).2
    = reminder <$> filter (λ t, dueToday midnight now t = true) tasks ∧
  (checkTasks midnight now' (checkTasks midnight now tasks).1).2 = [].
Proof.
  intros Hday. unfold checkTasks. rewrite !checkFrom_spec. cbn [fst snd].
  split; [done|].
  rewrite (list_filter_iff _ (λ t, dueToday midnight now t = true))
    by (intros t; by rewrite (dueToday_same_day _ _ _ _ Hday)).
  rewrite marked_none_due; [done|].
  intros t Hin Hdue. apply list_elem_of_fmap_2. by apply list_elem_of_filter.
Qed.

Lemma check_leaves_nothing_due_witness :
  length (checkTasks demoMidnight 86500000 demoTasks).2 = 2%nat ∧
  (checkTasks demoMidnight 90000000
     (checkTasks demoMidnight 86500000 demoTasks).1).2 = [].
Proof.
  split; [reflexivity|].
  apply (check_leaves_nothing_due demoMidnight 86500000 90000000 demoTasks).
  reflexivity.
Defined.

(** * The notification inbox *)

Lemma ledgerCall_submitEffects env tx : Forall ledgerCall (submitEffects env tx).
Proof.
  unfold submitEffects.
  destruct (email_transactions _), (sms_transactions _); simpl;
    repeat (apply Forall_cons_2; [|]); try apply Forall_nil_2;
    try (by left); right; split; eauto.
Qed.

Lemma ledgerCall_arrivalEffects env tx :
  Forall ledgerCall (arrivalEffects env tx).
Proof.
  unfold arrivalEffects.
  destruct (push_transactions _), (email_transactions _); simpl;
    repeat (apply Forall_cons_2; [|]); try apply Forall_nil_2;
    try (by left); right; split; eauto.
Qed.

Lemma sweepTx_effects env now tx tx' e :
  sweepTx env now tx = Some (tx', e) →
  Forall ledgerCall e ∧ countIf isSubmittedNotification e = 0%nat.
Proof.
  intros Hsw.
  destruct (decide (status tx = FUNDS_ARRIVED)) as [Hfa|Hna].
  { rewrite sweepTx_FUNDS_ARRIVED in Hsw by done. by simplify_eq. }
  apply (stepTx_sound env (Swept now)) in Hsw.
  destruct (TxStep_effects _ _ _ _ _ Hsw Hna) as [(_ & _ & _ & ->)|[_ ->]];
    [|done].
  split; [apply ledgerCall_arrivalEffects|].
  unfold arrivalEffects, countIf.
  by destruct (push_transactions _), (email_transactions _).
Qed.

Lemma sweepFrom_effects env clock txs : ∀ i txs' effs,
  sweepFrom env clock i txs = Some (txs', effs) →
  Forall ledgerCall effs ∧ countIf isSubmittedNotification effs = 0%nat.
Proof.
  induction txs as [|tx txs IH]; intros i txs' effs; simpl.
  - by intros [= <- <-].
  - destruct (sweepTx env (clock i) tx) as [[tx' e]|] eqn:Htx; [simpl|done].
    destruct (sweepFrom env clock (S i) txs) as [[rest' es']|] eqn:Hrest;
      [simpl|done].
    intros [= <- <-].
    destruct (sweepTx_effects _ _ _ _ _ Htx) as [H1 H2].
    destruct (IH _ _ _ Hrest) as [H3 H4].
    split; [by apply Forall_app|]. rewrite countIf_app. lia.
Qed.

Lemma runApp_effects env ops : ∀ st st' effs,
  runApp env ops st = Some (st', effs) →
  Forall ledgerCall effs ∧
  countIf isSubmittedNotification effs = length (submissions ops).
Proof.
  induction ops as [|op ops IH]; intros st st' effs; simpl.
  - by intros [= <- <-].
  - destruct (stepApp env op st) as [[st1 e]|] eqn:Hst; [simpl|done].
    destruct (runApp env ops st1) as [[st2 es]|] eqn:Hrun; [simpl|done].
    intros [= <- <-]. destruct (IH _ _ _ Hrun) as [Hall Hn].
    rewrite countIf_app, Hn.
    destruct op as [details t_id t_eta t_sub|clock|transactionId method clock];
      simpl in Hst.
    + unfold createTransaction in Hst. injection Hst as <- <-.
      rewrite countIf_submitEffects.
      split; [|done]. apply Forall_app. split; [|done].
      apply ledgerCall_submitEffects.
    + unfold sweep in Hst.
      destruct (sweepFrom env clock 0 (transactions st)) as [[txs' e']|] eqn:Hs;
        [|done].
      simplify_eq/=. destruct (sweepFrom_effects _ _ _ _ _ _ Hs) as [H1 ->].
      split; [by apply Forall_app|done].
    + unfold onAuthorizeTransaction in Hst. simplify_eq.
      split; [done|]. done.
Qed.

(** The notifications among ledger calls: as many as the submission and
    arrival notices together. *)
Lemma ledgerCall_count effs :
  Forall ledgerCall effs →
  countIf isNotification effs
  = (countIf isSubmittedNotification effs
     + countIf isArrivalNotification effs)%nat.
Proof.
  unfold countIf. induction 1 as [|e effs He _ IH]; [done|].
  rewrite !filter_cons.
  destruct He as [(H1 & H2 & H3)|[(title & message & linkTo & ->) Hx]].
  - rewrite !decide_False by congruence. exact IH.
  - rewrite (decide_True (P := isNotification _ = true)) by done.
    destruct (isArrivalNotification _) eqn:Ha,
      (isSubmittedNotification _) eqn:Hs; try done;
      repeat case_decide; try done; simpl; lia.
Qed.

Lemma deliver_spec s clock effs : ∀ i inbox,
  ∃ news,
    notifications (deliver s clock i effs inbox)
      = news ++ notifications inbox ∧
    length news = countIf isNotification effs ∧
    Forall (λ n, read n = false) news.
Proof.
  induction effs as [|e effs IH]; intros i inbox.
  - by exists [].
  - destruct e as [type title message linkTo|to content|to content];
      cbn [deliver].
    + destruct (IH (S i) (notify s (clock i) type title message linkTo inbox))
        as (news & -> & Hlen & Hread).
      eexists (news ++ [_]). cbn [notify notifications].
      rewrite <- app_assoc. split; [done|]. split.
      * rewrite length_app, Hlen. unfold countIf. rewrite filter_cons.
        rewrite decide_True by done. simpl. lia.
      * apply Forall_app. split; [done|]. by apply Forall_singleton.
    + destruct (IH (S i) inbox) as (news & -> & Hlen & Hread).
      exists news. split_and!; [done| |done].
      rewrite Hlen. unfold countIf. rewrite filter_cons.
      by rewrite decide_False.
    + destruct (IH (S i) inbox) as (news & -> & Hlen & Hread).
      exists news. split_and!; [done| |done].
      rewrite Hlen. unfold countIf. rewrite filter_cons.
      by rewrite decide_False.
Qed.

Lemma deliver_quiet s clock effs : ∀ i inbox,
  push_transactions s = false → Forall ledgerCall effs →
  pushNotification (deliver s clock i effs inbox) = pushNotification inbox.
Proof.
  induction effs as [|e effs IH]; intros i inbox Hoff Hall; [done|].
  apply Forall_cons in Hall as [He Hall].
  destruct He as [(Hn & _ & _)|[(title & message & linkTo & ->) _]].
  - destruct e; [done|by apply IH..].
  - cbn [deliver]. rewrite IH by done. cbn [notify pushNotification].
    by rewrite Hoff.
Qed.

Lemma unread_app news olds p :
  Forall (λ n, read n = false) news →
  unread {| notifications := news ++ olds; pushNotification := p |}
  = (length news + length (filter (λ n, read n = false) olds))%nat.
Proof.
  intros Hnews. unfold unread. cbn [notifications].
  rewrite filter_app, length_app. f_equal.
  induction Hnews as [|n news Hn _ IH]; [done|].
  rewrite filter_cons, decide_True by done. simpl. by rewrite IH.
Qed.

(** X23: carried out on the inbox, the sink calls of any run of
    submissions, sweeps and authorizations put in front of the list one
    unread entry per submission and, with the push switch for transactions
    on, one per record that arrived during the run; what was in the list
    stays behind them as it was.  With the switch off no toast is raised
    or replaced, though submissions are still listed.  Marking as read
    leaves nothing unread. *)
Theorem inbox_counts_ledger_events env ops st st' effs clock inbox :
  runApp env ops st = Some (st', effs) →
  let inbox' := deliver (settings env) clock 0 effs inbox in
  let news :=
    (length (submissions ops)
     + (if push_transactions (settings env)
        then arrivedCount (transactions st') - arrivedCount (transactions st)
        else 0))%nat in
  drop news (notifications inbox') = notifications inbox ∧
  length (notifications inbox') = (news + length (notifications inbox))%nat ∧
  unread inbox' = (news + unread inbox)%nat ∧
  (push_transactions (settings env) = false →
   pushNotification inbox' = pushNotification inbox) ∧
  unread (onMarkNotificationsAsRead inbox') = 0%nat.
Proof.
  intros Hrun inbox' news.
  destruct (runApp_effects _ _ _ _ _ Hrun) as [Hall Hsub].
  destruct (runApp_arrivals _ _ _ _ _ Hrun) as (_ & Harr & _).
  destruct (deliver_spec (settings env) clock effs 0 inbox)
    as (entries & Hentries & Hlen & Hread).
  rewrite (ledgerCall_count _ Hall), Hsub, Harr in Hlen.
  fold news in Hlen. fold inbox' in Hentries.
  split_and!.
  - rewrite Hentries, <- Hlen. by rewrite drop_app_length.
  - rewrite Hentries, length_app. lia.
  - destruct inbox' as [ns p]. simpl in Hentries. subst ns.
    rewrite unread_app by done. unfold unread. lia.
  - intros Hoff. by apply deliver_quiet.
  - unfold unread, onMarkNotificationsAsRead. cbn [notifications].
    generalize (notifications inbox'). intros l.
    induction l as [|n l IH]; [done|]. cbn [map].
    by rewrite filter_cons, decide_False.
Qed.

Lemma inbox_counts_ledger_events_witness :
  ∃ st' effs,
    runApp demoEnv
      [Submit (demoDetails None) 0 0 0; Sweep (λ _, 5000); Sweep (λ _, 9000);
       Sweep (λ _, 16000)]
      {| transactions := []; recipients := [] |} = Some (st', effs) ∧
    unread (deliver (settings demoEnv) demoNotifyClock 0 effs emptyInbox)
      = 2%nat.
Proof.
  eexists _, _. split; [reflexivity|].
  pose proof (inbox_counts_ledger_events demoEnv
                [Submit (demoDetails None) 0 0 0; Sweep (λ _, 5000);
                 Sweep (λ _, 9000); Sweep (λ _, 16000)]
                {| transactions := []; recipients := [] |} _ _
                demoNotifyClock emptyInbox eq_refl) as (_ & _ & Hunread & _).
  exact Hunread.
Defined.

(** * Edits from the activity log *)

Lemma sweepTx_annotated env now updates tx :
  annotation updates →
  fst <$> sweepTx env now (applyUpdates updates tx)
  = applyUpdates updates ∘ fst <$> sweepTx env now tx.
Proof.
  intros (Hid & Hst & Hts & Hauth & Hfee). unfold sweepTx.
  assert (status (applyUpdates updates tx) = status tx) as ->
    by (simpl; by rewrite Hst).
  assert (statusTimestamps (applyUpdates updates tx) = statusTimestamps tx)
    as -> by (simpl; by rewrite Hts).
  assert (requiresAuth (applyUpdates updates tx) = requiresAuth tx) as ->
    by (simpl; by rewrite Hauth).
  assert (∀ s ts, with_status (applyUpdates updates tx) s ts
                  = applyUpdates updates (with_status tx s ts)) as Hws.
  { intros s ts. unfold with_status, applyUpdates. simpl.
    by rewrite Hst, Hts. }
  case_bool_decide; [done|].
  destruct (statusTimestamps tx !! SUBMITTED) as [sub|]; [simpl|done].
  repeat (case_bool_decide; simpl);
    repeat (match goal with |- context [Qgtb ?a ?b] =>
              destruct (Qgtb a b) end; simpl);
    rewrite ?Hws; try done.
  all: destruct (statusTimestamps tx !! CLEARANCE_GRANTED); simpl; try done.
  all: repeat (match goal with |- context [Qgtb ?a ?b] =>
                 destruct (Qgtb a b) end; simpl);
    rewrite ?Hws; done.
Qed.

Lemma updateTx_annotated_fields ids updates tx :
  annotation updates →
  tx_id (updateTx ids updates tx) = tx_id tx ∧
  status (updateTx ids updates tx) = status tx.
Proof.
  intros (Hid & Hst & _). unfold updateTx.
  case_bool_decide; [|done]. simpl. by rewrite Hid, Hst.
Qed.

Lemma sweepTx_updated env now ids updates tx :
  annotation updates →
  fst <$> sweepTx env now (updateTx ids updates tx)
  = updateTx ids updates ∘ fst <$> sweepTx env now tx.
Proof.
  intros Hann. unfold updateTx at 1. case_bool_decide as Hin.
  - rewrite (sweepTx_annotated _ _ _ _ Hann).
    destruct (sweepTx env now tx) as [[tx' e]|] eqn:Hsw; [simpl|done].
    f_equal. unfold updateTx.
    apply (stepTx_otherFields env (Swept now)) in Hsw.
    assert (tx_id tx' = tx_id tx) as -> by (unfold otherFields in Hsw; congruence).
    by rewrite bool_decide_eq_true_2.
  - destruct (sweepTx env now tx) as [[tx' e]|] eqn:Hsw; [simpl|done].
    f_equal. unfold updateTx.
    apply (stepTx_otherFields env (Swept now)) in Hsw.
    assert (tx_id tx' = tx_id tx) as -> by (unfold otherFields in Hsw; congruence).
    by rewrite bool_decide_eq_false_2.
Qed.

Lemma sweepFrom_updated env clock ids updates txs : ∀ i,
  annotation updates →
  fst <$> sweepFrom env clock i (map (updateTx ids updates) txs)
  = map (updateTx ids updates) ∘ fst <$> sweepFrom env clock i txs.
Proof.
  induction txs as [|tx txs IH]; intros i Hann; [done|].
  cbn [map sweepFrom].
  pose proof (sweepTx_updated env (clock i) ids updates tx Hann) as Htx.
  specialize (IH (S i) Hann).
  destruct (sweepTx env (clock i) tx) as [[tx1 e1]|],
    (sweepTx env (clock i) (updateTx ids updates tx)) as [[tx2 e2]|];
    simplify_eq/=; [|done].
  destruct (sweepFrom env clock (S i) txs) as [[r1 es1]|],
    (sweepFrom env clock (S i) (map (updateTx ids updates) txs))
      as [[r2 es2]|];
    by simplify_eq/=.
Qed.

Lemma authorizeTx_updated transactionId method now ids updates tx :
  annotation updates →
  authorizeTx transactionId method now (updateTx ids updates tx)
  = updateTx ids updates (authorizeTx transactionId method now tx).
Proof.
  intros Hann.
  destruct (updateTx_annotated_fields ids updates tx Hann) as [Hid Hst].
  destruct Hann as (Hi & Hs & Hts & Hauth & Hfee).
  unfold authorizeTx. rewrite Hid, Hst.
  destruct (bool_decide (tx_id tx = transactionId)
            && bool_decide (status tx = FLAGGED_AWAITING_CLEARANCE)); [|done].
  unfold updateTx. cbn [tx_id with_clearance].
  case_bool_decide; [|done].
  unfold with_clearance, applyUpdates. simpl.
  by rewrite Hs, Hts, Hfee.
Qed.

(** X24: updates that hold neither [id], [status], [statusTimestamps],
    [requiresAuth] nor [clearanceFeePaid] do not disturb the life of the
    records: editing the listed records and then sweeping or authorizing
    gives the ledger that sweeping or authorizing and then editing gives,
    a failing sweep failing either way. *)
Theorem annotations_commute_with_lifecycle env ids updates st :
  annotation updates →
  (∀ clock,
     fst <$> sweep env clock (onUpdateTransactions ids updates st)
     = onUpdateTransactions ids updates ∘ fst <$> sweep env clock st) ∧
  (∀ transactionId method clock,
     (onAuthorizeTransaction transactionId method clock
        (onUpdateTransactions ids updates st)).1
     = onUpdateTransactions ids updates
         (onAuthorizeTransaction transactionId method clock st).1).
Proof.
  intros Hann. split.
  - intros clock. unfold sweep, onUpdateTransactions. cbn [transactions].
    pose proof (sweepFrom_updated env clock ids updates (transactions st)
                  0 Hann) as H.
    destruct (sweepFrom env clock 0 (transactions st)) as [[r1 es1]|],
      (sweepFrom env clock 0 (map (updateTx ids updates) (transactions st)))
        as [[r2 es2]|];
      by simplify_eq/=.
  - intros transactionId method clock.
    unfold onAuthorizeTransaction, onUpdateTransactions.
    cbn [fst transactions recipients]. f_equal.
    generalize (transactions st). intros txs. revert clock.
    induction txs as [|tx txs IH]; intros clock; [done|].
    cbn [map imap]. f_equal; [by apply authorizeTx_updated|].
    apply (IH (clock ∘ S)).
Qed.

Lemma annotations_commute_with_lifecycle_witness :
  fst <$> sweep demoEnv (λ _, 5000)
            (onUpdateTransactions ["txn_0"] demoUpdates
               {| transactions := [plainTx]; recipients := [] |})
  = onUpdateTransactions ["txn_0"] demoUpdates ∘ fst
    <$> sweep demoEnv (λ _, 5000)
          {| transactions := [plainTx]; recipients := [] |}.
Proof.
  apply (annotations_commute_with_lifecycle demoEnv ["txn_0"] demoUpdates
           {| transactions := [plainTx]; recipients := [] |}).
  by split_and!.
Defined.

(** * The receipt's authorization warning *)





